(** * CainTask: the task dependency graph engine

    A shallow embedding of [src/utils/graphUtils.ts], of the completion rule
    of [EditModal] and of the state handlers of [FlowContent]
    ([saveToLocalStorage], [undo], [redo], [onConnect], [deleteSelected],
    [updateTask], [handleProjectSwitch]), followed by the properties of the
    engine that the specification states about them.

    JavaScript values are modelled as the code uses them: ids are strings,
    [string | null | undefined] is [option string], arrays are lists, a
    [Set<string>] is the list of its elements in insertion order, the object
    literal used as a dictionary is an association list of its own properties
    in insertion order, and an operation that can throw returns a
    [Completion]. *)

From Stdlib Require Import List String Ascii Bool ZArith NArith Arith Lia.
From Stdlib Require Import Relations Permutation DecimalString DecimalNat FinFun.
Import ListNotations.
Local Open Scope string_scope.
Local Open Scope list_scope.

Set Implicit Arguments.

(* ------------------------------------------------------------------ *)
(** ** JavaScript preliminaries *)

(** The outcome of running a piece of code: it returns a value, it throws a
    [TypeError], or it throws the [RangeError] of an exhausted call stack,
    when a recursion goes deeper than the stack allows. *)
Inductive Completion (A : Type) : Type :=
| Normal (a : A)
| TypeError
| RangeError.
Arguments TypeError {A}.
Arguments RangeError {A}.

Definition bind {A B : Type} (c : Completion A) (k : A -> Completion B)
  : Completion B :=
  match c with
  | Normal a => k a
  | TypeError => TypeError
  | RangeError => RangeError
  end.

Notation "x <- c ;; k" := (bind c (fun x => k))
  (at level 61, c at next level, right associativity).

(** A string is truthy iff it is not empty. *)
Definition truthy (s : string) : bool :=
  match s with
  | EmptyString => false
  | String _ _ => true
  end.

(** [null], [undefined] and the empty string are falsy. *)
Definition truthy_opt (o : option string) : bool :=
  match o with
  | Some s => truthy s
  | None => false
  end.

(** [a === b] where [b] may be [null] or [undefined]. *)
Definition strict_eq_opt (a : string) (b : option string) : bool :=
  match b with
  | Some s => String.eqb a s
  | None => false
  end.

(** [`${n}`] for a non-negative integer. *)
Definition template_of_nat (n : nat) : string :=
  NilEmpty.string_of_uint (Nat.to_uint n).

(** [Array.prototype.slice(0, end)]: a negative [end] counts from the end of
    the array. *)
Definition slice0 {A : Type} (l : list A) (e : Z) : list A :=
  if (e <? 0)%Z
  then firstn (Z.to_nat (Z.max (Z.of_nat (List.length l) + e) 0)) l
  else firstn (Z.to_nat e) l.

(** [l[i]]: [undefined] when [i] is not an index of [l]. *)
Definition element {A : Type} (l : list A) (i : Z) : option A :=
  if (i <? 0)%Z then None else nth_error l (Z.to_nat i).

(** [Set<string>]: the elements in insertion order, without repetition. *)
Module StringSet.
Definition t := list string.
Definition empty : t := [].
Definition has (s : t) (x : string) : bool := existsb (String.eqb x) s.
Definition add (x : string) (s : t) : t := if has s x then s else s ++ [x].
Definition delete (x : string) (s : t) : t :=
  filter (fun y => negb (String.eqb y x)) s.
End StringSet.

(* ------------------------------------------------------------------ *)
(** ** Data model ([App.tsx], reactflow's [Node] and [Edge]) *)

Record TaskNodeData := { label : string; completed : bool }.

(** Canvas coordinates are carried along and never inspected by the engine. *)
Record XYPosition := { x : Z; y : Z }.

Record TaskStyle := { background : option string; border : string }.

Module TaskNode.
Record t := {
  id : string;
  data : TaskNodeData;
  position : XYPosition;
  style : option TaskStyle
}.
End TaskNode.

Inductive MarkerType := Arrow | ArrowClosed.

Record EdgeMarker := { marker_type : MarkerType; color : option string }.

Record EdgeStyle := { stroke : string; strokeWidth : Z }.

Module Edge.
Record t := {
  id : string;
  source : string;
  target : string;
  type : option string;
  style : option EdgeStyle;
  markerEnd : option EdgeMarker
}.
End Edge.

(* ------------------------------------------------------------------ *)
(** ** [graphUtils.ts] *)

(** *** The adjacency object

    [graph] starts as the object literal [{}], whose prototype is
    [Object.prototype].  Reading [graph[k]] yields the own property when
    there is one, the inherited member when [k] names a property of
    [Object.prototype], and [undefined] otherwise. *)
Definition Graph := list (string * list string).

Definition Object_prototype_names : list string :=
  [ "constructor"; "hasOwnProperty"; "isPrototypeOf"; "propertyIsEnumerable";
    "toLocaleString"; "toString"; "valueOf"; "__proto__";
    "__defineGetter__"; "__defineSetter__";
    "__lookupGetter__"; "__lookupSetter__" ].

Definition inherited (k : string) : bool :=
  existsb (String.eqb k) Object_prototype_names.

Inductive PropertyValue :=
| Own (targets : list string)
| Inherited
| Undefined.

Fixpoint own (graph : Graph) (k : string) : option (list string) :=
  match graph with
  | [] => None
  | (k', v) :: rest => if String.eqb k' k then Some v else own rest k
  end.

Definition get (graph : Graph) (k : string) : PropertyValue :=
  match own graph k with
  | Some v => Own v
  | None => if inherited k then Inherited else Undefined
  end.

(** [graph[k].push(v)] on an own property. *)
Fixpoint push (graph : Graph) (k v : string) : Graph :=
  match graph with
  | [] => []
  | (k', l) :: rest =>
      if String.eqb k' k then (k', l ++ [v]) :: rest
      else (k', l) :: push rest k v
  end.

(** One iteration of the [arrows.forEach] that fills [graph].  An array is
    truthy even when empty; the inherited members are truthy too, and have
    no [push]. *)
Definition addArrow (graph : Graph) (arrow : Edge.t) : Completion Graph :=
  match get graph (Edge.source arrow) with
  | Undefined =>
      Normal (push (graph ++ [(Edge.source arrow, [])])
                   (Edge.source arrow) (Edge.target arrow))
  | Own _ => Normal (push graph (Edge.source arrow) (Edge.target arrow))
  | Inherited => TypeError
  end.

Fixpoint buildGraph (graph : Graph) (arrows : list Edge.t) : Completion Graph :=
  match arrows with
  | [] => Normal graph
  | arrow :: rest => g <- addArrow graph arrow ;; buildGraph g rest
  end.

(** *** [Object.keys]

    Own keys that are array indices (canonical decimal numerals up to
    [2^32 - 2]) come first, in ascending numeric order; the other keys follow
    in insertion order. *)
Definition digit (c : ascii) : option N :=
  let n := N_of_ascii c in
  if ((48 <=? n) && (n <=? 57))%N then Some (n - 48)%N else None.

Fixpoint digits (s : string) (acc : N) : option N :=
  match s with
  | EmptyString => Some acc
  | String c s' =>
      match digit c with
      | Some d => digits s' (10 * acc + d)%N
      | None => None
      end
  end.

Definition array_index (s : string) : option N :=
  match s with
  | EmptyString => None
  | String "0"%char EmptyString => Some 0%N
  | String "0"%char _ => None
  | _ =>
      match digits s 0%N with
      | Some n => if (n <=? 4294967294)%N then Some n else None
      | None => None
      end
  end.

Fixpoint insert_key (k : N * string) (l : list (N * string)) : list (N * string) :=
  match l with
  | [] => [k]
  | k' :: rest =>
      if (fst k <=? fst k')%N then k :: l else k' :: insert_key k rest
  end.

Fixpoint sort_keys (l : list (N * string)) : list (N * string) :=
  match l with
  | [] => []
  | k :: rest => insert_key k (sort_keys rest)
  end.

Fixpoint index_keys (ks : list string) : list (N * string) :=
  match ks with
  | [] => []
  | k :: rest =>
      match array_index k with
      | Some n => (n, k) :: index_keys rest
      | None => index_keys rest
      end
  end.

Definition is_array_index (k : string) : bool :=
  match array_index k with Some _ => true | None => false end.

Definition Object_keys (graph : Graph) : list string :=
  let ks := map fst graph in
  map snd (sort_keys (index_keys ks))
  ++ filter (fun k => negb (is_array_index k)) ks.

(** *** [detectAllCycles] *)

Record DfsState := {
  visited : StringSet.t;
  recStack : StringSet.t;
  cycleArrows : StringSet.t
}.

(** [arrows.find((e) => e.source === taskId && e.target === neighbor)?.id] *)
Definition findArrowId (arrows : list Edge.t) (taskId neighbor : string)
  : option string :=
  option_map Edge.id
    (find (fun e => String.eqb (Edge.source e) taskId
                    && String.eqb (Edge.target e) neighbor) arrows).

(** [if (arrowId) cycleArrows.add(arrowId)] *)
Definition flagArrow (arrowId : option string) (st : DfsState) : DfsState :=
  match arrowId with
  | Some i =>
      if truthy i
      then {| visited := visited st; recStack := recStack st;
              cycleArrows := StringSet.add i (cycleArrows st) |}
      else st
  | None => st
  end.

(** The body of [for (const neighbor of neighbors)], with the recursive call
    abstracted as [dfs]. *)
Fixpoint forNeighbors (dfs : string -> DfsState -> Completion DfsState)
    (arrows : list Edge.t) (taskId : string)
    (neighbors : list string) (st : DfsState) : Completion DfsState :=
  match neighbors with
  | [] => Normal st
  | neighbor :: rest =>
      if negb (StringSet.has (visited st) neighbor) then
        st' <- dfs neighbor st ;; forNeighbors dfs arrows taskId rest st'
      else if StringSet.has (recStack st) neighbor then
        forNeighbors dfs arrows taskId rest
          (flagArrow (findArrowId arrows taskId neighbor) st)
      else forNeighbors dfs arrows taskId rest st
  end.

(** [dfs(taskId)], on a call stack that holds [fuel] more nested calls of
    [dfs]: a call that the stack cannot hold throws a [RangeError]. *)
Fixpoint dfs (arrows : list Edge.t) (graph : Graph) (fuel : nat)
    (taskId : string) (st : DfsState) : Completion DfsState :=
  match fuel with
  | O => RangeError
  | S fuel' =>
      let st1 := {| visited := StringSet.add taskId (visited st);
                    recStack := StringSet.add taskId (recStack st);
                    cycleArrows := cycleArrows st |} in
      match get graph taskId with
      | Inherited => TypeError (* a function is not iterable *)
      | v =>
          let neighbors := match v with Own l => l | _ => [] end in
          st2 <- forNeighbors (dfs arrows graph fuel') arrows taskId neighbors st1 ;;
          Normal {| visited := visited st2;
                    recStack := StringSet.delete taskId (recStack st2);
                    cycleArrows := cycleArrows st2 |}
      end
  end.

(** [Object.keys(graph).forEach((taskId) => { if (!visited.has(taskId)) dfs(taskId); })] *)
Fixpoint forRoots (arrows : list Edge.t) (graph : Graph) (fuel : nat)
    (roots : list string) (st : DfsState) : Completion DfsState :=
  match roots with
  | [] => Normal st
  | taskId :: rest =>
      if negb (StringSet.has (visited st) taskId) then
        st' <- dfs arrows graph fuel taskId st ;;
        forRoots arrows graph fuel rest st'
      else forRoots arrows graph fuel rest st
  end.

(** [detectAllCycles] on a call stack that holds [depth] nested calls of
    [dfs]. *)
Definition detectAllCyclesWithin (depth : nat) (arrows : list Edge.t)
  : Completion StringSet.t :=
  graph <- buildGraph [] arrows ;;
  st <- forRoots arrows graph depth (Object_keys graph)
          {| visited := StringSet.empty; recStack := StringSet.empty;
             cycleArrows := StringSet.empty |} ;;
  Normal (cycleArrows st).

(** No chain of nested [dfs] calls is longer than the number of distinct
    task ids, which is at most twice the number of arrows. *)
Definition dfsBudget (arrows : list Edge.t) : nat := S (2 * List.length arrows).

(** [detectAllCycles] on a call stack that suffices for its input: the run
    that [updateStyles] and the handlers below build on.  On a shorter stack
    the call throws a [RangeError] or gives the same outcome
    ([detectAllCyclesWithin_cases]). *)
Definition detectAllCycles (arrows : list Edge.t) : Completion StringSet.t :=
  graph <- buildGraph [] arrows ;;
  st <- forRoots arrows graph (dfsBudget arrows) (Object_keys graph)
          {| visited := StringSet.empty; recStack := StringSet.empty;
             cycleArrows := StringSet.empty |} ;;
  Normal (cycleArrows st).

(** *** [areAllParentsCompleted], [hasIncompleteParent] *)

(** [tasks.find((n) => n.id === arrow.source)?.data.completed], as a
    condition: [undefined] is falsy. *)
Definition sourceTask (tasks : list TaskNode.t) (arrow : Edge.t)
  : option TaskNode.t :=
  find (fun n => String.eqb (TaskNode.id n) (Edge.source arrow)) tasks.

Definition sourceCompleted (tasks : list TaskNode.t) (arrow : Edge.t) : bool :=
  match sourceTask tasks arrow with
  | Some n => completed (TaskNode.data n)
  | None => false
  end.

Definition parentArrows (taskId : string) (arrows : list Edge.t) : list Edge.t :=
  filter (fun arrow => String.eqb (Edge.target arrow) taskId) arrows.

Definition areAllParentsCompleted (taskId : string) (tasks : list TaskNode.t)
    (arrows : list Edge.t) : bool :=
  Nat.eqb (List.length (parentArrows taskId arrows)) 0
  || forallb (sourceCompleted tasks) (parentArrows taskId arrows).

Definition hasIncompleteParent (taskId : string) (tasks : list TaskNode.t)
    (arrows : list Edge.t) : bool :=
  match find (fun t => String.eqb (TaskNode.id t) taskId) tasks with
  | Some task =>
      if negb (completed (TaskNode.data task)) then false
      else existsb (fun arrow => negb (sourceCompleted tasks arrow))
                   (parentArrows taskId arrows)
  | None => false
  end.

(** *** [updateStyles] *)

Definition styleArrow (cycleArrows : StringSet.t) (selectedArrowId : option string)
    (arrow : Edge.t) : Edge.t :=
  let isSelected := strict_eq_opt (Edge.id arrow) selectedArrowId in
  let isCycled := StringSet.has cycleArrows (Edge.id arrow) in
  let strokeColor := if isCycled then "red" else "#000" in
  {| Edge.id := Edge.id arrow;
     Edge.source := Edge.source arrow;
     Edge.target := Edge.target arrow;
     Edge.type := Edge.type arrow;
     Edge.style := Some {| stroke := strokeColor;
                           strokeWidth := if isSelected then 3 else 1 |};
     Edge.markerEnd := Some {| marker_type := Arrow;
                               color := Some strokeColor |} |}.

Definition styleTask (tasks : list TaskNode.t) (arrows : list Edge.t)
    (selectedTaskId : option string) (task : TaskNode.t) : TaskNode.t :=
  let allParentsCompleted := areAllParentsCompleted (TaskNode.id task) tasks arrows in
  let hasIncomplete := hasIncompleteParent (TaskNode.id task) tasks arrows in
  let isSelected := strict_eq_opt (TaskNode.id task) selectedTaskId in
  {| TaskNode.id := TaskNode.id task;
     TaskNode.data := TaskNode.data task;
     TaskNode.position := TaskNode.position task;
     TaskNode.style :=
       Some {| background :=
                 if completed (TaskNode.data task) then Some "#d4d4d4" else None;
               border :=
                 if isSelected then "2px solid blue"
                 else if hasIncomplete then "2px solid red"
                 else if negb (completed (TaskNode.data task)) && allParentsCompleted
                      then "2px solid green"
                      else "1px solid black" |} |}.

(** The object [{ tasks, arrows }]: the result of [updateStyles], and an
    entry of the undo history. *)
Module Snapshot.
Record t := { tasks : list TaskNode.t; arrows : list Edge.t }.
End Snapshot.

Definition updateStyles (tasks : list TaskNode.t) (arrows : list Edge.t)
    (selectedTaskId selectedArrowId : option string) : Completion Snapshot.t :=
  cycleArrows <- detectAllCycles arrows ;;
  Normal {| Snapshot.arrows := map (styleArrow cycleArrows selectedArrowId) arrows;
            Snapshot.tasks := map (styleTask tasks arrows selectedTaskId) tasks |}.

(* ------------------------------------------------------------------ *)
(** ** [EditModal]: the completion rule *)

(** [task.data.completed ? completed : canComplete ? completed : false],
    the expression shared by [EditModal.handleSave] and [updateTask]. *)
Definition attemptSetCompletion (t : TaskNode.t) (requested : bool)
    (tasks : list TaskNode.t) (arrows : list Edge.t) : bool :=
  let canComplete := areAllParentsCompleted (TaskNode.id t) tasks arrows in
  if completed (TaskNode.data t) then requested
  else if canComplete then requested else false.

(** [EditModal.handleSave]: the arguments it passes to [onSave]. *)
Definition EditModal_handleSave (task : TaskNode.t) (tasks : list TaskNode.t)
    (arrows : list Edge.t) (label : string) (completed : bool)
  : string * string * bool :=
  (TaskNode.id task, label, attemptSetCompletion task completed tasks arrows).

(* ------------------------------------------------------------------ *)
(** ** [FlowContent]: the editor state and its handlers *)

(** reactflow's viewport; like the canvas coordinates it is stored and never
    inspected. *)
Record Viewport := { vx : Z; vy : Z; zoom : Z }.

Module Project.
Record t := {
  localId : string;
  title : string;
  tasks : list TaskNode.t;
  arrows : list Edge.t;
  taskIdCounter : Z;
  lastSavedAt : option string;
  viewport : option Viewport
}.
End Project.

Inductive ArrowType := straight | smoothstep | bezier.

Definition arrowTypeName (a : ArrowType) : string :=
  match a with
  | straight => "straight"
  | smoothstep => "smoothstep"
  | bezier => "bezier"
  end.

(** The props and [useState] cells of [FlowContent] that the handlers below
    read or write. *)
Record State := {
  projects : list Project.t;
  currentProjectIndex : Z;
  tasks : list TaskNode.t;
  arrows : list Edge.t;
  arrowType : ArrowType;
  selectedTaskId : option string;
  selectedArrowId : option string;
  taskIdCounter : Z;
  history : list Snapshot.t;
  historyIndex : Z
}.

(** What a handler reads from outside the component: the clock and
    [getViewport()]. *)
Record Env := { now : string; currentViewport : Viewport }.

(** The state setters. *)
Definition setProjects (v : list Project.t) (s : State) : State :=
  {| projects := v; currentProjectIndex := currentProjectIndex s;
     tasks := tasks s; arrows := arrows s; arrowType := arrowType s;
     selectedTaskId := selectedTaskId s; selectedArrowId := selectedArrowId s;
     taskIdCounter := taskIdCounter s; history := history s;
     historyIndex := historyIndex s |}.

Definition setCurrentProjectIndex (v : Z) (s : State) : State :=
  {| projects := projects s; currentProjectIndex := v;
     tasks := tasks s; arrows := arrows s; arrowType := arrowType s;
     selectedTaskId := selectedTaskId s; selectedArrowId := selectedArrowId s;
     taskIdCounter := taskIdCounter s; history := history s;
     historyIndex := historyIndex s |}.

Definition setTasks (v : list TaskNode.t) (s : State) : State :=
  {| projects := projects s; currentProjectIndex := currentProjectIndex s;
     tasks := v; arrows := arrows s; arrowType := arrowType s;
     selectedTaskId := selectedTaskId s; selectedArrowId := selectedArrowId s;
     taskIdCounter := taskIdCounter s; history := history s;
     historyIndex := historyIndex s |}.

Definition setArrows (v : list Edge.t) (s : State) : State :=
  {| projects := projects s; currentProjectIndex := currentProjectIndex s;
     tasks := tasks s; arrows := v; arrowType := arrowType s;
     selectedTaskId := selectedTaskId s; selectedArrowId := selectedArrowId s;
     taskIdCounter := taskIdCounter s; history := history s;
     historyIndex := historyIndex s |}.

Definition setSelectedTaskId (v : option string) (s : State) : State :=
  {| projects := projects s; currentProjectIndex := currentProjectIndex s;
     tasks := tasks s; arrows := arrows s; arrowType := arrowType s;
     selectedTaskId := v; selectedArrowId := selectedArrowId s;
     taskIdCounter := taskIdCounter s; history := history s;
     historyIndex := historyIndex s |}.

Definition setSelectedArrowId (v : option string) (s : State) : State :=
  {| projects := projects s; currentProjectIndex := currentProjectIndex s;
     tasks := tasks s; arrows := arrows s; arrowType := arrowType s;
     selectedTaskId := selectedTaskId s; selectedArrowId := v;
     taskIdCounter := taskIdCounter s; history := history s;
     historyIndex := historyIndex s |}.

Definition setTaskIdCounter (v : Z) (s : State) : State :=
  {| projects := projects s; currentProjectIndex := currentProjectIndex s;
     tasks := tasks s; arrows := arrows s; arrowType := arrowType s;
     selectedTaskId := selectedTaskId s; selectedArrowId := selectedArrowId s;
     taskIdCounter := v; history := history s;
     historyIndex := historyIndex s |}.

Definition setHistory (v : list Snapshot.t) (s : State) : State :=
  {| projects := projects s; currentProjectIndex := currentProjectIndex s;
     tasks := tasks s; arrows := arrows s; arrowType := arrowType s;
     selectedTaskId := selectedTaskId s; selectedArrowId := selectedArrowId s;
     taskIdCounter := taskIdCounter s; history := v;
     historyIndex := historyIndex s |}.

Definition setHistoryIndex (v : Z) (s : State) : State :=
  {| projects := projects s; currentProjectIndex := currentProjectIndex s;
     tasks := tasks s; arrows := arrows s; arrowType := arrowType s;
     selectedTaskId := selectedTaskId s; selectedArrowId := selectedArrowId s;
     taskIdCounter := taskIdCounter s; history := history s;
     historyIndex := v |}.

Definition mkTask (id label : string) (px py : Z) : TaskNode.t :=
  {| TaskNode.id := id;
     TaskNode.data := {| label := label; completed := false |};
     TaskNode.position := {| x := px; y := py |};
     TaskNode.style := None |}.

Definition sampleProject : Project.t :=
  {| Project.localId := "sample-project";
     Project.title := "サンプルプロジェクト";
     Project.tasks :=
       [ mkTask "1" "タスク1" 300 100;
         mkTask "2" "タスク2" 500 200;
         mkTask "3" "タスク3" 700 300 ];
     Project.arrows :=
       [ {| Edge.id := "e1"; Edge.source := "1"; Edge.target := "2";
            Edge.type := Some "straight"; Edge.style := None;
            Edge.markerEnd := None |};
         {| Edge.id := "e2"; Edge.source := "2"; Edge.target := "3";
            Edge.type := Some "straight"; Edge.style := None;
            Edge.markerEnd := None |} ];
     Project.taskIdCounter := 4;
     Project.lastSavedAt := None;
     Project.viewport := None |}.

Definition effectiveProjects (st : State) : list Project.t :=
  match projects st with
  | [] => [sampleProject]
  | ps => ps
  end.

Definition effectiveIndex (st : State) : Z :=
  match projects st with
  | [] => 0%Z
  | _ => currentProjectIndex st
  end.

(** [l.map((p, idx) => f(p, idx))] *)
Fixpoint mapi_from {A B : Type} (i : nat) (f : A -> nat -> B) (l : list A) : list B :=
  match l with
  | [] => []
  | a :: rest => f a i :: mapi_from (S i) f rest
  end.

Definition mapi {A B : Type} (f : A -> nat -> B) (l : list A) : list B :=
  mapi_from 0 f l.

(** [l.findIndex(p)]: [-1] when no element satisfies [p]. *)
Fixpoint findIndex_from {A : Type} (i : Z) (p : A -> bool) (l : list A) : Z :=
  match l with
  | [] => (-1)%Z
  | a :: rest => if p a then i else findIndex_from (i + 1)%Z p rest
  end.

Definition findIndex {A : Type} (p : A -> bool) (l : list A) : Z :=
  findIndex_from 0%Z p l.

(** The state of the first render, from the [useState] initialisers. *)
Definition initialState (projects : list Project.t) (currentProjectIndex : Z)
  : State :=
  let eps := match projects with [] => [sampleProject] | ps => ps end in
  let ei := match projects with [] => 0%Z | _ => currentProjectIndex end in
  {| projects := projects;
     currentProjectIndex := currentProjectIndex;
     tasks := match element eps ei with
              | Some p => Project.tasks p
              | None => Project.tasks sampleProject
              end;
     arrows := match element eps ei with
               | Some p => Project.arrows p
               | None => Project.arrows sampleProject
               end;
     arrowType := straight;
     selectedTaskId := None;
     selectedArrowId := None;
     taskIdCounter := match element eps ei with
                      | Some p => if (Project.taskIdCounter p =? 0)%Z
                                  then Project.taskIdCounter sampleProject
                                  else Project.taskIdCounter p
                      | None => Project.taskIdCounter sampleProject
                      end;
     history := [];
     historyIndex := (-1)%Z |}.

(** A handler is a closure over the values of the render that created it,
    [st]; the setters it calls act on the state being built, [pending]. *)

(** [saveToLocalStorage]: stores the current project and records the
    snapshot [{ tasks, arrows }] of the render in the history.  Reading
    [effectiveProjects[effectiveIndex].localId] throws when the index is
    out of range. *)
Definition saveToLocalStorage (env : Env) (st pending : State) : Completion State :=
  let viewport := currentViewport env in
  let updatedProjects :=
    mapi (fun p idx =>
            if (Z.of_nat idx =? effectiveIndex st)%Z
            then {| Project.localId := Project.localId p;
                    Project.title := Project.title p;
                    Project.tasks := tasks st;
                    Project.arrows := arrows st;
                    Project.taskIdCounter := taskIdCounter st;
                    Project.lastSavedAt := Some (now env);
                    Project.viewport := Some viewport |}
            else p)
         (effectiveProjects st) in
  let pending := setProjects updatedProjects pending in
  match element (effectiveProjects st) (effectiveIndex st) with
  | None => TypeError
  | Some _ =>
      let newHistory :=
        slice0 (history pending) (historyIndex st + 1)
        ++ [ {| Snapshot.tasks := tasks st; Snapshot.arrows := arrows st |} ] in
      Normal (setHistory newHistory
                (setHistoryIndex (Z.of_nat (List.length newHistory) - 1) pending))
  end.

(** [undo]: destructuring [history[historyIndex - 1]] throws when it is
    [undefined]. *)
Definition undo (st : State) : Completion State :=
  if (historyIndex st >? 0)%Z then
    match element (history st) (historyIndex st - 1) with
    | Some prev =>
        Normal (setArrows (Snapshot.arrows prev)
                  (setTasks (Snapshot.tasks prev)
                     (setHistoryIndex (historyIndex st - 1) st)))
    | None => TypeError
    end
  else Normal st.

Definition redo (st : State) : Completion State :=
  if (historyIndex st <? Z.of_nat (List.length (history st)) - 1)%Z then
    match element (history st) (historyIndex st + 1) with
    | Some next =>
        Normal (setArrows (Snapshot.arrows next)
                  (setTasks (Snapshot.tasks next)
                     (setHistoryIndex (historyIndex st + 1) st)))
    | None => TypeError
    end
  else Normal st.

(** reactflow's [Connection] *)
Record Connection := { source : option string; target : option string }.

(** [`e${arrows.length + 1}`] *)
Definition newEdgeId (arrows : list Edge.t) : string :=
  "e" ++ template_of_nat (List.length arrows + 1).

Definition onConnect (env : Env) (params : Connection) (st : State)
  : Completion State :=
  match source params, target params with
  | Some src, Some tgt =>
      if negb (truthy src) || negb (truthy tgt) then Normal st
      else
        let isDuplicate :=
          existsb (fun arrow => String.eqb (Edge.source arrow) src
                                && String.eqb (Edge.target arrow) tgt)
                  (arrows st) in
        if isDuplicate then Normal st
        else
          let newEdge :=
            {| Edge.id := newEdgeId (arrows st);
               Edge.source := src;
               Edge.target := tgt;
               Edge.type := Some (arrowTypeName (arrowType st));
               Edge.style := None;
               Edge.markerEnd :=
                 Some {| marker_type := ArrowClosed; color := None |} |} in
          let newArrows := arrows st ++ [newEdge] in
          styled <- updateStyles (tasks st) newArrows
                      (selectedTaskId st) (selectedArrowId st) ;;
          saveToLocalStorage env st
            (setArrows (Snapshot.arrows styled)
               (setTasks (Snapshot.tasks styled) st))
  | _, _ => Normal st
  end.

Definition onEdgeClick (edge : Edge.t) (st : State) : Completion State :=
  styled <- updateStyles (tasks st) (arrows st) None (Some (Edge.id edge)) ;;
  Normal (setArrows (Snapshot.arrows styled)
            (setTasks (Snapshot.tasks styled)
               (setSelectedTaskId None
                  (setSelectedArrowId (Some (Edge.id edge)) st)))).

Definition onTaskClick (task : TaskNode.t) (st : State) : Completion State :=
  Normal (setSelectedArrowId None
            (setSelectedTaskId (Some (TaskNode.id task)) st)).

Definition onPaneClick (st : State) : Completion State :=
  styled <- updateStyles (tasks st) (arrows st) None None ;;
  Normal (setArrows (Snapshot.arrows styled)
            (setTasks (Snapshot.tasks styled)
               (setSelectedArrowId None (setSelectedTaskId None st)))).

Definition deleteSelected (env : Env) (st : State) : Completion State :=
  if truthy_opt (selectedTaskId st) then
    let updatedTasks :=
      filter (fun t => negb (strict_eq_opt (TaskNode.id t) (selectedTaskId st)))
             (tasks st) in
    let updatedArrows :=
      filter (fun a => negb (strict_eq_opt (Edge.source a) (selectedTaskId st))
                       && negb (strict_eq_opt (Edge.target a) (selectedTaskId st)))
             (arrows st) in
    styled <- updateStyles updatedTasks updatedArrows None (selectedArrowId st) ;;
    saveToLocalStorage env st
      (setSelectedTaskId None
         (setArrows (Snapshot.arrows styled)
            (setTasks (Snapshot.tasks styled) st)))
  else if truthy_opt (selectedArrowId st) then
    let updatedArrows :=
      filter (fun a => negb (strict_eq_opt (Edge.id a) (selectedArrowId st)))
             (arrows st) in
    styled <- updateStyles (tasks st) updatedArrows None None ;;
    saveToLocalStorage env st
      (setSelectedArrowId None
         (setTasks (Snapshot.tasks styled)
            (setArrows (Snapshot.arrows styled) st)))
  else Normal st.

Definition updateTask (env : Env) (id label : string) (completed : bool)
    (st : State) : Completion State :=
  let newTasks :=
    map (fun t =>
           if String.eqb (TaskNode.id t) id then
             {| TaskNode.id := TaskNode.id t;
                TaskNode.data :=
                  {| label := label;
                     completed :=
                       attemptSetCompletion t completed (tasks st) (arrows st) |};
                TaskNode.position := TaskNode.position t;
                TaskNode.style := TaskNode.style t |}
           else t)
        (tasks st) in
  styled <- updateStyles newTasks (arrows st)
              (selectedTaskId st) (selectedArrowId st) ;;
  saveToLocalStorage env st
    (setArrows (Snapshot.arrows styled)
       (setTasks (Snapshot.tasks styled) st)).

(** The callback that [handleProjectSwitch] hands to [setTimeout]. *)
Definition handleProjectSwitch_timeout (project : Project.t)
    (st pending : State) : Completion State :=
  let index :=
    findIndex (fun p => String.eqb (Project.localId p) (Project.localId project))
              (effectiveProjects st) in
  let pending := setTasks (Project.tasks project)
                   (setCurrentProjectIndex index pending) in
  let unifiedArrows :=
    map (fun arrow =>
           {| Edge.id := Edge.id arrow;
              Edge.source := Edge.source arrow;
              Edge.target := Edge.target arrow;
              Edge.type := Some (arrowTypeName (arrowType st));
              Edge.style := Edge.style arrow;
              Edge.markerEnd :=
                Some {| marker_type := ArrowClosed; color := None |} |})
        (Project.arrows project) in
  styled <- updateStyles (Project.tasks project) unifiedArrows
              (selectedTaskId st) (selectedArrowId st) ;;
  Normal (setTaskIdCounter (Project.taskIdCounter project)
            (setArrows (Snapshot.arrows styled)
               (setTasks (Snapshot.tasks styled) pending))).

Definition handleProjectSwitch (env : Env) (project : Project.t) (st : State)
  : Completion State :=
  pending <- saveToLocalStorage env st st ;;
  handleProjectSwitch_timeout project st (setArrows [] (setTasks [] pending)).

(** The user's actions, and the editor run on a sequence of them. *)
Inductive Event :=
| Connect (params : Connection)
| EdgeClick (edge : Edge.t)
| TaskClick (task : TaskNode.t)
| PaneClick
| DeleteSelected
| UpdateTask (id label : string) (completed : bool)
| ClickUndo
| ClickRedo
| ProjectSwitch (project : Project.t).

Definition handle (env : Env) (ev : Event) (st : State) : Completion State :=
  match ev with
  | Connect params => onConnect env params st
  | EdgeClick edge => onEdgeClick edge st
  | TaskClick task => onTaskClick task st
  | PaneClick => onPaneClick st
  | DeleteSelected => deleteSelected env st
  | UpdateTask id label completed => updateTask env id label completed st
  | ClickUndo => undo st
  | ClickRedo => redo st
  | ProjectSwitch project => handleProjectSwitch env project st
  end.

Fixpoint run (env : Env) (evs : list Event) (st : State) : Completion State :=
  match evs with
  | [] => Normal st
  | ev :: rest => st' <- handle env ev st ;; run env rest st'
  end.

(* ------------------------------------------------------------------ *)
(** ** Vocabulary of the specification *)

(** The directed graph formed by the arrows' (source, target) pairs. *)
Definition edge (arrows : list Edge.t) (u v : string) : Prop :=
  exists a, In a arrows /\ Edge.source a = u /\ Edge.target a = v.

(** [u] lies on a closed directed walk. *)
Definition onCycle (arrows : list Edge.t) (u : string) : Prop :=
  clos_trans string (edge arrows) u u.

Definition acyclic (arrows : list Edge.t) : Prop :=
  forall u, ~ onCycle arrows u.

(** The inputs on which the adjacency object behaves as a dictionary: no
    task id names a member of [Object.prototype]. *)
Definition plainIds (arrows : list Edge.t) : bool :=
  forallb (fun a => negb (inherited (Edge.source a))
                    && negb (inherited (Edge.target a))) arrows.

(** Every arrow id is a non-empty string. *)
Definition truthyIds (arrows : list Edge.t) : bool :=
  forallb (fun a => truthy (Edge.id a)) arrows.

(** A task and an arrow without their derived style fields. *)
Definition taskContent (t : TaskNode.t) : string * TaskNodeData * XYPosition :=
  (TaskNode.id t, TaskNode.data t, TaskNode.position t).

Definition arrowContent (a : Edge.t) : string * string * string * option string :=
  (Edge.id a, Edge.source a, Edge.target a, Edge.type a).

(** [record(snapshot)]: [saveToLocalStorage] called from a render whose
    tasks and arrows are the snapshot. *)
Definition record (env : Env) (snapshot : Snapshot.t) (st : State)
  : Completion State :=
  let shown := setArrows (Snapshot.arrows snapshot)
                 (setTasks (Snapshot.tasks snapshot) st) in
  saveToLocalStorage env shown shown.

(** The current project exists: [currentProjectIndex] is an index of a
    non-empty [projects]. *)
Definition validProject (st : State) : bool :=
  match element (projects st) (currentProjectIndex st) with
  | Some _ => true
  | None => false
  end.

(** Every arrow of the snapshot joins two tasks of the snapshot. *)
Definition noDangling (tasks : list TaskNode.t) (arrows : list Edge.t) : Prop :=
  forall a, In a arrows ->
    In (Edge.source a) (map TaskNode.id tasks)
    /\ In (Edge.target a) (map TaskNode.id tasks).

(** ** Vocabulary of the traversal proofs *)

(** The targets of the arrows that leave [u], in the order of the arrows. *)
Definition succs (arrows : list Edge.t) (u : string) : list string :=
  map Edge.target (filter (fun a => String.eqb (Edge.source a) u) arrows).

(** Every task id that an arrow mentions. *)
Definition nodes (arrows : list Edge.t) : list string :=
  map Edge.source arrows ++ map Edge.target arrows.

(** [graph[u] || []] when [u] is not an inherited name. *)
Definition neighborsOf (graph : Graph) (u : string) : list string :=
  match own graph u with
  | Some l => l
  | None => []
  end.

(** How many entries of [ns] are not in [seen]: what bounds the depth of the
    recursion that is left. *)
Definition unvisitedCount (ns : list string) (seen : StringSet.t) : nat :=
  List.length (filter (fun n => negb (StringSet.has seen n)) ns).

Definition reaches (arrows : list Edge.t) : string -> string -> Prop :=
  clos_refl_trans string (edge arrows).

Definition cyclic (arrows : list Edge.t) : Prop :=
  exists u, onCycle arrows u.

(** [u] has been visited and has left the recursion stack. *)
Definition finished (st : DfsState) (u : string) : Prop :=
  In u (visited st) /\ ~ In u (recStack st).

(** The finished task ids are closed under the arrows and none of them lies
    on a cycle. *)
Definition closedAcyclic (arrows : list Edge.t) (st : DfsState) : Prop :=
  (forall u v, finished st u -> edge arrows u v -> finished st v)
  /\ (forall u, finished st u -> ~ onCycle arrows u).

(** What a call leaves alone: the recursion stack is restored, and the
    visited set and the flagged arrows only grow. *)
Definition framed (st st' : DfsState) : Prop :=
  recStack st' = recStack st
  /\ (forall x, In x (visited st) -> In x (visited st'))
  /\ (forall x, In x (cycleArrows st) -> In x (cycleArrows st')).

(** The postcondition of [dfs(target)] and of its loop over the neighbours
    of [target]: an arrow is flagged only if there is a cycle, and if no
    arrow ends up flagged the finished ids stay closed and free of cycles. *)
Definition dfsPost (arrows : list Edge.t) (target : string)
    (st st' : DfsState) : Prop :=
  framed st st'
  /\ ((forall r, In r (recStack st) -> reaches arrows r target) ->
      cycleArrows st' = cycleArrows st \/ cyclic arrows)
  /\ (truthyIds arrows = true -> cycleArrows st' = [] ->
      closedAcyclic arrows st -> closedAcyclic arrows st').

(** The precondition of [dfs(t)]. *)
Definition dfsPre (arrows : list Edge.t) (fuel : nat) (t : string)
    (st : DfsState) : Prop :=
  In t (nodes arrows)
  /\ ~ In t (visited st)
  /\ (forall x, In x (recStack st) -> In x (visited st))
  /\ unvisitedCount (nodes arrows) (visited st) < fuel.

(** A traversal returns a state that satisfies [P]; it throws only when
    some task id is an inherited name, and it does not exhaust the stack. *)
Definition outcomeSpec (arrows : list Edge.t) (c : Completion DfsState)
    (P : DfsState -> Prop) : Prop :=
  match c with
  | Normal st' => P st'
  | TypeError => plainIds arrows = false
  | RangeError => False
  end.

(** What [detectAllCycles] reads of an arrow. *)
Definition endpoints (a : Edge.t) : string * string * string :=
  (Edge.id a, Edge.source a, Edge.target a).

(** ** Sample data *)

Definition sampleEnv : Env :=
  {| now := "2025-01-01T00:00:00.000Z";
     currentViewport := {| vx := 0; vy := 0; zoom := 1 |} |}.

(** The editor opened on the sample project. *)
Definition sampleState : State := initialState [sampleProject] 0.

Definition mkArrow (id source target : string) : Edge.t :=
  {| Edge.id := id; Edge.source := source; Edge.target := target;
     Edge.type := Some "straight"; Edge.style := None;
     Edge.markerEnd := None |}.

Definition doneTask (id : string) : TaskNode.t :=
  {| TaskNode.id := id;
     TaskNode.data := {| label := id; completed := true |};
     TaskNode.position := {| x := 0; y := 0 |};
     TaskNode.style := None |}.

(** A second project, to switch to. *)
Definition otherProject : Project.t :=
  {| Project.localId := "other-project";
     Project.title := "other";
     Project.tasks := [ mkTask "0" "first" 100 100 ];
     Project.arrows := [];
     Project.taskIdCounter := 1;
     Project.lastSavedAt := None;
     Project.viewport := None |}.

Definition twoProjects : State := initialState [sampleProject; otherProject] 0.

(** The three arrows 1 -> 2, 2 -> 3, 3 -> 1. *)
Definition threeCycle : list Edge.t :=
  [ mkArrow "e1" "1" "2"; mkArrow "e2" "2" "3"; mkArrow "e3" "3" "1" ].

(** The sample project with task 2 selected, and with task 1 renamed. *)
Definition taskSelected : State :=
  setSelectedTaskId (Some "2") sampleState.

Definition renamed : State :=
  match updateTask sampleEnv "1" "renamed" false twoProjects with
  | Normal st => st
  | _ => twoProjects
  end.

Definition afterSwitch : State :=
  match handleProjectSwitch sampleEnv otherProject renamed with
  | Normal st => st
  | _ => renamed
  end.

Definition afterDelete : State :=
  match deleteSelected sampleEnv taskSelected with
  | Normal st => st
  | _ => taskSelected
  end.

(** Three snapshots to record. *)
Definition snapA : Snapshot.t :=
  {| Snapshot.tasks := [ mkTask "1" "A" 0 0 ]; Snapshot.arrows := [] |}.

Definition snapB : Snapshot.t :=
  {| Snapshot.tasks := [ mkTask "1" "B" 0 0; mkTask "2" "B" 10 10 ];
     Snapshot.arrows := [ mkArrow "e1" "1" "2" ] |}.

Definition snapC : Snapshot.t :=
  {| Snapshot.tasks := [ doneTask "1" ]; Snapshot.arrows := [] |}.

(** ** Further vocabulary of the traversal *)

(** [i] is the id of an arrow that lies on a cycle: its target leads back to
    its source. *)
Definition cycleArrowId (arrows : list Edge.t) (i : string) : Prop :=
  exists a, In a arrows /\ Edge.id a = i
            /\ reaches arrows (Edge.target a) (Edge.source a).

Definition flaggedOnly (arrows : list Edge.t) (st : DfsState) : Prop :=
  forall i, In i (cycleArrows st) -> cycleArrowId arrows i.

Definition visitedPlain (st : DfsState) : Prop :=
  forall u, In u (visited st) -> inherited u = false.

Definition succsVisited (arrows : list Edge.t) (st : DfsState) : Prop :=
  forall u v, finished st u -> edge arrows u v -> In v (visited st).

(** The arrow found for a self-loop on a finished task is flagged, unless
    its id is empty. *)
Definition loopsFlagged (arrows : list Edge.t) (st : DfsState) : Prop :=
  forall u i, finished st u -> findArrowId arrows u u = Some i ->
              truthy i = true -> In i (cycleArrows st).

Definition dfsKeeps (arrows : list Edge.t) (target : string)
    (st st' : DfsState) : Prop :=
  ((forall r, In r (recStack st) -> reaches arrows r target) ->
   flaggedOnly arrows st -> flaggedOnly arrows st')
  /\ (visitedPlain st -> visitedPlain st')
  /\ (succsVisited arrows st -> succsVisited arrows st')
  /\ (loopsFlagged arrows st -> loopsFlagged arrows st').

(** ** More of [FlowContent] *)

Definition setArrowType (v : ArrowType) (s : State) : State :=
  {| projects := projects s; currentProjectIndex := currentProjectIndex s;
     tasks := tasks s; arrows := arrows s; arrowType := v;
     selectedTaskId := selectedTaskId s; selectedArrowId := selectedArrowId s;
     taskIdCounter := taskIdCounter s; history := history s;
     historyIndex := historyIndex s |}.

(** [`${n}`] for an integer; JavaScript prints an integer below [10^21] in
    absolute value as its decimal numeral. *)
Definition template_of_int (z : Z) : string :=
  if (z <? 0)%Z then "-" ++ template_of_nat (Z.to_nat (- z))
  else template_of_nat (Z.to_nat z).

(** [Number.MAX_SAFE_INTEGER]: up to it, and one step beyond, a number holds
    an integer exactly, so that [prev + 1] is the integer successor and the
    template literal prints the decimal numeral. *)
Definition MAX_SAFE_INTEGER : Z := 2 ^ 53 - 1.

(** [addTask].  The position of the new task is computed from the window
    size and the viewport with floating-point arithmetic; it is taken here
    as given, [position] standing for [{ x: adjustedX, y: adjustedY }].
    The counter is a number that holds an integer; [taskIdCounter st + 1]
    and [template_of_int] are what the code computes while the counter is
    at most [MAX_SAFE_INTEGER] in absolute value (beyond it the sum is
    rounded, and the increment can be lost). *)
Definition addTask (env : Env) (position : XYPosition) (st : State)
  : Completion State :=
  let newId := template_of_int (taskIdCounter st) in
  let newTask :=
    {| TaskNode.id := newId;
       TaskNode.data := {| label := "タスク" ++ newId; completed := false |};
       TaskNode.position := position;
       TaskNode.style := None |} in
  let updatedTasks := tasks st ++ [newTask] in
  styled <- updateStyles updatedTasks (arrows st)
              (selectedTaskId st) (selectedArrowId st) ;;
  saveToLocalStorage env st
    (setTaskIdCounter (taskIdCounter st + 1)
       (setArrows (Snapshot.arrows styled)
          (setTasks (Snapshot.tasks styled) st))).

(** [{ ...arrow, type: newType, markerEnd: { type: MarkerType.ArrowClosed } }] *)
Definition retypeArrow (newType : ArrowType) (arrow : Edge.t) : Edge.t :=
  {| Edge.id := Edge.id arrow;
     Edge.source := Edge.source arrow;
     Edge.target := Edge.target arrow;
     Edge.type := Some (arrowTypeName newType);
     Edge.style := Edge.style arrow;
     Edge.markerEnd := Some {| marker_type := ArrowClosed; color := None |} |}.

Definition handleArrowTypeChange (env : Env) (newType : ArrowType)
    (st : State) : Completion State :=
  let updatedArrows := map (retypeArrow newType) (arrows st) in
  styled <- updateStyles (tasks st) updatedArrows
              (selectedTaskId st) (selectedArrowId st) ;;
  saveToLocalStorage env st
    (setArrows (Snapshot.arrows styled)
       (setTasks (Snapshot.tasks styled) (setArrowType newType st))).

(** [EditModal]: [disabled={!canComplete && !task.data.completed}] on the
    completion checkbox. *)
Definition checkboxDisabled (task : TaskNode.t) (tasks : list TaskNode.t)
    (arrows : list Edge.t) : bool :=
  negb (areAllParentsCompleted (TaskNode.id task) tasks arrows)
  && negb (completed (TaskNode.data task)).

(* ------------------------------------------------------------------ *)
(** ** [projectUtils.ts] *)

(** The project that [createNewLocalProject] builds; [uuid] stands for the
    result of [uuidv4()] and [now] for [new Date().toISOString()]. *)
Definition newLocalProject (uuid now : string) : Project.t :=
  {| Project.localId := uuid;
     Project.title := "新しいプロジェクト";
     Project.tasks := [ mkTask "0" "初期タスク" 100 100 ];
     Project.arrows := [];
     Project.taskIdCounter := 1;
     Project.lastSavedAt := Some now;
     Project.viewport := None |}.

Definition createNewLocalProject (uuid now : string) (st : State) : State :=
  let newProject := newLocalProject uuid now in
  let updatedProjects := projects st ++ [newProject] in
  setProjects updatedProjects
    (setTaskIdCounter (Project.taskIdCounter newProject)
       (setArrows (Project.arrows newProject)
          (setTasks (Project.tasks newProject)
             (setCurrentProjectIndex
                (Z.of_nat (List.length updatedProjects) - 1) st)))).

(** [handleDeleteProject], as [FlowContent] calls it: with [effectiveIndex]
    for [currentProjectIndex].  Reading [updatedProjects[newIndex].tasks]
    throws when the index is out of range. *)
Definition handleDeleteProject (localId : string) (st : State)
  : Completion State :=
  let currentProjectIndex := effectiveIndex st in
  let updatedProjects :=
    filter (fun p => negb (String.eqb (Project.localId p) localId))
           (projects st) in
  let newIndex :=
    if (currentProjectIndex >=? Z.of_nat (List.length updatedProjects))%Z
    then (Z.of_nat (List.length updatedProjects) - 1)%Z
    else currentProjectIndex in
  let pending := setCurrentProjectIndex newIndex st in
  if (Z.of_nat (List.length updatedProjects) >? 0)%Z then
    match element updatedProjects newIndex with
    | Some p =>
        Normal (setProjects updatedProjects
                  (setTaskIdCounter (Project.taskIdCounter p)
                     (setArrows (Project.arrows p)
                        (setTasks (Project.tasks p) pending))))
    | None => TypeError
    end
  else
    Normal (setProjects updatedProjects
              (setTaskIdCounter 0
                 (setArrows [] (setTasks [] pending)))).

(** Everything the user can do in the editor. *)
Inductive Action :=
| Edit (ev : Event)
| AddTask (position : XYPosition)
| ArrowTypeChange (newType : ArrowType)
| CreateProject (uuid now : string)
| DeleteProject (localId : string).

Definition perform (env : Env) (a : Action) (st : State) : Completion State :=
  match a with
  | Edit ev => handle env ev st
  | AddTask position => addTask env position st
  | ArrowTypeChange newType => handleArrowTypeChange env newType st
  | CreateProject uuid now => Normal (createNewLocalProject uuid now st)
  | DeleteProject localId => handleDeleteProject localId st
  end.

(* ------------------------------------------------------------------ *)
(** ** [DeleteConfirmModal] *)

Definition MAX_DISPLAY_TASKS : Z := 10.

Definition incompleteTasks (project : Project.t) : list TaskNode.t :=
  filter (fun task => negb (completed (TaskNode.data task)))
         (Project.tasks project).

Definition completedTasks (project : Project.t) : list TaskNode.t :=
  filter (fun task => completed (TaskNode.data task)) (Project.tasks project).

Definition displayedTasks (project : Project.t) : list TaskNode.t :=
  slice0 (incompleteTasks project) MAX_DISPLAY_TASKS
  ++ slice0 (completedTasks project)
            (MAX_DISPLAY_TASKS
             - Z.of_nat (List.length (incompleteTasks project))).

Definition remainingTasks (project : Project.t) : Z :=
  Z.of_nat (List.length (Project.tasks project))
  - Z.of_nat (List.length (displayedTasks project)).

(* ------------------------------------------------------------------ *)
(** ** Further vocabulary of the editor *)

(** The cursor is [-1] or an index of the history. *)
Definition historyOk (st : State) : Prop :=
  (-1 <= historyIndex st < Z.of_nat (List.length (history st)))%Z.

(** At most one of a task and an arrow is selected. *)
Definition selectionExclusive (st : State) : Prop :=
  selectedTaskId st = None \/ selectedArrowId st = None.

(** The snapshot that the editor shows. *)
Definition shown (st : State) : Snapshot.t :=
  {| Snapshot.tasks := tasks st; Snapshot.arrows := arrows st |}.

(** The (source, target) pair of an arrow. *)
Definition ends (a : Edge.t) : string * string :=
  (Edge.source a, Edge.target a).

(** Every task id is the numeral of a counter value that was already
    used. *)
Definition idsBelowCounter (st : State) : Prop :=
  forall t, In t (tasks st) ->
    exists n, (0 <= n < taskIdCounter st)%Z
              /\ TaskNode.id t = template_of_int n.

(** The arrows carry the ids [e1], [e2], ... in order. *)
Definition idsSequential (arrows : list Edge.t) : Prop :=
  map Edge.id arrows
  = map (fun k => ("e" ++ template_of_nat k)%string)
        (seq 1 (List.length arrows)).

(** The derived style fields, read back from a styled task or arrow. *)
Definition borderOf (t : TaskNode.t) : string :=
  match TaskNode.style t with
  | Some s => border s
  | None => ""
  end.

Definition strokeOf (a : Edge.t) : string :=
  match Edge.style a with
  | Some s => stroke s
  | None => ""
  end.

(** A handler that returned the state it was given. *)
Ltac same_state H := injection H as <-.

(** An action whose own arguments name no inherited member: the ends of a
    connection, and the arrows of a project to switch to. *)
Definition plainAction (a : Action) : Prop :=
  match a with
  | Edit (Connect params) =>
      forall src tgt, source params = Some src -> target params = Some tgt ->
                      inherited src = false /\ inherited tgt = false
  | Edit (ProjectSwitch project) => plainIds (Project.arrows project) = true
  | _ => True
  end.

(** ** More sample data *)

(** One arrow from task 1 to itself. *)
Definition selfLoop : list Edge.t := [ mkArrow "e1" "1" "1" ].

Definition styledCycle : Snapshot.t :=
  match updateStyles (tasks sampleState) threeCycle None None with
  | Normal out => out
  | _ => {| Snapshot.tasks := []; Snapshot.arrows := [] |}
  end.

Definition somewhere : XYPosition := {| x := 250; y := 150 |}.

(** The sample project after [addTask], after a bare [saveToLocalStorage],
    after connecting task 1 to task 3, and after a change of arrow type. *)
Definition added : State :=
  match addTask sampleEnv somewhere sampleState with
  | Normal st => st
  | _ => sampleState
  end.

Definition savedSample : State :=
  match saveToLocalStorage sampleEnv sampleState sampleState with
  | Normal st => st
  | _ => sampleState
  end.

Definition connect13 : Connection :=
  {| source := Some "1"; target := Some "3" |}.

Definition connected : State :=
  match onConnect sampleEnv connect13 sampleState with
  | Normal st => st
  | _ => sampleState
  end.

Definition retyped : State :=
  match handleArrowTypeChange sampleEnv bezier sampleState with
  | Normal st => st
  | _ => sampleState
  end.

(** The sample project with arrow e1 selected, and after deleting it. *)
Definition arrowSelected : State :=
  setSelectedArrowId (Some "e1") sampleState.

Definition afterArrowDelete : State :=
  match deleteSelected sampleEnv arrowSelected with
  | Normal st => st
  | _ => arrowSelected
  end.

(** The entry that the switch away from the renamed sample project saved
    for it, and the editor after switching back to that entry. *)
Definition savedEntry : Project.t :=
  match element (projects afterSwitch) (currentProjectIndex renamed) with
  | Some p => p
  | None => sampleProject
  end.

Definition switchedBack : State :=
  match handleProjectSwitch sampleEnv savedEntry afterSwitch with
  | Normal st => st
  | _ => afterSwitch
  end.

(** Closed goals over the sample data: equations, and comparisons of
    integers. *)
Ltac by_computation :=
  vm_compute;
  repeat match goal with
         | |- _ /\ _ => split
         | |- _ -> False => let E := fresh in intro E; discriminate E
         | |- _ = _ => reflexivity
         | |- _ \/ _ => (left; reflexivity) || (right; reflexivity)
         end.

(* ------------------------------------------------------------------ *)
(** * Properties *)

(** ** [areAllParentsCompleted] and the completion rule *)

Lemma sourceTask_Some tasks a n :
  sourceTask tasks a = Some n ->
  In n tasks /\ TaskNode.id n = Edge.source a.
Proof.
  unfold sourceTask. intros H. apply find_some in H as [Hin Heq].
  split; [assumption | now apply String.eqb_eq].
Qed.

Lemma parentArrows_In taskId arrows a :
  In a (parentArrows taskId arrows) <-> In a arrows /\ Edge.target a = taskId.
Proof.
  unfold parentArrows. rewrite filter_In, String.eqb_eq. reflexivity.
Qed.

Lemma sourceCompleted_true tasks a :
  sourceCompleted tasks a = true <->
  exists n, sourceTask tasks a = Some n /\ completed (TaskNode.data n) = true.
Proof.
  unfold sourceCompleted. destruct (sourceTask tasks a) as [n|].
  - split; [intros H; exists n; auto | intros (m & Hm & Hc); congruence].
  - split; [discriminate | intros (m & Hm & _); discriminate].
Qed.

Lemma areAllParentsCompleted_forallb taskId tasks arrows :
  areAllParentsCompleted taskId tasks arrows
  = forallb (sourceCompleted tasks) (parentArrows taskId arrows).
Proof.
  unfold areAllParentsCompleted.
  destruct (parentArrows taskId arrows); reflexivity.
Qed.

Lemma sourceTask_None tasks a :
  (forall n, In n tasks -> TaskNode.id n <> Edge.source a) ->
  sourceTask tasks a = None.
Proof.
  intros H. unfold sourceTask.
  destruct (find _ tasks) as [n|] eqn:E; [|reflexivity].
  apply find_some in E as [Hin He]. apply String.eqb_eq in He.
  exfalso. exact (H n Hin He).
Qed.

(** C6. [areAllParentsCompleted(t, tasks, arrows)] is true iff [t] has no
    incoming arrow or, for every incoming arrow, the task found for its
    source id exists in the task list and is completed; an incoming arrow
    whose source id matches no task of the list makes the result false. *)
Theorem areAllParentsCompleted_spec (taskId : string)
    (tasks : list TaskNode.t) (arrows : list Edge.t) :
  (areAllParentsCompleted taskId tasks arrows = true <->
     (forall a, In a arrows -> Edge.target a <> taskId)
     \/ (forall a, In a arrows -> Edge.target a = taskId ->
           exists n, In n tasks /\ TaskNode.id n = Edge.source a
                     /\ sourceTask tasks a = Some n
                     /\ completed (TaskNode.data n) = true))
  /\ (forall a, In a arrows -> Edge.target a = taskId ->
        (forall n, In n tasks -> TaskNode.id n <> Edge.source a) ->
        areAllParentsCompleted taskId tasks arrows = false).
Proof.
  rewrite areAllParentsCompleted_forallb. split.
  - rewrite forallb_forall. split.
    + intros H. right. intros a Hin Ht.
      assert (Hp : In a (parentArrows taskId arrows))
        by (apply parentArrows_In; auto).
      apply H, sourceCompleted_true in Hp as (n & Hn & Hc).
      exists n. destruct (sourceTask_Some _ _ Hn). auto.
    + intros [Hnone | Hall] a Hp; apply parentArrows_In in Hp as [Hin Ht].
      * exfalso. exact (Hnone a Hin Ht).
      * destruct (Hall a Hin Ht) as (n & _ & _ & Hn & Hc).
        apply sourceCompleted_true. eauto.
  - intros a Hin Ht Hmissing.
    apply sourceTask_None in Hmissing.
    apply not_true_is_false. rewrite forallb_forall. intros H.
    assert (Hp : In a (parentArrows taskId arrows))
      by (apply parentArrows_In; auto).
    apply H in Hp. unfold sourceCompleted in Hp. rewrite Hmissing in Hp.
    discriminate.
Qed.

(** The completed flags that [updateTask] leaves, when it returns. *)
Lemma updateTask_completion env id label requested st st' :
  updateTask env id label requested st = Normal st' ->
  map (fun t => (TaskNode.id t, completed (TaskNode.data t))) (tasks st')
  = map (fun t =>
           (TaskNode.id t,
            if String.eqb (TaskNode.id t) id
            then attemptSetCompletion t requested (tasks st) (arrows st)
            else completed (TaskNode.data t)))
        (tasks st).
Proof.
  unfold updateTask. intros H.
  destruct (updateStyles _ (arrows st) _ _) as [styled| |] eqn:Hu;
    simpl in H; try discriminate.
  unfold updateStyles in Hu.
  destruct (detectAllCycles (arrows st)) as [cyc| |]; simpl in Hu;
    try discriminate.
  injection Hu as <-.
  unfold saveToLocalStorage in H.
  destruct (element (effectiveProjects st) (effectiveIndex st));
    [|discriminate].
  injection H as <-. simpl. rewrite !map_map. apply map_ext. intros u.
  simpl. destruct (String.eqb (TaskNode.id u) id); reflexivity.
Qed.

(** C1. A completed task takes whatever value is requested; a task that is
    not completed and is asked to become completed ends up completed
    exactly when [areAllParentsCompleted] holds for it.  The rule is a total
    function to [bool], so nothing is thrown; it is the value that
    [EditModal.handleSave] passes on and that [updateTask] stores. *)
Theorem attemptSetCompletion_spec (t : TaskNode.t)
    (allTasks : list TaskNode.t) (allArrows : list Edge.t) :
  (completed (TaskNode.data t) = true ->
     forall requested,
       attemptSetCompletion t requested allTasks allArrows = requested)
  /\ (completed (TaskNode.data t) = false ->
        attemptSetCompletion t true allTasks allArrows
        = areAllParentsCompleted (TaskNode.id t) allTasks allArrows)
  /\ (forall label requested,
        EditModal_handleSave t allTasks allArrows label requested
        = (TaskNode.id t, label,
           attemptSetCompletion t requested allTasks allArrows))
  /\ (forall env label requested st st',
        updateTask env (TaskNode.id t) label requested st = Normal st' ->
        map (fun u => (TaskNode.id u, completed (TaskNode.data u))) (tasks st')
        = map (fun u =>
                 (TaskNode.id u,
                  if String.eqb (TaskNode.id u) (TaskNode.id t)
                  then attemptSetCompletion u requested (tasks st) (arrows st)
                  else completed (TaskNode.data u)))
              (tasks st)).
Proof.
  unfold attemptSetCompletion at 1 2. repeat split.
  - intros -> requested. reflexivity.
  - intros ->. destruct (areAllParentsCompleted _ _ _); reflexivity.
  - intros env label requested st st'. apply updateTask_completion.
Qed.

(** ** The undo history *)

Lemma bind_Normal {A B : Type} (c : Completion A) (k : A -> Completion B) b :
  bind c k = Normal b -> exists a, c = Normal a /\ k a = Normal b.
Proof. destruct c; simpl; intros H; try discriminate. eauto. Qed.

Lemma nth_error_mapi_from {A B : Type} (f : A -> nat -> B) l k n :
  nth_error (mapi_from k f l) n
  = option_map (fun a => f a (k + n)) (nth_error l n).
Proof.
  revert k n. induction l as [|a l IH]; intros k [|n]; simpl; try reflexivity.
  - now rewrite Nat.add_0_r.
  - rewrite IH. simpl. now rewrite Nat.add_succ_r.
Qed.

Lemma element_mapi {A B : Type} (f : A -> nat -> B) l i :
  element (mapi f l) i
  = option_map (fun a => f a (Z.to_nat i)) (element l i).
Proof.
  unfold element, mapi. destruct (i <? 0)%Z; [reflexivity|].
  apply nth_error_mapi_from.
Qed.

Lemma validProject_effective st :
  validProject st = true ->
  effectiveProjects st = projects st
  /\ effectiveIndex st = currentProjectIndex st.
Proof.
  unfold validProject, effectiveProjects, effectiveIndex.
  destruct (projects st) as [|p ps]; [|auto].
  unfold element. destruct (_ <? 0)%Z; [discriminate|].
  destruct (Z.to_nat _); discriminate.
Qed.

(** What [saveToLocalStorage] does when it returns: it touches the project
    list and the history, and nothing else of the state being built. *)
Lemma saveToLocalStorage_Normal env st pending st' :
  saveToLocalStorage env st pending = Normal st' ->
  tasks st' = tasks pending
  /\ arrows st' = arrows pending
  /\ selectedTaskId st' = selectedTaskId pending
  /\ selectedArrowId st' = selectedArrowId pending
  /\ currentProjectIndex st' = currentProjectIndex pending
  /\ history st'
     = slice0 (history pending) (historyIndex st + 1)
       ++ [ {| Snapshot.tasks := tasks st; Snapshot.arrows := arrows st |} ]
  /\ historyIndex st' = (Z.of_nat (List.length (history st')) - 1)%Z.
Proof.
  unfold saveToLocalStorage.
  destruct (element (effectiveProjects st) (effectiveIndex st));
    [|discriminate].
  intros H. injection H as <-. simpl. repeat split; reflexivity.
Qed.

Lemma saveToLocalStorage_valid env st pending :
  validProject st = true ->
  currentProjectIndex pending = currentProjectIndex st ->
  exists st', saveToLocalStorage env st pending = Normal st'
              /\ validProject st' = true.
Proof.
  intros Hv Hidx. destruct (validProject_effective st Hv) as [Hp Hi].
  unfold saveToLocalStorage. rewrite Hp, Hi.
  unfold validProject in Hv.
  destruct (element (projects st) (currentProjectIndex st)) as [p|] eqn:He;
    [|discriminate].
  eexists. split; [reflexivity|].
  unfold validProject. simpl. rewrite Hidx, element_mapi, He. reflexivity.
Qed.

Lemma record_spec env snapshot st :
  validProject st = true ->
  exists st', record env snapshot st = Normal st'
    /\ validProject st' = true
    /\ tasks st' = Snapshot.tasks snapshot
    /\ arrows st' = Snapshot.arrows snapshot
    /\ history st' = slice0 (history st) (historyIndex st + 1) ++ [snapshot]
    /\ historyIndex st' = (Z.of_nat (List.length (history st')) - 1)%Z.
Proof.
  intros Hv. unfold record.
  set (shown := setArrows _ _).
  destruct (saveToLocalStorage_valid env shown shown) as (st' & Hs & Hv');
    [exact Hv | reflexivity |].
  exists st'. split; [exact Hs|]. split; [exact Hv'|].
  apply saveToLocalStorage_Normal in Hs
    as (Ht & Ha & _ & _ & _ & Hh & Hi).
  rewrite Ht, Ha, Hh, Hi, Hh. destruct snapshot. repeat split; reflexivity.
Qed.

(** C5. From an empty history, [record(A)], [record(B)], [undo()],
    [record(C)] leave the entries [[A; C]] with the cursor on [C], and a
    following [redo()] changes nothing. *)
Theorem history_record_undo_record (env : Env) (st : State)
    (A B C : Snapshot.t) :
  history st = [] -> historyIndex st = (-1)%Z -> validProject st = true ->
  exists s4,
    (s1 <- record env A st ;; s2 <- record env B s1 ;;
     s3 <- undo s2 ;; record env C s3) = Normal s4
    /\ history s4 = [A; C]
    /\ historyIndex s4 = 1%Z
    /\ element (history s4) (historyIndex s4) = Some C
    /\ redo s4 = Normal s4.
Proof.
  intros Hh Hi Hv.
  destruct (record_spec env A st Hv) as (s1 & -> & Hv1 & _ & _ & Hh1 & Hi1).
  rewrite Hh, Hi in Hh1. simpl in Hh1. rewrite Hh1 in Hi1. simpl in Hi1.
  destruct (record_spec env B s1 Hv1) as (s2 & E2 & Hv2 & _ & _ & Hh2 & Hi2).
  rewrite Hh1, Hi1 in Hh2. simpl in Hh2. rewrite Hh2 in Hi2. simpl in Hi2.
  simpl. rewrite E2. simpl.
  assert (E3 : undo s2
               = Normal (setArrows (Snapshot.arrows A)
                           (setTasks (Snapshot.tasks A)
                              (setHistoryIndex 0%Z s2)))).
  { unfold undo. rewrite Hi2, Hh2. reflexivity. }
  rewrite E3. simpl.
  set (s3 := setArrows _ _).
  assert (Hv3 : validProject s3 = true) by exact Hv2.
  destruct (record_spec env C s3 Hv3) as (s4 & E4 & _ & _ & _ & Hh4 & Hi4).
  change (history s3) with (history s2) in Hh4.
  change (historyIndex s3) with 0%Z in Hh4.
  rewrite Hh2 in Hh4. simpl in Hh4. rewrite Hh4 in Hi4. simpl in Hi4.
  exists s4. split; [exact E4|]. split; [exact Hh4|]. split; [exact Hi4|].
  split.
  - rewrite Hh4, Hi4. reflexivity.
  - unfold redo. rewrite Hh4, Hi4. reflexivity.
Qed.

(** ** Project switch *)

(** What [updateStyles] returns, when it returns. *)
Lemma updateStyles_Normal tasks arrows selT selA out :
  updateStyles tasks arrows selT selA = Normal out ->
  exists cyc, detectAllCycles arrows = Normal cyc
    /\ Snapshot.tasks out = map (styleTask tasks arrows selT) tasks
    /\ Snapshot.arrows out = map (styleArrow cyc selA) arrows.
Proof.
  unfold updateStyles. intros H. apply bind_Normal in H as (cyc & Hc & H).
  injection H as <-. exists cyc. auto.
Qed.

(** C4, as the code has it.  [handleProjectSwitch] does not reset the
    history: it keeps the entries up to the cursor, appends the snapshot of
    the project being left and moves the cursor to that last entry, so the
    history is never empty after a switch. *)
Theorem handleProjectSwitch_records (env : Env) (project : Project.t)
    (st st' : State) :
  handleProjectSwitch env project st = Normal st' ->
  history st'
  = slice0 (history st) (historyIndex st + 1)
    ++ [ {| Snapshot.tasks := tasks st; Snapshot.arrows := arrows st |} ]
  /\ historyIndex st' = (Z.of_nat (List.length (history st')) - 1)%Z
  /\ history st' <> [].
Proof.
  unfold handleProjectSwitch. intros H.
  apply bind_Normal in H as (pending & Hs & H).
  apply saveToLocalStorage_Normal in Hs as (_ & _ & _ & _ & _ & Hh & Hi).
  unfold handleProjectSwitch_timeout in H.
  apply bind_Normal in H as (styled & _ & H). injection H as <-.
  simpl. rewrite <- Hh. repeat split; [exact Hi|].
  rewrite Hh. intros E. destruct (slice0 _ _); discriminate.
Qed.

(** ** [onConnect] and [deleteSelected] *)

(** C8. Connecting a pair that an existing arrow already joins changes
    nothing: [onConnect] returns the state it was given, the history
    included, and does not throw. *)
Theorem onConnect_duplicate (env : Env) (st : State) (params : Connection)
    (a : Edge.t) :
  In a (arrows st) ->
  source params = Some (Edge.source a) ->
  target params = Some (Edge.target a) ->
  onConnect env params st = Normal st.
Proof.
  intros Hin Hs Ht. unfold onConnect. rewrite Hs, Ht.
  destruct (negb (truthy (Edge.source a)) || negb (truthy (Edge.target a)));
    [reflexivity|].
  replace (existsb _ (arrows st)) with true; [reflexivity|].
  symmetry. apply existsb_exists. exists a. split; [exact Hin|].
  now rewrite !String.eqb_refl.
Qed.

Lemma taskContent_styleTask tasks arrows selT t :
  taskContent (styleTask tasks arrows selT t) = taskContent t.
Proof. reflexivity. Qed.

Lemma arrowContent_styleArrow cyc selA a :
  arrowContent (styleArrow cyc selA a) = arrowContent a.
Proof. reflexivity. Qed.

Lemma map_taskContent_styleTask tasks arrows selT l :
  map taskContent (map (styleTask tasks arrows selT) l) = map taskContent l.
Proof. rewrite map_map. apply map_ext. intros t. reflexivity. Qed.

Lemma map_arrowContent_styleArrow cyc selA l :
  map arrowContent (map (styleArrow cyc selA) l) = map arrowContent l.
Proof. rewrite map_map. apply map_ext. intros a. reflexivity. Qed.

Lemma taskContent_ids (l l' : list TaskNode.t) :
  map taskContent l = map taskContent l' ->
  map TaskNode.id l = map TaskNode.id l'.
Proof.
  intros H.
  assert (E : forall k, map TaskNode.id k
                        = map (fun c => fst (fst c)) (map taskContent k)).
  { intros k. rewrite map_map. reflexivity. }
  rewrite (E l), (E l'), H. reflexivity.
Qed.

Lemma arrowContent_ends (l l' : list Edge.t) :
  map arrowContent l = map arrowContent l' ->
  map (fun a => (Edge.source a, Edge.target a)) l
  = map (fun a => (Edge.source a, Edge.target a)) l'.
Proof.
  intros H.
  assert (E : forall k, map (fun a => (Edge.source a, Edge.target a)) k
                        = map (fun c => (snd (fst (fst c)), snd (fst c)))
                              (map arrowContent k)).
  { intros k. rewrite map_map. reflexivity. }
  rewrite (E l), (E l'), H. reflexivity.
Qed.

(** C10. When [deleteSelected] removes the selected task, the remaining
    tasks are exactly the other tasks and the remaining arrows are exactly
    the arrows that do not touch the removed id (both with their style
    recomputed); no arrow mentions the removed id afterwards, and a
    snapshot without dangling arrows stays without dangling arrows. *)
Theorem deleteSelected_task (env : Env) (st st' : State) (sel : string) :
  selectedTaskId st = Some sel -> truthy sel = true ->
  deleteSelected env st = Normal st' ->
  map taskContent (tasks st')
  = map taskContent
      (filter (fun t => negb (String.eqb (TaskNode.id t) sel)) (tasks st))
  /\ map arrowContent (arrows st')
     = map arrowContent
         (filter (fun a => negb (String.eqb (Edge.source a) sel)
                           && negb (String.eqb (Edge.target a) sel))
                 (arrows st))
  /\ ~ In sel (map TaskNode.id (tasks st'))
  /\ (forall a, In a (arrows st') ->
        Edge.source a <> sel /\ Edge.target a <> sel)
  /\ (noDangling (tasks st) (arrows st) -> noDangling (tasks st') (arrows st')).
Proof.
  intros Hsel Htr H. unfold deleteSelected in H. rewrite Hsel in H.
  simpl in H. rewrite Htr in H.
  apply bind_Normal in H as (styled & Hu & H).
  apply updateStyles_Normal in Hu as (cyc & _ & HT & HA).
  apply saveToLocalStorage_Normal in H as (Ht & Ha & _).
  simpl in Ht, Ha. rewrite HT in Ht. rewrite HA in Ha.
  assert (ET : map taskContent (tasks st')
               = map taskContent
                   (filter (fun t => negb (String.eqb (TaskNode.id t) sel))
                           (tasks st))).
  { rewrite Ht. apply map_taskContent_styleTask. }
  assert (EA : map arrowContent (arrows st')
               = map arrowContent
                   (filter (fun a => negb (String.eqb (Edge.source a) sel)
                                     && negb (String.eqb (Edge.target a) sel))
                           (arrows st))).
  { rewrite Ha. apply map_arrowContent_styleArrow. }
  assert (Hids : forall i, In i (map TaskNode.id (tasks st')) <->
                           In i (map TaskNode.id (tasks st)) /\ i <> sel).
  { intros i. rewrite (taskContent_ids _ _ ET), !in_map_iff. split.
    - intros (t & <- & Hin). apply filter_In in Hin as [Hin Hne].
      apply negb_true_iff, String.eqb_neq in Hne. eauto.
    - intros [(t & <- & Hin) Hne]. exists t. split; [reflexivity|].
      apply filter_In. split; [exact Hin|].
      now apply negb_true_iff, String.eqb_neq. }
  assert (Hends : forall a, In a (arrows st') ->
            exists b, In b (arrows st)
                      /\ Edge.source b = Edge.source a
                      /\ Edge.target b = Edge.target a
                      /\ Edge.source a <> sel /\ Edge.target a <> sel).
  { intros a Hin.
    apply (in_map (fun a => (Edge.source a, Edge.target a))) in Hin.
    rewrite (arrowContent_ends _ _ EA) in Hin.
    apply in_map_iff in Hin as (b & Hb & Hin).
    apply filter_In in Hin as [Hin Hne].
    apply andb_true_iff in Hne as [H1 H2].
    apply negb_true_iff, String.eqb_neq in H1, H2.
    injection Hb as Hs Hg. exists b. rewrite <- Hs, <- Hg. auto. }
  split; [exact ET|]. split; [exact EA|]. split; [|split].
  - intros Hin. apply Hids in Hin as [_ Hne]. now apply Hne.
  - intros a Hin. destruct (Hends a Hin) as (b & _ & _ & _ & H1 & H2). auto.
  - intros Hnd a Hin. destruct (Hends a Hin) as (b & Hb & Hs & Hg & H1 & H2).
    destruct (Hnd b Hb) as [Hbs Hbt]. rewrite Hs in Hbs. rewrite Hg in Hbt.
    split; apply Hids; auto.
Qed.

(** C9, evaluated.  On the sample project, after the arrow [e1] is selected
    and deleted, connecting task 1 to task 3 gives the new arrow the id
    [e2], which the remaining arrow 2 -> 3 already carries. *)
Theorem onConnect_reuses_id :
  exists st st',
    run sampleEnv [EdgeClick (mkArrow "e1" "1" "2"); DeleteSelected] sampleState
    = Normal st
    /\ onConnect sampleEnv {| source := Some "1"; target := Some "3" |} st
       = Normal st'
    /\ map Edge.id (arrows st) = ["e2"]
    /\ newEdgeId (arrows st) = "e2"
    /\ map arrowContent (arrows st')
       = [ ("e2", "2", "3", Some "straight");
           ("e2", "1", "3", Some "straight") ].
Proof.
  eexists. eexists. split; [vm_compute; reflexivity|].
  split; [vm_compute; reflexivity|].
  repeat split.
Qed.

(** ** The adjacency object *)

Lemma own_None_iff g k : own g k = None <-> ~ In k (map fst g).
Proof.
  induction g as [|[k' l] g IH]; simpl.
  - tauto.
  - destruct (String.eqb_spec k' k) as [->|Hne].
    + split; [discriminate | intros H; exfalso; apply H; now left].
    + rewrite IH. tauto.
Qed.

Lemma own_push g k v k' :
  own (push g k v) k'
  = if String.eqb k k' then option_map (fun l => l ++ [v]) (own g k')
    else own g k'.
Proof.
  induction g as [|[k0 l] g IH]; simpl.
  - now destruct (String.eqb k k').
  - destruct (String.eqb_spec k0 k) as [->|Hne]; simpl.
    + destruct (String.eqb_spec k k') as [->|Hne']; [reflexivity|].
      reflexivity.
    + destruct (String.eqb_spec k0 k') as [->|Hne'].
      * destruct (String.eqb_spec k k') as [->|]; [congruence | reflexivity].
      * exact IH.
Qed.

Lemma keys_push g k v : map fst (push g k v) = map fst g.
Proof.
  induction g as [|[k0 l] g IH]; simpl; [reflexivity|].
  destruct (String.eqb k0 k); simpl; [reflexivity | now rewrite IH].
Qed.

Lemma own_app_new g k k' :
  own g k = None ->
  own (g ++ [(k, [])]) k' = if String.eqb k k' then Some [] else own g k'.
Proof.
  induction g as [|[k0 l] g IH]; simpl.
  - reflexivity.
  - destruct (String.eqb_spec k0 k) as [->|Hne]; [discriminate|].
    intros H. destruct (String.eqb_spec k0 k') as [->|Hne'].
    + destruct (String.eqb_spec k k') as [->|]; [congruence | reflexivity].
    + now apply IH.
Qed.

Lemma succs_cons a arrows u :
  succs (a :: arrows) u
  = (if String.eqb (Edge.source a) u then [Edge.target a] else [])
    ++ succs arrows u.
Proof.
  unfold succs. simpl. now destruct (String.eqb (Edge.source a) u).
Qed.

Lemma addArrow_spec g a :
  match addArrow g a with
  | Normal g' =>
      (forall u, neighborsOf g' u
                 = neighborsOf g u
                   ++ (if String.eqb (Edge.source a) u
                       then [Edge.target a] else []))
      /\ (forall u, In u (map fst g') <->
                    In u (map fst g) \/ u = Edge.source a)
  | TypeError => inherited (Edge.source a) = true
  | RangeError => False
  end.
Proof.
  unfold addArrow, get.
  destruct (own g (Edge.source a)) as [l|] eqn:Ho.
  - split.
    + intros u. unfold neighborsOf. rewrite own_push.
      destruct (String.eqb_spec (Edge.source a) u) as [<-|Hne].
      * rewrite Ho. reflexivity.
      * now rewrite app_nil_r.
    + intros u. rewrite keys_push. split; [auto|].
      intros [H| ->]; [exact H|].
      destruct (in_dec string_dec (Edge.source a) (map fst g)) as [Hin|Hn];
        [exact Hin|].
      apply own_None_iff in Hn. congruence.
  - destruct (inherited (Edge.source a)); [reflexivity|]. split.
    + intros u. unfold neighborsOf. rewrite own_push, (own_app_new g _ u Ho).
      destruct (String.eqb_spec (Edge.source a) u) as [<-|Hne].
      * rewrite Ho. reflexivity.
      * now rewrite app_nil_r.
    + intros u. rewrite keys_push, map_app, in_app_iff. simpl.
      intuition congruence.
Qed.

Lemma buildGraph_spec arrows : forall g,
  match buildGraph g arrows with
  | Normal g' =>
      (forall u, neighborsOf g' u = neighborsOf g u ++ succs arrows u)
      /\ (forall u, In u (map fst g') <->
                    In u (map fst g) \/ In u (map Edge.source arrows))
  | TypeError => exists a, In a arrows /\ inherited (Edge.source a) = true
  | RangeError => False
  end.
Proof.
  induction arrows as [|a arrows IH]; intros g; simpl.
  - split; [intros u; now rewrite app_nil_r | tauto].
  - pose proof (addArrow_spec g a) as Ha.
    destruct (addArrow g a) as [g1| |]; simpl.
    + destruct Ha as [Hn Hk]. specialize (IH g1).
      destruct (buildGraph g1 arrows) as [g'| |].
      * destruct IH as [Hn' Hk']. split.
        -- intros u. rewrite Hn', Hn, succs_cons, app_assoc. reflexivity.
        -- intros u. rewrite Hk', Hk. simpl. intuition congruence.
      * destruct IH as (b & Hb & Hi). exists b. split; [now right | exact Hi].
      * exact IH.
    + exists a. split; [now left | exact Ha].
    + exact Ha.
Qed.

Lemma plainIds_spec arrows a :
  plainIds arrows = true -> In a arrows ->
  inherited (Edge.source a) = false /\ inherited (Edge.target a) = false.
Proof.
  unfold plainIds. rewrite forallb_forall. intros H Hin.
  apply H in Hin. apply andb_true_iff in Hin as [H1 H2].
  now apply negb_true_iff in H1, H2.
Qed.

(** *** [Object.keys] lists exactly the own keys *)

Lemma insert_key_In k l x : In x (insert_key k l) <-> x = k \/ In x l.
Proof.
  induction l as [|k' l IH]; simpl.
  - intuition congruence.
  - destruct (fst k <=? fst k')%N; simpl; [intuition congruence|].
    rewrite IH. intuition congruence.
Qed.

Lemma sort_keys_In l x : In x (sort_keys l) <-> In x l.
Proof.
  induction l as [|k l IH]; simpl; [tauto|].
  rewrite insert_key_In, IH. intuition congruence.
Qed.

Lemma index_keys_In ks n k :
  In (n, k) (index_keys ks) <-> In k ks /\ array_index k = Some n.
Proof.
  induction ks as [|k0 ks IH]; simpl; [tauto|].
  destruct (array_index k0) as [m|] eqn:E; simpl; rewrite IH.
  - split.
    + intros [H|[H1 H2]]; [injection H as <- <-; auto | auto].
    + intros [[<-|H1] H2]; [left; congruence | auto].
  - split; [intros [H1 H2]; auto|].
    intros [[<-|H1] H2]; [congruence | auto].
Qed.

Lemma Object_keys_In g k : In k (Object_keys g) <-> In k (map fst g).
Proof.
  unfold Object_keys. rewrite in_app_iff, filter_In, in_map_iff.
  unfold is_array_index. split.
  - intros [((n, k') & Hk & Hin)|[Hin _]]; [|exact Hin].
    simpl in Hk. subst k'. apply sort_keys_In, index_keys_In in Hin. tauto.
  - intros Hin. destruct (array_index k) as [n|] eqn:E; [left | right; auto].
    exists (n, k). split; [reflexivity|].
    apply sort_keys_In, index_keys_In. auto.
Qed.

(** ** [Set<string>] *)

Lemma has_In s x : StringSet.has s x = true <-> In x s.
Proof.
  unfold StringSet.has. rewrite existsb_exists. split.
  - intros (y & Hin & He). apply String.eqb_eq in He. now subst.
  - intros Hin. exists x. split; [exact Hin | apply String.eqb_refl].
Qed.

Lemma has_false s x : StringSet.has s x = false <-> ~ In x s.
Proof.
  rewrite <- has_In. destruct (StringSet.has s x); intuition congruence.
Qed.

Lemma add_In y s x : In x (StringSet.add y s) <-> x = y \/ In x s.
Proof.
  unfold StringSet.add. destruct (StringSet.has s y) eqn:E.
  - apply has_In in E. intuition congruence.
  - rewrite in_app_iff. simpl. intuition congruence.
Qed.

Lemma delete_fresh s x : ~ In x s -> StringSet.delete x s = s.
Proof.
  unfold StringSet.delete. induction s as [|y s IH]; simpl; [reflexivity|].
  intros H. destruct (String.eqb_spec y x) as [->|Hne]; simpl.
  - exfalso. apply H. now left.
  - rewrite IH; [reflexivity | tauto].
Qed.

Lemma delete_add s x : ~ In x s -> StringSet.delete x (StringSet.add x s) = s.
Proof.
  intros H. unfold StringSet.add.
  apply has_false in H as E. rewrite E.
  unfold StringSet.delete. rewrite filter_app. simpl.
  rewrite String.eqb_refl. simpl. rewrite app_nil_r.
  now apply delete_fresh.
Qed.

Lemma unvisitedCount_le ns seen seen' :
  (forall x, In x seen -> In x seen') ->
  unvisitedCount ns seen' <= unvisitedCount ns seen.
Proof.
  intros H. unfold unvisitedCount. induction ns as [|n ns IH]; simpl; [lia|].
  destruct (StringSet.has seen' n) eqn:E'; destruct (StringSet.has seen n) eqn:E;
    simpl; try lia.
  apply has_In, H, has_In in E. congruence.
Qed.

Lemma unvisitedCount_lt ns seen seen' t :
  (forall x, In x seen -> In x seen') ->
  In t ns -> ~ In t seen -> In t seen' ->
  unvisitedCount ns seen' < unvisitedCount ns seen.
Proof.
  intros H Hin Hn Hy. unfold unvisitedCount.
  induction ns as [|n ns IH]; simpl; [contradiction|].
  pose proof (unvisitedCount_le ns seen seen' H) as Hle.
  unfold unvisitedCount in Hle.
  destruct Hin as [->|Hin].
  - apply has_false in Hn. apply has_In in Hy. rewrite Hn, Hy. simpl. lia.
  - specialize (IH Hin).
    destruct (StringSet.has seen' n) eqn:E';
      destruct (StringSet.has seen n) eqn:E; simpl; try lia.
    apply has_In, H, has_In in E. congruence.
Qed.

Lemma unvisitedCount_bound ns seen : unvisitedCount ns seen <= List.length ns.
Proof. apply filter_length_le. Qed.

(** ** Walks in the dependency graph *)

Lemma succs_edge arrows u v : In v (succs arrows u) <-> edge arrows u v.
Proof.
  unfold succs, edge. rewrite in_map_iff. split.
  - intros (a & Ht & Hin). apply filter_In in Hin as [Hin Hs].
    apply String.eqb_eq in Hs. eauto.
  - intros (a & Hin & Hs & Ht). exists a. split; [exact Ht|].
    apply filter_In. split; [exact Hin | now apply String.eqb_eq].
Qed.

Lemma edge_nodes arrows u v :
  edge arrows u v -> In u (nodes arrows) /\ In v (nodes arrows).
Proof.
  intros (a & Hin & <- & <-). unfold nodes. rewrite !in_app_iff.
  split; [left | right]; now apply in_map.
Qed.

Lemma edge_findArrowId arrows u v :
  edge arrows u v ->
  exists a, In a arrows /\ findArrowId arrows u v = Some (Edge.id a).
Proof.
  intros (a & Hin & Hs & Ht). unfold findArrowId.
  destruct (find _ arrows) as [b|] eqn:E.
  - apply find_some in E as [Hb _]. exists b. auto.
  - apply (find_none _ _ E) in Hin. rewrite Hs, Ht, !String.eqb_refl in Hin.
    discriminate.
Qed.

Lemma reaches_step arrows r t n :
  reaches arrows r t -> edge arrows t n -> reaches arrows r n.
Proof.
  intros Hr He. eapply rt_trans; [exact Hr | now apply rt_step].
Qed.

Lemma back_edge_cycle arrows t n :
  reaches arrows n t -> edge arrows t n -> onCycle arrows n.
Proof.
  intros Hr He. unfold onCycle.
  eapply clos_rt_t; [exact Hr | now apply t_step].
Qed.

Lemma onCycle_first arrows u :
  onCycle arrows u -> exists w, edge arrows u w /\ reaches arrows w u.
Proof.
  unfold onCycle. generalize u at 1 3 as v. intros v H.
  apply clos_trans_t1n in H.
  destruct H as [y He | y z He Ht].
  - exists y. split; [exact He | apply rt_refl].
  - exists y. split; [exact He|].
    apply clos_t1n_trans in Ht. now apply clos_t_clos_rt.
Qed.

Lemma truthyIds_spec arrows a :
  truthyIds arrows = true -> In a arrows -> truthy (Edge.id a) = true.
Proof. unfold truthyIds. rewrite forallb_forall. auto. Qed.

Lemma framed_refl st : framed st st.
Proof. unfold framed. auto. Qed.

Lemma framed_trans st1 st2 st3 :
  framed st1 st2 -> framed st2 st3 -> framed st1 st3.
Proof.
  intros (R1 & V1 & C1) (R2 & V2 & C2). unfold framed.
  rewrite R2, R1. auto.
Qed.

Lemma finished_framed st st' u :
  framed st st' -> finished st u -> finished st' u.
Proof.
  intros (HR & HV & _) [Hv Hr]. unfold finished. rewrite HR. auto.
Qed.

Lemma finished_reaches arrows st u v :
  closedAcyclic arrows st -> finished st u -> reaches arrows u v ->
  finished st v.
Proof.
  intros [Hc _] Hu Hr. induction Hr; eauto.
Qed.

Lemma outcomeSpec_bind arrows c k (P Q : DfsState -> Prop) :
  outcomeSpec arrows c P ->
  (forall st, P st -> outcomeSpec arrows (k st) Q) ->
  outcomeSpec arrows (bind c k) Q.
Proof. destruct c; simpl; auto. Qed.

Lemma outcomeSpec_weaken arrows c (P Q : DfsState -> Prop) :
  outcomeSpec arrows c P -> (forall st, P st -> Q st) ->
  outcomeSpec arrows c Q.
Proof. destruct c; simpl; auto. Qed.

(** ** The traversal *)

Lemma flagArrow_frame o st :
  visited (flagArrow o st) = visited st
  /\ recStack (flagArrow o st) = recStack st
  /\ (forall x, In x (cycleArrows st) -> In x (cycleArrows (flagArrow o st))).
Proof.
  unfold flagArrow. destruct o as [i|]; [destruct (truthy i)|]; simpl; auto.
  repeat split. intros x Hx. apply add_In. now right.
Qed.

Lemma flagArrow_flags i st :
  truthy i = true -> In i (cycleArrows (flagArrow (Some i) st)).
Proof. intros H. unfold flagArrow. rewrite H. simpl. apply add_In. now left. Qed.

Lemma nonempty_not_nil {A : Type} (l : list A) x : In x l -> l <> [].
Proof. intros H E. rewrite E in H. exact H. Qed.

Section Traversal.
Variable arrows : list Edge.t.
Variable g : Graph.
Hypothesis Hg : forall u, neighborsOf g u = succs arrows u.

(** The loop over the neighbours of [taskId], given the specification of
    the recursive calls. *)
Lemma forNeighbors_spec (fuel : nat) :
  (forall t st, dfsPre arrows fuel t st ->
     outcomeSpec arrows (dfs arrows g fuel t st)
       (fun st' => dfsPost arrows t st st' /\ In t (visited st'))) ->
  forall taskId ns st,
    (forall n, In n ns -> edge arrows taskId n) ->
    In taskId (recStack st) ->
    (forall x, In x (recStack st) -> In x (visited st)) ->
    unvisitedCount (nodes arrows) (visited st) < fuel ->
    outcomeSpec arrows
      (forNeighbors (dfs arrows g fuel) arrows taskId ns st)
      (fun st' =>
         dfsPost arrows taskId st st'
         /\ (truthyIds arrows = true -> cycleArrows st' = [] ->
             forall n, In n ns -> finished st' n)).
Proof.
  intros Hrec taskId ns.
  induction ns as [|n ns IH]; intros st Hed Hon Hsub Hcnt; simpl.
  - split.
    + split; [apply framed_refl|]. split; [intros _; now left | auto].
    + intros _ _ n [].
  - assert (He : edge arrows taskId n) by (apply Hed; now left).
    assert (Hed' : forall m, In m ns -> edge arrows taskId m)
      by (intros m Hm; apply Hed; now right).
    destruct (StringSet.has (visited st) n) eqn:Hv; simpl.
    + apply has_In in Hv.
      destruct (StringSet.has (recStack st) n) eqn:Hr.
      * (* a back edge *)
        apply has_In in Hr.
        destruct (edge_findArrowId He) as (a & Ha & ->).
        destruct (flagArrow_frame (Some (Edge.id a)) st) as (EV & ER & HC).
        pose proof (@flagArrow_flags (Edge.id a) st) as Hflag.
        set (st1 := flagArrow (Some (Edge.id a)) st) in *.
        eapply outcomeSpec_weaken.
        { apply (IH st1); rewrite ?ER, ?EV; auto. }
        intros st' [((HR' & HV' & HC') & Hs & Hc) Hfin].
        assert (Hne : truthyIds arrows = true -> cycleArrows st' <> []).
        { intros Ht. apply nonempty_not_nil with (x := Edge.id a).
          apply HC', Hflag. now apply truthyIds_spec with (arrows := arrows). }
        split; [split; [|split]|].
        -- unfold framed. rewrite HR', ER. split; [reflexivity|].
           split; [intros x Hx; apply HV'; now rewrite EV | auto].
        -- intros Hreach. right. exists n.
           apply back_edge_cycle with (t := taskId); auto.
        -- intros Ht Hempty _. now apply Hne in Ht.
        -- intros Ht Hempty. now apply Hne in Ht.
      * (* the neighbour is finished already *)
        apply has_false in Hr.
        eapply outcomeSpec_weaken; [apply (IH st); auto|].
        intros st' [Hpost Hfin]. split; [exact Hpost|].
        intros Ht Hempty m [<-|Hm]; [|auto].
        apply finished_framed with (st := st); [apply Hpost | split; auto].
    + (* the recursive call *)
      apply has_false in Hv.
      eapply outcomeSpec_bind.
      { apply Hrec. split; [apply (edge_nodes He)|].
        split; [exact Hv|]. split; [exact Hsub | exact Hcnt]. }
      intros st1 [(Hf1 & Hs1 & Hc1) Hin1]. simpl.
      pose proof Hf1 as (HR1 & HV1 & HC1).
      eapply outcomeSpec_weaken.
      { apply (IH st1).
        - exact Hed'.
        - now rewrite HR1.
        - intros x Hx. rewrite HR1 in Hx. auto.
        - eapply Nat.le_lt_trans; [apply unvisitedCount_le; exact HV1|].
          exact Hcnt. }
      intros st' [(Hf2 & Hs2 & Hc2) Hfin].
      split; [split; [|split]|].
      -- eapply framed_trans; eauto.
      -- intros Hreach.
         destruct Hs1 as [E1|Hcy]; [|  |now right].
         { intros r Hr. apply reaches_step with (t := taskId); auto. }
         destruct Hs2 as [E2|Hcy]; [now rewrite HR1 | | now right].
         left. congruence.
      -- intros Ht Hempty Hinv.
         assert (E1 : cycleArrows st1 = []).
         { destruct (cycleArrows st1) as [|c l] eqn:E; [reflexivity|].
           exfalso. destruct Hf2 as (_ & _ & HC2).
           apply (@nonempty_not_nil _ (cycleArrows st') c); [|exact Hempty].
           apply HC2. rewrite E. now left. }
         auto.
      -- intros Ht Hempty m [<-|Hm]; [|auto].
         apply finished_framed with (st := st1); [exact Hf2|].
         split; [exact Hin1|]. rewrite HR1. intros Hx. auto.
Qed.

(** [dfs(t)] from a state in which [t] is unvisited. *)
Lemma dfs_spec (fuel : nat) : forall t st,
  dfsPre arrows fuel t st ->
  outcomeSpec arrows (dfs arrows g fuel t st)
    (fun st' => dfsPost arrows t st st' /\ In t (visited st')).
Proof.
  induction fuel as [|fuel IHfuel]; intros t st (Hn & Hv & Hsub & Hcnt);
    [lia|].
  simpl.
  set (st1 := {| visited := StringSet.add t (visited st);
                 recStack := StringSet.add t (recStack st);
                 cycleArrows := cycleArrows st |}).
  assert (HnR : ~ In t (recStack st)) by (intros Hx; auto).
  assert (Hbody :
    outcomeSpec arrows
      (st2 <- forNeighbors (dfs arrows g fuel) arrows t (succs arrows t) st1 ;;
       Normal {| visited := visited st2;
                 recStack := StringSet.delete t (recStack st2);
                 cycleArrows := cycleArrows st2 |})
      (fun st' => dfsPost arrows t st st' /\ In t (visited st'))).
  { eapply outcomeSpec_bind.
    { apply (forNeighbors_spec IHfuel) with (st := st1).
      - intros n Hn'. now apply succs_edge.
      - simpl. apply add_In. now left.
      - simpl. intros x Hx. apply add_In in Hx. apply add_In.
        destruct Hx; auto.
      - simpl.
        assert (unvisitedCount (nodes arrows) (StringSet.add t (visited st))
                < unvisitedCount (nodes arrows) (visited st)).
        { apply unvisitedCount_lt with (t := t); auto.
          - intros x Hx. apply add_In. now right.
          - apply add_In. now left. }
        lia. }
    intros st2 [((HR2 & HV2 & HC2) & Hs2 & Hc2) Hfin].
    simpl in HR2, HV2, HC2. simpl.
    assert (ER : StringSet.delete t (recStack st2) = recStack st)
      by (rewrite HR2; now apply delete_add).
    assert (Ht2 : In t (visited st2)) by (apply HV2, add_In; now left).
    split; [split; [|split]|]; simpl.
    - unfold framed; simpl. split; [exact ER|].
      split; [|exact HC2]. intros x Hx. apply HV2, add_In. now right.
    - intros Hreach. apply Hs2. simpl. intros r Hr.
      apply add_In in Hr as [->|Hr]; [apply rt_refl | auto].
    - intros Ht Hempty Hinv.
      assert (Hto1 : forall u, finished st u -> finished st1 u).
      { intros u [Hu1 Hu2]. split; simpl.
        - apply add_In. now right.
        - intros Hx. apply add_In in Hx as [->|Hx]; auto. }
      assert (Hof1 : forall u, finished st1 u -> finished st u).
      { intros u [Hu1 Hu2]. simpl in Hu1, Hu2.
        assert (Hne : u <> t)
          by (intros ->; apply Hu2, add_In; now left).
        apply add_In in Hu1 as [?|Hu1]; [contradiction|].
        split; [exact Hu1|]. intros Hx. apply Hu2, add_In. now right. }
      assert (Hinv1 : closedAcyclic arrows st1).
      { destruct Hinv as [Hcl Hac]. split.
        - intros u v Hu Huv. apply Hto1, (Hcl u v); auto.
        - intros u Hu. apply Hac; auto. }
      specialize (Hc2 Ht Hempty Hinv1). specialize (Hfin Ht Hempty).
      set (st' := {| visited := visited st2;
                     recStack := StringSet.delete t (recStack st2);
                     cycleArrows := cycleArrows st2 |}).
      assert (Hto : forall u, finished st' u -> finished st2 u \/ u = t).
      { intros u [Hu1 Hu2]. simpl in Hu1, Hu2. rewrite ER in Hu2.
        destruct (string_dec u t) as [->|Hne]; [now right|]. left.
        split; [exact Hu1|]. rewrite HR2. intros Hx.
        apply add_In in Hx as [?|Hx]; auto. }
      assert (Hof : forall u, finished st2 u -> finished st' u).
      { intros u [Hu1 Hu2]. split; simpl; [exact Hu1|]. rewrite ER.
        intros Hx. apply Hu2. rewrite HR2. apply add_In. now right. }
      assert (Hsucc : forall v, edge arrows t v -> finished st2 v).
      { intros v Hv'. apply Hfin. now apply succs_edge. }
      split.
      + intros u v Hu Huv. apply Hof.
        destruct (Hto u Hu) as [H2| ->]; [|auto].
        destruct Hc2 as [Hcl _]. eauto.
      + intros u Hu Hcyc. destruct (Hto u Hu) as [H2| ->].
        * destruct Hc2 as [_ Hac]. exact (Hac u H2 Hcyc).
        * apply onCycle_first in Hcyc as (w & Hw & Hr).
          assert (Hft : finished st2 t)
            by (apply (finished_reaches Hc2 (Hsucc w Hw) Hr)).
          destruct Hft as [_ Hft]. apply Hft. rewrite HR2.
          apply add_In. now left.
    - exact Ht2. }
  unfold get. pose proof (Hg t) as Hgt. unfold neighborsOf in Hgt.
  destruct (own g t) as [l|] eqn:Ho.
  - rewrite <- Hgt in Hbody. exact Hbody.
  - destruct (inherited t) eqn:Hi.
    + simpl. apply not_true_is_false. intros Hp.
      unfold nodes in Hn. apply in_app_iff in Hn.
      destruct Hn as [Hn|Hn]; apply in_map_iff in Hn as (a & <- & Ha);
        destruct (plainIds_spec arrows a Hp Ha); congruence.
    + rewrite <- Hgt in Hbody. exact Hbody.
Qed.

(** The loop over [Object.keys(graph)]. *)
Lemma forRoots_spec : forall roots st,
  (forall r, In r roots -> In r (nodes arrows)) ->
  recStack st = [] ->
  outcomeSpec arrows (forRoots arrows g (dfsBudget arrows) roots st)
    (fun st' =>
       framed st st'
       /\ (cycleArrows st' = cycleArrows st \/ cyclic arrows)
       /\ (truthyIds arrows = true -> cycleArrows st' = [] ->
           closedAcyclic arrows st -> closedAcyclic arrows st')
       /\ (forall r, In r roots -> In r (visited st'))).
Proof.
  remember (dfsBudget arrows) as budget eqn:Hbudget.
  induction roots as [|r roots IH]; intros st Hn HR; simpl.
  - split; [apply framed_refl|]. split; [now left|].
    split; [auto | intros r []].
  - assert (Hn' : forall x, In x roots -> In x (nodes arrows))
      by (intros x Hx; apply Hn; now right).
    destruct (StringSet.has (visited st) r) eqn:Hv; simpl.
    + apply has_In in Hv.
      eapply outcomeSpec_weaken; [apply (IH st); auto|].
      intros st' (Hf & Hs & Hc & Hvis).
      split; [exact Hf|]. split; [exact Hs|]. split; [exact Hc|].
      intros x [<-|Hx]; [apply Hf; exact Hv | auto].
    + apply has_false in Hv.
      eapply outcomeSpec_bind.
      { apply dfs_spec. split; [apply Hn; now left|].
        split; [exact Hv|]. split; [rewrite HR; intros x []|].
        pose proof (unvisitedCount_bound (nodes arrows) (visited st)) as Hb.
        unfold nodes in Hb. rewrite length_app, !length_map in Hb.
        rewrite Hbudget. unfold dfsBudget, nodes. lia. }
      intros st1 [(Hf1 & Hs1 & Hc1) Hin1]. simpl.
      pose proof Hf1 as (HR1 & HV1 & HC1).
      eapply outcomeSpec_weaken.
      { apply (IH st1); [exact Hn' | now rewrite HR1]. }
      intros st' (Hf2 & Hs2 & Hc2 & Hvis).
      split; [eapply framed_trans; eauto|]. split; [|split].
      * destruct Hs1 as [E1|Hcy]; [rewrite HR; intros x [] | | now right].
        destruct Hs2 as [E2|Hcy]; [|now right]. left. congruence.
      * intros Ht Hempty Hinv.
        assert (E1 : cycleArrows st1 = []).
        { destruct (cycleArrows st1) as [|c l] eqn:E; [reflexivity|].
          exfalso. destruct Hf2 as (_ & _ & HC2).
          apply (@nonempty_not_nil _ (cycleArrows st') c); [|exact Hempty].
          apply HC2. rewrite E. now left. }
        auto.
      * intros x [<-|Hx]; [apply Hf2; exact Hin1 | auto].
Qed.
End Traversal.

(** ** [detectAllCycles] *)

(** Every outcome of [detectAllCycles], on every input. *)
Lemma detectAllCycles_outcome (arrows : list Edge.t) :
  match detectAllCycles arrows with
  | Normal cyc =>
      (cyc = [] \/ cyclic arrows)
      /\ (truthyIds arrows = true -> cyc = [] -> acyclic arrows)
  | TypeError => plainIds arrows = false
  | RangeError => False
  end.
Proof.
  unfold detectAllCycles.
  pose proof (buildGraph_spec arrows []) as Hb.
  destruct (buildGraph [] arrows) as [g| |]; simpl.
  - destruct Hb as [Hg Hk].
    set (st0 := {| visited := StringSet.empty; recStack := StringSet.empty;
                   cycleArrows := StringSet.empty |}).
    assert (Hroots : forall r, In r (Object_keys g) -> In r (nodes arrows)).
    { intros r Hr. apply Object_keys_In, Hk in Hr as [[]|Hr].
      unfold nodes. apply in_app_iff. now left. }
    pose proof (forRoots_spec arrows g Hg (Object_keys g) st0 Hroots eq_refl)
      as Hf.
    destruct (forRoots arrows g (dfsBudget arrows) (Object_keys g) st0)
      as [st'| |]; simpl in *; [|exact Hf|exact Hf].
    destruct Hf as ((HR & _ & _) & Hs & Hc & Hvis).
    split; [exact Hs|].
    intros Ht Hempty u Hcyc.
    assert (Hinv0 : closedAcyclic arrows st0).
    { split; [intros x y [[] _] | intros x [[] _]]. }
    destruct (Hc Ht Hempty Hinv0) as [_ Hac].
    apply (Hac u); [|exact Hcyc].
    pose proof Hcyc as Hcyc'.
    apply onCycle_first in Hcyc' as (w & (a & Ha & Hsrc & _) & _).
    split.
    + apply Hvis, Object_keys_In, Hk. right. rewrite <- Hsrc.
      now apply in_map.
    + rewrite HR. intros [].
  - destruct Hb as (a & Ha & Hi). apply not_true_is_false. intros Hp.
    destruct (plainIds_spec arrows a Hp Ha). congruence.
  - exact Hb.
Qed.

(** A stack of [dfsBudget] calls is never exhausted. *)
Lemma detectAllCycles_never_overflows (arrows : list Edge.t) :
  detectAllCycles arrows <> RangeError.
Proof.
  pose proof (detectAllCycles_outcome arrows) as H. intros E.
  now rewrite E in H.
Qed.

(** When no task id is an inherited name and every arrow id is a non-empty
    string, the run on a stack that suffices returns a set, which is empty
    iff the graph of the arrows is acyclic. *)
Lemma detectAllCycles_plain_outcome (arrows : list Edge.t) :
  plainIds arrows = true -> truthyIds arrows = true ->
  exists cyc, detectAllCycles arrows = Normal cyc
              /\ (cyc = [] <-> acyclic arrows).
Proof.
  intros Hp Ht. pose proof (detectAllCycles_outcome arrows) as H.
  destruct (detectAllCycles arrows) as [cyc| |]; [|congruence|contradiction].
  destruct H as [Hs Hc]. exists cyc. split; [reflexivity|]. split.
  - intros ->. now apply Hc.
  - intros Hac. destruct Hs as [->|(u & Hu)]; [reflexivity|].
    exfalso. exact (Hac u Hu).
Qed.

(** *** The depth of the call stack *)

(** An outcome other than the exhaustion of the stack is also the outcome on
    every deeper stack. *)
Lemma forNeighbors_deeper (d1 d2 : string -> DfsState -> Completion DfsState)
    arrows taskId :
  (forall n st c, d1 n st = c -> c <> RangeError -> d2 n st = c) ->
  forall ns st c,
    forNeighbors d1 arrows taskId ns st = c -> c <> RangeError ->
    forNeighbors d2 arrows taskId ns st = c.
Proof.
  intros Hd. induction ns as [|n ns IH]; intros st c; simpl; [auto|].
  destruct (negb (StringSet.has (visited st) n)).
  - destruct (d1 n st) as [st'| |] eqn:E1; simpl; intros Hc Hne.
    + rewrite (Hd n st (Normal st') E1) by discriminate. simpl. now apply IH.
    + rewrite (Hd n st TypeError E1) by discriminate. exact Hc.
    + congruence.
  - destruct (StringSet.has (recStack st) n); apply IH.
Qed.

Lemma dfs_deeper arrows g : forall n m, n <= m ->
  forall t st c, dfs arrows g n t st = c -> c <> RangeError ->
                 dfs arrows g m t st = c.
Proof.
  induction n as [|n IH]; intros m Hle t st c; simpl; [congruence|].
  destruct m as [|m]; [lia|]. simpl.
  destruct (get g t) as [l| |]; try (intros; assumption).
  - set (st1 := {| visited := StringSet.add t (visited st);
                   recStack := StringSet.add t (recStack st);
                   cycleArrows := cycleArrows st |}).
    destruct (forNeighbors (dfs arrows g n) arrows t l st1) as [st2| |] eqn:E;
      simpl; intros Hc Hne; try congruence.
    + rewrite (@forNeighbors_deeper (dfs arrows g n) (dfs arrows g m) arrows t
                 (IH m ltac:(lia)) l st1 (Normal st2) E) by discriminate.
      exact Hc.
    + rewrite (@forNeighbors_deeper (dfs arrows g n) (dfs arrows g m) arrows t
                 (IH m ltac:(lia)) l st1 TypeError E) by discriminate.
      exact Hc.
Qed.

Lemma forRoots_deeper arrows g n m : n <= m ->
  forall roots st c, forRoots arrows g n roots st = c -> c <> RangeError ->
                     forRoots arrows g m roots st = c.
Proof.
  intros Hle. induction roots as [|r roots IH]; intros st c; simpl; [auto|].
  destruct (negb (StringSet.has (visited st) r)); [|apply IH].
  destruct (dfs arrows g n r st) as [st'| |] eqn:E; simpl; intros Hc Hne.
  - rewrite (@dfs_deeper arrows g n m Hle r st (Normal st') E) by discriminate.
    simpl. now apply IH.
  - rewrite (@dfs_deeper arrows g n m Hle r st TypeError E) by discriminate.
    exact Hc.
  - congruence.
Qed.

Lemma detectAllCyclesWithin_deeper n m arrows c : n <= m ->
  detectAllCyclesWithin n arrows = c -> c <> RangeError ->
  detectAllCyclesWithin m arrows = c.
Proof.
  unfold detectAllCyclesWithin. intros Hle.
  destruct (buildGraph [] arrows) as [g| |]; simpl; auto.
  set (st0 := {| visited := StringSet.empty; recStack := StringSet.empty;
                 cycleArrows := StringSet.empty |}).
  destruct (forRoots arrows g n (Object_keys g) st0) as [st| |] eqn:E;
    simpl; intros Hc Hne; try congruence.
  - rewrite (@forRoots_deeper arrows g n m Hle (Object_keys g) st0
               (Normal st) E) by discriminate.
    exact Hc.
  - rewrite (@forRoots_deeper arrows g n m Hle (Object_keys g) st0
               TypeError E) by discriminate.
    exact Hc.
Qed.

(** A stack of [dfsBudget] calls or more gives the outcome of
    [detectAllCycles]. *)
Lemma detectAllCyclesWithin_enough depth arrows :
  dfsBudget arrows <= depth ->
  detectAllCyclesWithin depth arrows = detectAllCycles arrows.
Proof.
  intros Hle.
  apply (@detectAllCyclesWithin_deeper (dfsBudget arrows) depth arrows
           (detectAllCycles arrows) Hle eq_refl).
  apply detectAllCycles_never_overflows.
Qed.

(** On any stack the call exhausts it or gives the outcome of
    [detectAllCycles]. *)
Lemma detectAllCyclesWithin_cases depth arrows :
  detectAllCyclesWithin depth arrows = RangeError
  \/ detectAllCyclesWithin depth arrows = detectAllCycles arrows.
Proof.
  destruct (Nat.le_gt_cases (dfsBudget arrows) depth) as [Hle|Hgt].
  - right. now apply detectAllCyclesWithin_enough.
  - destruct (detectAllCyclesWithin depth arrows) as [cyc| |] eqn:E;
      [right|right|now left]; symmetry.
    + apply (@detectAllCyclesWithin_deeper depth (dfsBudget arrows) arrows
               (Normal cyc)); [lia|exact E|discriminate].
    + apply (@detectAllCyclesWithin_deeper depth (dfsBudget arrows) arrows
               TypeError); [lia|exact E|discriminate].
Qed.

(** The stack can be exhausted: the chain 1 -> 2 -> 3 nests three calls of
    [dfs], and so does the chain a -> b -> constructor, whose [TypeError] is
    thrown in the third. *)
Lemma detectAllCyclesWithin_overflows :
  detectAllCyclesWithin 2 (arrows sampleState) = RangeError
  /\ detectAllCyclesWithin 3 (arrows sampleState) = Normal []
  /\ detectAllCyclesWithin 2
       [mkArrow "e1" "a" "b"; mkArrow "e2" "b" "constructor"] = RangeError
  /\ detectAllCyclesWithin 3
       [mkArrow "e1" "a" "b"; mkArrow "e2" "b" "constructor"] = TypeError.
Proof. repeat split; vm_compute; reflexivity. Qed.

(** C2, as the code has it.  Take arrows in which no task id is an inherited
    name of the adjacency object and every arrow id is a non-empty string.
    On a call stack that holds [2 * n + 1] nested calls of [dfs] for [n]
    arrows, [detectAllCycles] returns a set, and that set is empty iff the
    directed graph of the arrows is acyclic.  On a shorter stack it either
    returns that same set or exhausts the stack with a [RangeError]; it
    never throws a [TypeError]. *)
Theorem detectAllCycles_empty_iff_acyclic (depth : nat)
    (arrows : list Edge.t) :
  plainIds arrows = true -> truthyIds arrows = true ->
  (dfsBudget arrows <= depth ->
   exists cyc, detectAllCyclesWithin depth arrows = Normal cyc
               /\ (cyc = [] <-> acyclic arrows))
  /\ (forall cyc, detectAllCyclesWithin depth arrows = Normal cyc ->
                  (cyc = [] <-> acyclic arrows))
  /\ (detectAllCyclesWithin depth arrows = RangeError ->
      depth < dfsBudget arrows)
  /\ detectAllCyclesWithin depth arrows <> TypeError.
Proof.
  intros Hp Ht.
  destruct (detectAllCycles_plain_outcome arrows Hp Ht) as (cyc & Hc & Hiff).
  split; [|split; [|split]].
  - intros Hle. exists cyc. split; [|exact Hiff].
    now rewrite detectAllCyclesWithin_enough.
  - intros cyc' E.
    destruct (detectAllCyclesWithin_cases depth arrows) as [Ho|Ho];
      [congruence|].
    rewrite Ho, Hc in E. injection E as <-. exact Hiff.
  - intros E. destruct (Nat.le_gt_cases (dfsBudget arrows) depth) as [Hle|Hgt];
      [|exact Hgt].
    rewrite (@detectAllCyclesWithin_enough depth arrows Hle), Hc in E.
    discriminate E.
  - destruct (detectAllCyclesWithin_cases depth arrows) as [Ho|Ho];
      rewrite Ho; [discriminate|]. rewrite Hc. discriminate.
Qed.

(** *** [detectAllCycles] reads only the ids and the end points *)

Lemma addArrow_ext g a b :
  endpoints a = endpoints b -> addArrow g a = addArrow g b.
Proof.
  unfold endpoints, addArrow. intros E. injection E as _ -> ->. reflexivity.
Qed.

Lemma buildGraph_ext l1 : forall l2 g,
  map endpoints l1 = map endpoints l2 -> buildGraph g l1 = buildGraph g l2.
Proof.
  induction l1 as [|a l1 IH]; intros [|b l2] g E; simpl in E;
    try discriminate; [reflexivity|].
  injection E as Ei Es Et E.
  assert (Eab : endpoints a = endpoints b)
    by (unfold endpoints; congruence).
  simpl. rewrite (@addArrow_ext g a b Eab).
  destruct (addArrow g b); simpl; auto.
Qed.

Lemma findArrowId_ext l1 : forall l2 s t,
  map endpoints l1 = map endpoints l2 ->
  findArrowId l1 s t = findArrowId l2 s t.
Proof.
  unfold findArrowId.
  induction l1 as [|a l1 IH]; intros [|b l2] s t E; simpl in E;
    try discriminate; [reflexivity|].
  injection E as Ei Es Et E.
  simpl. rewrite Es, Et.
  destruct (String.eqb (Edge.source b) s && String.eqb (Edge.target b) t);
    simpl; [now rewrite Ei | auto].
Qed.

Section Extensional.
Variables l1 l2 : list Edge.t.
Hypothesis Hends : map endpoints l1 = map endpoints l2.

Lemma forNeighbors_ext d1 d2 taskId :
  (forall n st, d1 n st = d2 n st) ->
  forall ns st,
    forNeighbors d1 l1 taskId ns st = forNeighbors d2 l2 taskId ns st.
Proof.
  intros Hd. induction ns as [|n ns IH]; intros st; simpl; [reflexivity|].
  rewrite Hd, (@findArrowId_ext l1 l2 taskId n Hends).
  destruct (negb _); [destruct (d2 n st); simpl; auto|].
  destruct (StringSet.has _ _); auto.
Qed.

Lemma dfs_ext g fuel : forall t st, dfs l1 g fuel t st = dfs l2 g fuel t st.
Proof.
  induction fuel as [|fuel IH]; intros t st; simpl; [reflexivity|].
  destruct (get g t); try reflexivity;
    now rewrite (@forNeighbors_ext _ _ t IH).
Qed.

Lemma forRoots_ext g fuel roots : forall st,
  forRoots l1 g fuel roots st = forRoots l2 g fuel roots st.
Proof.
  induction roots as [|r roots IH]; intros st; simpl; [reflexivity|].
  rewrite dfs_ext. destruct (negb _); [|auto].
  destruct (dfs l2 g fuel r st); simpl; auto.
Qed.

Lemma detectAllCycles_ext : detectAllCycles l1 = detectAllCycles l2.
Proof.
  unfold detectAllCycles, dfsBudget.
  rewrite (@buildGraph_ext l1 l2 [] Hends).
  assert (El : List.length l1 = List.length l2).
  { rewrite <- (length_map endpoints l1), Hends. apply length_map. }
  rewrite El. destruct (buildGraph [] l2); simpl; try reflexivity.
  now rewrite forRoots_ext.
Qed.
End Extensional.

(** C2 fails as stated on two kinds of input: a self-loop whose arrow id is
    the empty string is never flagged, and an acyclic graph with a task
    named [constructor] makes [detectAllCycles] throw. *)
Lemma detectAllCycles_empty_on_cycle :
  (detectAllCycles [mkArrow "" "a" "a"] = Normal []
   /\ ~ acyclic [mkArrow "" "a" "a"])
  /\ (acyclic [mkArrow "e1" "constructor" "a"]
      /\ detectAllCycles [mkArrow "e1" "constructor" "a"] <> Normal []).
Proof.
  split; split.
  - reflexivity.
  - intros H. apply (H "a"). apply t_step.
    exists (mkArrow "" "a" "a"). simpl. auto.
  - intros u Hu. apply onCycle_first in Hu as (w & He & Hr).
    destruct He as (a & [<-|[]] & <- & <-). simpl in Hr.
    apply clos_rt_rt1n in Hr. inversion Hr as [|y z He _].
    destruct He as (a & [<-|[]] & Hs & _). discriminate.
  - discriminate.
Qed.

(** C3 fails as stated: on the arrows [e1 : 1 -> 2], [e2 : 2 -> 3],
    [e3 : 3 -> 1] the result holds [e3] alone. *)
Lemma detectAllCycles_three_cycle_misses :
  detectAllCycles threeCycle = Normal ["e3"]
  /\ ~ (forall cyc, detectAllCycles threeCycle = Normal cyc ->
          In "e1" cyc /\ In "e2" cyc /\ In "e3" cyc).
Proof.
  split; [reflexivity|].
  intros H. destruct (H ["e3"] eq_refl) as [[E|[]] _]. discriminate.
Qed.

Lemma Permutation_three {A : Type} (a b c : A) l :
  Permutation [a; b; c] l ->
  l = [a; b; c] \/ l = [a; c; b] \/ l = [b; a; c]
  \/ l = [c; a; b] \/ l = [b; c; a] \/ l = [c; b; a].
Proof.
  intros H. pose proof H as H'. symmetry in H'.
  apply Permutation_vs_cons_inv in H' as (l1 & l2 & ->).
  apply Permutation_cons_app_inv, Permutation_length_2_inv in H.
  destruct l1 as [|x [|y [|z l1]]]; simpl in *; destruct H as [H|H];
    repeat match goal with
           | E : _ :: _ = _ :: _ |- _ => injection E as ? E
           | E : _ :: _ = [] |- _ => discriminate E
           end;
    subst; auto 10.
Qed.

(** C3, as the code has it.  For the three arrows 1 -> 2, 2 -> 3, 3 -> 1,
    given in any order, [detectAllCycles] returns the set that holds the id
    of the arrow 3 -> 1 and nothing else, provided that id is not empty:
    the traversal starts from task 1, and 3 -> 1 is the one arrow that
    leads back to a task on the recursion stack. *)
Theorem detectAllCycles_three_cycle (a12 a23 a31 : Edge.t)
    (arrows : list Edge.t) :
  Edge.source a12 = "1" -> Edge.target a12 = "2" ->
  Edge.source a23 = "2" -> Edge.target a23 = "3" ->
  Edge.source a31 = "3" -> Edge.target a31 = "1" ->
  truthy (Edge.id a31) = true ->
  Permutation [a12; a23; a31] arrows ->
  detectAllCycles arrows = Normal [Edge.id a31].
Proof.
  destruct a12 as [i1 s1 t1 ty1 sy1 m1], a23 as [i2 s2 t2 ty2 sy2 m2],
    a31 as [i3 s3 t3 ty3 sy3 m3]. simpl.
  intros -> -> -> -> -> -> Ht Hp.
  destruct i3 as [|c i3]; [discriminate|].
  apply Permutation_three in Hp.
  destruct Hp as [->|[->|[->|[->|[->| ->]]]]]; vm_compute; reflexivity.
Qed.

(** ** [updateStyles] *)

Lemma find_map {A B : Type} (f : A -> B) (p : B -> bool) l :
  find p (map f l) = option_map f (find (fun x => p (f x)) l).
Proof.
  induction l as [|a l IH]; simpl; [reflexivity|].
  destruct (p (f a)); [reflexivity | exact IH].
Qed.

Section Restyle.
Variable f : TaskNode.t -> TaskNode.t.
Variable h : Edge.t -> Edge.t.
Hypothesis Hf : forall t, taskContent (f t) = taskContent t.
Hypothesis Hh : forall a, endpoints (h a) = endpoints a.

Lemma restyled_id t : TaskNode.id (f t) = TaskNode.id t.
Proof. pose proof (Hf t) as E. unfold taskContent in E. congruence. Qed.

Lemma restyled_data t : TaskNode.data (f t) = TaskNode.data t.
Proof. pose proof (Hf t) as E. unfold taskContent in E. congruence. Qed.

Lemma restyled_source a : Edge.source (h a) = Edge.source a.
Proof. pose proof (Hh a) as E. unfold endpoints in E. congruence. Qed.

Lemma restyled_target a : Edge.target (h a) = Edge.target a.
Proof. pose proof (Hh a) as E. unfold endpoints in E. congruence. Qed.

Lemma sourceCompleted_restyle T a :
  sourceCompleted (map f T) (h a) = sourceCompleted T a.
Proof.
  unfold sourceCompleted, sourceTask. rewrite find_map, restyled_source.
  induction T as [|t T IH]; simpl; [reflexivity|].
  rewrite restyled_id.
  destruct (String.eqb (TaskNode.id t) (Edge.source a)); simpl;
    [now rewrite restyled_data | exact IH].
Qed.

Lemma parentArrows_restyle taskId A :
  parentArrows taskId (map h A) = map h (parentArrows taskId A).
Proof.
  unfold parentArrows. induction A as [|a A IH]; simpl; [reflexivity|].
  rewrite restyled_target.
  destruct (String.eqb (Edge.target a) taskId); simpl; congruence.
Qed.

Lemma areAllParentsCompleted_restyle taskId T A :
  areAllParentsCompleted taskId (map f T) (map h A)
  = areAllParentsCompleted taskId T A.
Proof.
  rewrite !areAllParentsCompleted_forallb, parentArrows_restyle.
  induction (parentArrows taskId A) as [|a l IH]; simpl; [reflexivity|].
  now rewrite sourceCompleted_restyle, IH.
Qed.

Lemma hasIncompleteParent_restyle taskId T A :
  hasIncompleteParent taskId (map f T) (map h A)
  = hasIncompleteParent taskId T A.
Proof.
  unfold hasIncompleteParent. rewrite find_map, parentArrows_restyle.
  assert (E : forall l,
             existsb (fun arrow => negb (sourceCompleted (map f T) arrow))
                     (map h l)
             = existsb (fun arrow => negb (sourceCompleted T arrow)) l).
  { induction l as [|a l IH]; simpl; [reflexivity|].
    now rewrite sourceCompleted_restyle, IH. }
  rewrite E. clear E.
  generalize (existsb (fun arrow => negb (sourceCompleted T arrow))
                      (parentArrows taskId A)) as b.
  intros b. induction T as [|t T' IH]; simpl; [reflexivity|].
  rewrite restyled_id.
  destruct (String.eqb (TaskNode.id t) taskId); simpl;
    [now rewrite restyled_data | exact IH].
Qed.
End Restyle.

Lemma endpoints_styleArrow cyc selA a :
  endpoints (styleArrow cyc selA a) = endpoints a.
Proof. reflexivity. Qed.

Lemma detectAllCycles_styled cyc selA arrows :
  detectAllCycles (map (styleArrow cyc selA) arrows) = detectAllCycles arrows.
Proof.
  apply detectAllCycles_ext. rewrite map_map. apply map_ext.
  intros a. reflexivity.
Qed.

(** C7. [updateStyles] applied to its own output, with the same selection,
    returns that output again (so in particular the same derived style
    fields), and throws when the first call throws; and equal inputs give
    equal outputs. *)
Theorem updateStyles_idempotent (tasks : list TaskNode.t)
    (arrows : list Edge.t) (selectedTaskId selectedArrowId : option string) :
  (out <- updateStyles tasks arrows selectedTaskId selectedArrowId ;;
   updateStyles (Snapshot.tasks out) (Snapshot.arrows out)
                selectedTaskId selectedArrowId)
  = updateStyles tasks arrows selectedTaskId selectedArrowId
  /\ (forall tasks' arrows' selectedTaskId' selectedArrowId',
        tasks' = tasks -> arrows' = arrows ->
        selectedTaskId' = selectedTaskId ->
        selectedArrowId' = selectedArrowId ->
        updateStyles tasks' arrows' selectedTaskId' selectedArrowId'
        = updateStyles tasks arrows selectedTaskId selectedArrowId).
Proof.
  split; [|intros ? ? ? ? -> -> -> ->; reflexivity].
  unfold updateStyles.
  destruct (detectAllCycles arrows) as [cyc| |] eqn:E; simpl;
    try reflexivity.
  rewrite detectAllCycles_styled, E. simpl. f_equal. f_equal.
  - rewrite map_map. apply map_ext. intros t. unfold styleTask at 1 3.
    simpl.
    rewrite (areAllParentsCompleted_restyle
               (styleTask tasks arrows selectedTaskId)
               (styleArrow cyc selectedArrowId)
               (taskContent_styleTask tasks arrows selectedTaskId)
               (endpoints_styleArrow cyc selectedArrowId)).
    rewrite (hasIncompleteParent_restyle
               (styleTask tasks arrows selectedTaskId)
               (styleArrow cyc selectedArrowId)
               (taskContent_styleTask tasks arrows selectedTaskId)
               (endpoints_styleArrow cyc selectedArrowId)).
    reflexivity.
  - rewrite map_map. apply map_ext. intros a. reflexivity.
Qed.

(** ** The statements above on sample inputs *)

(** C4 fails as stated: after task 1 of the sample project is renamed and
    the editor switches to the other project, the history still holds the
    entry recorded before the switch, one more entry for the project that
    was left, and the cursor is on that entry, not back at its initial
    value. *)
Lemma handleProjectSwitch_keeps_history :
  updateTask sampleEnv "1" "renamed" false twoProjects = Normal renamed
  /\ handleProjectSwitch sampleEnv otherProject renamed = Normal afterSwitch
  /\ currentProjectIndex renamed = 0%Z
  /\ currentProjectIndex afterSwitch = 1%Z
  /\ firstn 1 (history afterSwitch) = history renamed
  /\ List.length (history afterSwitch) = 2
  /\ historyIndex afterSwitch = 1%Z
  /\ ~ (history afterSwitch = [] /\ historyIndex afterSwitch = (-1)%Z).
Proof.
  repeat split; try (vm_compute; reflexivity).
  intros [H _]. vm_compute in H. discriminate.
Qed.

Lemma attemptSetCompletion_spec_witness :
  attemptSetCompletion (doneTask "1") false [] [] = false
  /\ attemptSetCompletion (mkTask "2" "two" 0 0) true
       [mkTask "1" "one" 0 0; mkTask "2" "two" 0 0] [mkArrow "e1" "1" "2"]
     = areAllParentsCompleted "2"
         [mkTask "1" "one" 0 0; mkTask "2" "two" 0 0] [mkArrow "e1" "1" "2"].
Proof.
  split.
  - exact (proj1 (attemptSetCompletion_spec (doneTask "1") [] [])
             eq_refl false).
  - exact (proj1 (proj2 (attemptSetCompletion_spec (mkTask "2" "two" 0 0)
                           [mkTask "1" "one" 0 0; mkTask "2" "two" 0 0]
                           [mkArrow "e1" "1" "2"]))
             eq_refl).
Defined.

Lemma areAllParentsCompleted_spec_witness :
  areAllParentsCompleted "2" [doneTask "1"; mkTask "2" "two" 0 0]
    [mkArrow "e1" "1" "2"] = true
  /\ areAllParentsCompleted "2" [mkTask "2" "two" 0 0]
       [mkArrow "e1" "1" "2"] = false.
Proof.
  split.
  - apply (proj2 (proj1 (areAllParentsCompleted_spec "2"
                           [doneTask "1"; mkTask "2" "two" 0 0]
                           [mkArrow "e1" "1" "2"]))).
    right. intros a [<-|[]] _. exists (doneTask "1").
    repeat split. now left.
  - apply (proj2 (areAllParentsCompleted_spec "2" [mkTask "2" "two" 0 0]
                    [mkArrow "e1" "1" "2"]) (mkArrow "e1" "1" "2"));
      [now left | reflexivity |].
    intros n [<-|[]]. discriminate.
Defined.

Lemma detectAllCycles_empty_iff_acyclic_witness :
  (exists cyc, detectAllCyclesWithin 7 threeCycle = Normal cyc
               /\ (cyc = [] <-> acyclic threeCycle))
  /\ (exists cyc, detectAllCyclesWithin 5 (arrows sampleState) = Normal cyc
                  /\ (cyc = [] <-> acyclic (arrows sampleState))).
Proof.
  split.
  - apply (proj1 (@detectAllCycles_empty_iff_acyclic 7 threeCycle
                    eq_refl eq_refl)).
    vm_compute. repeat constructor.
  - apply (proj1 (@detectAllCycles_empty_iff_acyclic 5 (arrows sampleState)
                    eq_refl eq_refl)).
    vm_compute. repeat constructor.
Defined.

Lemma detectAllCycles_three_cycle_witness :
  detectAllCycles
    [ mkArrow "e3" "3" "1"; mkArrow "e1" "1" "2"; mkArrow "e2" "2" "3" ]
  = Normal ["e3"].
Proof.
  apply (@detectAllCycles_three_cycle
           (mkArrow "e1" "1" "2") (mkArrow "e2" "2" "3") (mkArrow "e3" "3" "1"));
    try reflexivity.
  apply Permutation_sym.
  exact (Permutation_cons_append
           [mkArrow "e1" "1" "2"; mkArrow "e2" "2" "3"] (mkArrow "e3" "3" "1")).
Defined.

Lemma handleProjectSwitch_records_witness :
  history afterSwitch
  = slice0 (history renamed) (historyIndex renamed + 1)
    ++ [ {| Snapshot.tasks := tasks renamed;
            Snapshot.arrows := arrows renamed |} ]
  /\ historyIndex afterSwitch
     = (Z.of_nat (List.length (history afterSwitch)) - 1)%Z
  /\ history afterSwitch <> [].
Proof.
  apply (@handleProjectSwitch_records sampleEnv otherProject renamed afterSwitch).
  vm_compute. reflexivity.
Defined.

Lemma history_record_undo_record_witness :
  exists s4,
    (s1 <- record sampleEnv snapA sampleState ;;
     s2 <- record sampleEnv snapB s1 ;;
     s3 <- undo s2 ;; record sampleEnv snapC s3) = Normal s4
    /\ history s4 = [snapA; snapC]
    /\ historyIndex s4 = 1%Z
    /\ element (history s4) (historyIndex s4) = Some snapC
    /\ redo s4 = Normal s4.
Proof.
  apply (@history_record_undo_record sampleEnv sampleState snapA snapB snapC);
    reflexivity.
Defined.

Lemma updateStyles_idempotent_witness :
  (out <- updateStyles (tasks sampleState) threeCycle (Some "1") None ;;
   updateStyles (Snapshot.tasks out) (Snapshot.arrows out) (Some "1") None)
  = updateStyles (tasks sampleState) threeCycle (Some "1") None
  /\ updateStyles (tasks sampleState) threeCycle (Some "1") None
     = updateStyles (tasks sampleState) threeCycle (Some "1") None.
Proof.
  split.
  - exact (proj1 (updateStyles_idempotent (tasks sampleState) threeCycle
                    (Some "1") None)).
  - exact (proj2 (updateStyles_idempotent (tasks sampleState) threeCycle
                    (Some "1") None)
             (tasks sampleState) threeCycle (Some "1") None
             eq_refl eq_refl eq_refl eq_refl).
Defined.

Lemma onConnect_duplicate_witness :
  onConnect sampleEnv {| source := Some "1"; target := Some "2" |} sampleState
  = Normal sampleState.
Proof.
  apply (@onConnect_duplicate sampleEnv sampleState
           {| source := Some "1"; target := Some "2" |} (mkArrow "e1" "1" "2"));
    [left; reflexivity | reflexivity | reflexivity].
Defined.

Lemma deleteSelected_task_witness :
  map taskContent (tasks afterDelete)
  = map taskContent
      (filter (fun t => negb (String.eqb (TaskNode.id t) "2"))
              (tasks taskSelected))
  /\ map arrowContent (arrows afterDelete)
     = map arrowContent
         (filter (fun a => negb (String.eqb (Edge.source a) "2")
                           && negb (String.eqb (Edge.target a) "2"))
                 (arrows taskSelected))
  /\ ~ In "2" (map TaskNode.id (tasks afterDelete))
  /\ (forall a, In a (arrows afterDelete) ->
        Edge.source a <> "2" /\ Edge.target a <> "2")
  /\ (noDangling (tasks taskSelected) (arrows taskSelected) ->
      noDangling (tasks afterDelete) (arrows afterDelete)).
Proof.
  apply (@deleteSelected_task sampleEnv taskSelected afterDelete "2");
    [reflexivity | reflexivity | vm_compute; reflexivity].
Defined.

(* ------------------------------------------------------------------ *)
(** * Further properties *)

(** ** What [detectAllCycles] flags, and when it throws *)

Lemma findArrowId_Some arrows u v i :
  findArrowId arrows u v = Some i ->
  exists a, In a arrows /\ Edge.source a = u /\ Edge.target a = v
            /\ Edge.id a = i.
Proof.
  unfold findArrowId. destruct (find _ arrows) as [a|] eqn:E; [|discriminate].
  intros H. injection H as <-. apply find_some in E as [Hin He].
  apply andb_true_iff in He as [Hs Ht].
  apply String.eqb_eq in Hs, Ht. eauto.
Qed.

Lemma buildGraph_keys_plain arrows : forall g g',
  (forall k, In k (map fst g) -> inherited k = false) ->
  buildGraph g arrows = Normal g' ->
  (forall k, In k (map fst g') -> inherited k = false)
  /\ (forall a, In a arrows -> inherited (Edge.source a) = false).
Proof.
  induction arrows as [|a arrows IH]; intros g g' Hg H; simpl in H.
  - injection H as <-. split; [exact Hg | intros a []].
  - destruct (addArrow g a) as [g1| |] eqn:Ha; simpl in H; try discriminate.
    pose proof (addArrow_spec g a) as Hs. rewrite Ha in Hs.
    destruct Hs as [_ Hk].
    assert (Hsrc : inherited (Edge.source a) = false).
    { unfold addArrow, get in Ha.
      destruct (own g (Edge.source a)) as [l|] eqn:Ho.
      - apply Hg. destruct (in_dec string_dec (Edge.source a) (map fst g))
          as [Hin|Hn]; [exact Hin|].
        apply own_None_iff in Hn. congruence.
      - destruct (inherited (Edge.source a)); [discriminate | reflexivity]. }
    assert (Hg1 : forall k, In k (map fst g1) -> inherited k = false).
    { intros k Hin. apply Hk in Hin as [Hin| ->]; auto. }
    destruct (IH g1 g' Hg1 H) as [Hk' Hs']. split; [exact Hk'|].
    intros b [<-|Hb]; auto.
Qed.

Section TraversalFacts.
Variable arrows : list Edge.t.
Variable g : Graph.
Hypothesis Hg : forall u, neighborsOf g u = succs arrows u.
Hypothesis Hkeys : forall k, In k (map fst g) -> inherited k = false.

Lemma forNeighbors_keeps (fuel : nat) :
  (forall t st st', dfsPre arrows fuel t st ->
     dfs arrows g fuel t st = Normal st' -> dfsKeeps arrows t st st') ->
  forall taskId ns st st',
    (forall n, In n ns -> edge arrows taskId n) ->
    In taskId (recStack st) ->
    (forall x, In x (recStack st) -> In x (visited st)) ->
    unvisitedCount (nodes arrows) (visited st) < fuel ->
    forNeighbors (dfs arrows g fuel) arrows taskId ns st = Normal st' ->
    dfsKeeps arrows taskId st st'
    /\ (forall n, In n ns -> In n (visited st'))
    /\ (In taskId ns ->
        forall i, findArrowId arrows taskId taskId = Some i ->
                  truthy i = true -> In i (cycleArrows st')).
Proof.
  intros Hrec taskId ns.
  induction ns as [|n ns IH]; intros st st' Hed Hon Hsub Hcnt Hrun;
    simpl in Hrun.
  - injection Hrun as <-. split; [|split; [intros n [] | intros []]].
    unfold dfsKeeps. auto.
  - assert (He : edge arrows taskId n) by (apply Hed; now left).
    assert (Hed' : forall m, In m ns -> edge arrows taskId m)
      by (intros m Hm; apply Hed; now right).
    destruct (StringSet.has (visited st) n) eqn:Hv; simpl in Hrun.
    + apply has_In in Hv.
      destruct (StringSet.has (recStack st) n) eqn:Hr.
      * (* a back edge *)
        apply has_In in Hr.
        destruct (flagArrow_frame (findArrowId arrows taskId n) st)
          as (EV & ER & HC).
        set (st1 := flagArrow (findArrowId arrows taskId n) st) in *.
        assert (Hpre : (forall m, In m ns -> edge arrows taskId m)
                       /\ In taskId (recStack st1)
                       /\ (forall x, In x (recStack st1) -> In x (visited st1))
                       /\ unvisitedCount (nodes arrows) (visited st1) < fuel).
        { rewrite ER, EV. auto. }
        destruct Hpre as (P1 & P2 & P3 & P4).
        pose proof (@forNeighbors_spec arrows g fuel
                      (@dfs_spec arrows g Hg fuel) taskId ns st1 P1 P2 P3 P4)
          as Hold.
        rewrite Hrun in Hold. simpl in Hold.
        destruct Hold as [((HR' & HV' & HC') & _ & _) _].
        destruct (IH st1 st' P1 P2 P3 P4 Hrun)
          as ((Kf & Kp & Ks & Kl) & Hvis & Hself).
        assert (Hfin : forall u, finished st1 u <-> finished st u).
        { intros u. unfold finished. rewrite EV, ER. tauto. }
        assert (Hflag : forall i, findArrowId arrows taskId n = Some i ->
                                  truthy i = true -> In i (cycleArrows st1)).
        { intros i Ei Hi. unfold st1. rewrite Ei. now apply flagArrow_flags. }
        split; [split; [|split; [|split]]|split].
        -- intros Hreach Hfo. apply Kf; [now rewrite ER|].
           intros i Hi. unfold st1, flagArrow in Hi.
           destruct (findArrowId arrows taskId n) as [j|] eqn:Ej;
             [|auto].
           destruct (truthy j); [|auto]. simpl in Hi.
           apply add_In in Hi as [->|Hi]; [|auto].
           apply findArrowId_Some in Ej as (a & Ha & Hs & Ht & Hid).
           exists a. rewrite Hs, Ht. auto.
        -- intros Hp. apply Kp. intros u Hu. rewrite EV in Hu. auto.
        -- intros Hs. apply Ks. intros u v Hu Huv. rewrite EV.
           apply (Hs u v); [now apply Hfin | exact Huv].
        -- intros Hl. apply Kl. intros u i Hu Ei Hi. apply HC.
           apply (Hl u i); [now apply Hfin | exact Ei | exact Hi].
        -- intros m [<-|Hm]; [apply HV'; now rewrite EV | auto].
        -- intros [->|Hin] i Ei Hi; [|now apply Hself].
           apply HC'. now apply Hflag.
      * (* the neighbour is finished already *)
        apply has_false in Hr.
        pose proof (@forNeighbors_spec arrows g fuel
                      (@dfs_spec arrows g Hg fuel) taskId ns st Hed' Hon Hsub Hcnt)
          as Hold.
        rewrite Hrun in Hold. simpl in Hold.
        destruct Hold as [((HR' & HV' & HC') & _ & _) _].
        destruct (IH st st' Hed' Hon Hsub Hcnt Hrun) as (K & Hvis & Hself).
        split; [exact K|]. split.
        -- intros m [<-|Hm]; [auto | auto].
        -- intros [->|Hin] i Ei Hi; [contradiction | now apply Hself].
    + (* the recursive call *)
      apply has_false in Hv.
      assert (Hpre : dfsPre arrows fuel n st).
      { split; [apply (edge_nodes He)|]. split; [exact Hv|]. split; auto. }
      destruct (dfs arrows g fuel n st) as [st1| |] eqn:Hcall;
        simpl in Hrun; try discriminate.
      pose proof (@dfs_spec arrows g Hg fuel n st Hpre) as Hold1.
      rewrite Hcall in Hold1. simpl in Hold1.
      destruct Hold1 as [((HR1 & HV1 & HC1) & _ & _) Hin1].
      destruct (Hrec n st st1 Hpre Hcall) as (Kf1 & Kp1 & Ks1 & Kl1).
      assert (P2 : In taskId (recStack st1)) by now rewrite HR1.
      assert (P3 : forall x, In x (recStack st1) -> In x (visited st1))
        by (intros x Hx; rewrite HR1 in Hx; auto).
      assert (P4 : unvisitedCount (nodes arrows) (visited st1) < fuel).
      { eapply Nat.le_lt_trans; [apply unvisitedCount_le; exact HV1|].
        exact Hcnt. }
      pose proof (@forNeighbors_spec arrows g fuel
                    (@dfs_spec arrows g Hg fuel) taskId ns st1 Hed' P2 P3 P4)
        as Hold.
      rewrite Hrun in Hold. simpl in Hold.
      destruct Hold as [((HR' & HV' & HC') & _ & _) _].
      destruct (IH st1 st' Hed' P2 P3 P4 Hrun)
        as ((Kf & Kp & Ks & Kl) & Hvis & Hself).
      split; [split; [|split; [|split]]|split].
      -- intros Hreach Hfo. apply Kf; [now rewrite HR1|].
         apply Kf1; [|exact Hfo].
         intros r Hr. apply reaches_step with (t := taskId); auto.
      -- auto.
      -- auto.
      -- auto.
      -- intros m [<-|Hm]; [auto | auto].
      -- intros [->|Hin] i Ei Hi; [|now apply Hself].
         exfalso. apply Hv, Hsub, Hon.
Qed.

Lemma dfs_keeps (fuel : nat) : forall t st st',
  dfsPre arrows fuel t st ->
  dfs arrows g fuel t st = Normal st' -> dfsKeeps arrows t st st'.
Proof.
  induction fuel as [|fuel IHfuel]; intros t st st' Hpre Hrun;
    [discriminate|].
  pose proof Hpre as (Hn & Hv & Hsub & Hcnt).
  simpl in Hrun.
  set (st1 := {| visited := StringSet.add t (visited st);
                 recStack := StringSet.add t (recStack st);
                 cycleArrows := cycleArrows st |}) in *.
  assert (HnR : ~ In t (recStack st)) by (intros Hx; auto).
  assert (Hplain : inherited t = false
                   /\ exists st2,
                        forNeighbors (dfs arrows g fuel) arrows t
                          (succs arrows t) st1 = Normal st2
                        /\ st' = {| visited := visited st2;
                                    recStack := StringSet.delete t (recStack st2);
                                    cycleArrows := cycleArrows st2 |}).
  { unfold get in Hrun. pose proof (Hg t) as Hgt. unfold neighborsOf in Hgt.
    destruct (own g t) as [l|] eqn:Ho.
    - rewrite <- Hgt. cbv beta iota in Hrun. split.
      + apply Hkeys.
        destruct (in_dec string_dec t (map fst g)) as [Hin|Hni]; [exact Hin|].
        apply own_None_iff in Hni. congruence.
      + destruct (forNeighbors _ _ _ l st1) as [st2| |]; simpl in Hrun;
          try discriminate.
        injection Hrun as <-. eauto.
    - destruct (inherited t); [discriminate|]. rewrite <- Hgt.
      split; [reflexivity|]. exists st1. split; [reflexivity|].
      simpl in Hrun. injection Hrun as <-. reflexivity. }
  destruct Hplain as (Hpl & st2 & Hloop & ->). clear Hrun.
  assert (L1 : forall n, In n (succs arrows t) -> edge arrows t n)
    by (intros n Hn'; now apply succs_edge).
  assert (L2 : In t (recStack st1)) by (simpl; apply add_In; now left).
  assert (L3 : forall x, In x (recStack st1) -> In x (visited st1)).
  { simpl. intros x Hx. apply add_In in Hx. apply add_In. destruct Hx; auto. }
  assert (L4 : unvisitedCount (nodes arrows) (visited st1) < fuel).
  { simpl.
    assert (unvisitedCount (nodes arrows) (StringSet.add t (visited st))
            < unvisitedCount (nodes arrows) (visited st)).
    { apply unvisitedCount_lt with (t := t); auto;
        solve [ intros x Hx; apply add_In; now right
              | apply add_In; now left ]. }
    lia. }
  pose proof (@forNeighbors_spec arrows g fuel (@dfs_spec arrows g Hg fuel)
                t (succs arrows t) st1 L1 L2 L3 L4) as Hold.
  rewrite Hloop in Hold. simpl in Hold.
  destruct Hold as [((HR2 & HV2 & HC2) & _ & _) _].
  simpl in HR2, HV2, HC2.
  destruct (@forNeighbors_keeps fuel IHfuel t (succs arrows t) st1 st2
              L1 L2 L3 L4 Hloop) as ((Kf & Kp & Ks & Kl) & Hvis & Hself).
  assert (ER : StringSet.delete t (recStack st2) = recStack st)
    by (rewrite HR2; now apply delete_add).
  assert (Hto1 : forall u, finished st u -> finished st1 u).
  { intros u [Hu1 Hu2]. split; simpl.
    - apply add_In. now right.
    - intros Hx. apply add_In in Hx as [->|Hx]; auto. }
  assert (Hof1 : forall u, finished st1 u -> finished st u).
  { intros u [Hu1 Hu2]. simpl in Hu1, Hu2.
    assert (Hne : u <> t) by (intros ->; apply Hu2, add_In; now left).
    apply add_In in Hu1 as [?|Hu1]; [contradiction|].
    split; [exact Hu1|]. intros Hx. apply Hu2, add_In. now right. }
  set (st' := {| visited := visited st2;
                 recStack := StringSet.delete t (recStack st2);
                 cycleArrows := cycleArrows st2 |}).
  assert (Hto : forall u, finished st' u -> finished st2 u \/ u = t).
  { intros u [Hu1 Hu2]. simpl in Hu1, Hu2. rewrite ER in Hu2.
    destruct (string_dec u t) as [->|Hne]; [now right|]. left.
    split; [exact Hu1|]. rewrite HR2. intros Hx.
    apply add_In in Hx as [?|Hx]; auto. }
  split; [|split; [|split]].
  - intros Hreach Hfo. unfold flaggedOnly. simpl. apply Kf; [|exact Hfo].
    simpl. intros r Hr. apply add_In in Hr as [->|Hr]; [apply rt_refl | auto].
  - intros Hp. unfold visitedPlain. simpl. apply Kp.
    intros u Hu. simpl in Hu. apply add_In in Hu as [->|Hu]; auto.
  - intros Hs u v Hu Huv. simpl.
    assert (Hs2 : succsVisited arrows st2).
    { apply Ks. intros x y Hx Hxy. simpl. apply add_In. right.
      apply (Hs x y); auto. }
    destruct (Hto u Hu) as [H2| ->].
    + now apply (Hs2 u v).
    + apply Hvis. now apply succs_edge.
  - intros Hl u i Hu Ei Hi. simpl.
    assert (Hl2 : loopsFlagged arrows st2).
    { apply Kl. intros x j Hx Ej Hj. simpl. apply (Hl x j); auto. }
    destruct (Hto u Hu) as [H2| ->].
    + now apply (Hl2 u i).
    + apply (Hself); [|exact Ei|exact Hi].
      apply findArrowId_Some in Ei as (a & Ha & Hs & Ht & _).
      apply succs_edge. exists a. auto.
Qed.

Lemma forRoots_keeps : forall roots st st',
  (forall r, In r roots -> In r (nodes arrows)) ->
  recStack st = [] ->
  forRoots arrows g (dfsBudget arrows) roots st = Normal st' ->
  (flaggedOnly arrows st -> flaggedOnly arrows st')
  /\ (visitedPlain st -> visitedPlain st')
  /\ (succsVisited arrows st -> succsVisited arrows st')
  /\ (loopsFlagged arrows st -> loopsFlagged arrows st').
Proof.
  remember (dfsBudget arrows) as budget eqn:Hbudget.
  induction roots as [|r roots IH]; intros st st' Hn HR Hrun; simpl in Hrun.
  - injection Hrun as <-. auto.
  - assert (Hn' : forall x, In x roots -> In x (nodes arrows))
      by (intros x Hx; apply Hn; now right).
    destruct (StringSet.has (visited st) r) eqn:Hv; simpl in Hrun.
    + now apply IH.
    + apply has_false in Hv.
      assert (Hpre : dfsPre arrows budget r st).
      { split; [apply Hn; now left|]. split; [exact Hv|].
        split; [rewrite HR; intros x []|].
        pose proof (unvisitedCount_bound (nodes arrows) (visited st)) as Hb.
        unfold nodes in Hb. rewrite length_app, !length_map in Hb.
        rewrite Hbudget. unfold dfsBudget, nodes. lia. }
      destruct (dfs arrows g budget r st) as [st1| |] eqn:Hcall;
        simpl in Hrun; try discriminate.
      pose proof (@dfs_spec arrows g Hg budget r st Hpre) as Hold1.
      rewrite Hcall in Hold1. simpl in Hold1.
      destruct Hold1 as [((HR1 & _ & _) & _ & _) _].
      destruct (@dfs_keeps budget r st st1 Hpre Hcall) as (Kf1 & Kp1 & Ks1 & Kl1).
      assert (HR1' : recStack st1 = []) by now rewrite HR1.
      destruct (IH st1 st' Hn' HR1' Hrun) as (Kf & Kp & Ks & Kl).
      repeat split; auto.
      intros Hfo. apply Kf, Kf1; [|exact Hfo]. rewrite HR. intros x [].
Qed.
End TraversalFacts.

Lemma detectAllCycles_Normal_facts (arrows : list Edge.t) cyc :
  detectAllCycles arrows = Normal cyc ->
  (forall i, In i cyc -> cycleArrowId arrows i)
  /\ (forall u i, findArrowId arrows u u = Some i -> truthy i = true ->
                  In i cyc)
  /\ plainIds arrows = true.
Proof.
  unfold detectAllCycles. intros H.
  destruct (buildGraph [] arrows) as [g| |] eqn:Hb; simpl in H;
    try discriminate.
  pose proof (buildGraph_spec arrows []) as Hbs. rewrite Hb in Hbs.
  destruct Hbs as [Hg Hk].
  assert (Hg' : forall u, neighborsOf g u = succs arrows u)
    by (intros u; apply Hg).
  destruct (@buildGraph_keys_plain arrows [] g) as [Hkeys Hsrc];
    [intros k [] | exact Hb |].
  set (st0 := {| visited := StringSet.empty; recStack := StringSet.empty;
                 cycleArrows := StringSet.empty |}) in *.
  assert (Hroots : forall r, In r (Object_keys g) -> In r (nodes arrows)).
  { intros r Hr. apply Object_keys_In, Hk in Hr as [[]|Hr].
    unfold nodes. apply in_app_iff. now left. }
  destruct (forRoots arrows g (dfsBudget arrows) (Object_keys g) st0)
    as [st'| |] eqn:Hrun; simpl in H; try discriminate.
  injection H as <-.
  pose proof (@forRoots_spec arrows g Hg' (Object_keys g) st0 Hroots eq_refl)
    as Hold.
  rewrite Hrun in Hold. simpl in Hold.
  destruct Hold as ((HR & _ & _) & _ & _ & Hvis).
  destruct (@forRoots_keeps arrows g Hg' Hkeys (Object_keys g) st0 st'
              Hroots eq_refl Hrun) as (Kf & Kp & Ks & Kl).
  assert (Hfin : forall a, In a arrows -> finished st' (Edge.source a)).
  { intros a Ha. split; [|rewrite HR; intros []].
    apply Hvis, Object_keys_In, Hk. right. now apply in_map. }
  split; [|split].
  - apply Kf. intros i [].
  - intros u i Ei Hi.
    assert (Hl : loopsFlagged arrows st') by (apply Kl; intros x j [[] _]).
    apply (Hl u i); [|exact Ei|exact Hi].
    pose proof Ei as Ei'.
    apply findArrowId_Some in Ei' as (a & Ha & <- & _).
    now apply Hfin.
  - unfold plainIds. apply forallb_forall. intros a Ha.
    rewrite (Hsrc a Ha). simpl.
    assert (Hp : visitedPlain st') by (apply Kp; intros x []).
    assert (Hs : succsVisited arrows st') by (apply Ks; intros x y [[] _]).
    rewrite (Hp (Edge.target a)); [reflexivity|].
    apply (Hs (Edge.source a)); [now apply Hfin|].
    exists a. auto.
Qed.

(** X1. Every id that [detectAllCycles] returns is the id of an arrow of the
    input that lies on a cycle: the arrow's target leads back to its
    source. *)
Theorem detectAllCycles_flags_cycle_arrows (arrows : list Edge.t)
    (cyc : StringSet.t) :
  detectAllCycles arrows = Normal cyc ->
  forall i, In i cyc ->
    exists a, In a arrows /\ Edge.id a = i
              /\ reaches arrows (Edge.target a) (Edge.source a).
Proof.
  intros H. exact (proj1 (detectAllCycles_Normal_facts arrows H)).
Qed.

(** X2. For a task that has an arrow to itself, the id of the first such
    arrow is in the result of [detectAllCycles], unless that id is the
    empty string. *)
Theorem detectAllCycles_flags_self_loops (arrows : list Edge.t)
    (cyc : StringSet.t) (a : Edge.t) :
  detectAllCycles arrows = Normal cyc ->
  In a arrows -> Edge.source a = Edge.target a ->
  exists b, find (fun e => String.eqb (Edge.source e) (Edge.source a)
                           && String.eqb (Edge.target e) (Edge.source a))
                 arrows = Some b
            /\ Edge.source b = Edge.source a /\ Edge.target b = Edge.source a
            /\ (truthy (Edge.id b) = true -> In (Edge.id b) cyc).
Proof.
  intros H Ha Hloop.
  destruct (detectAllCycles_Normal_facts arrows H) as (_ & Hself & _).
  destruct (find (fun e => String.eqb (Edge.source e) (Edge.source a)
                           && String.eqb (Edge.target e) (Edge.source a))
                 arrows) as [b|] eqn:E.
  - exists b. split; [reflexivity|].
    pose proof E as E'. apply find_some in E' as [_ Hb].
    apply andb_true_iff in Hb as [Hs Ht]. apply String.eqb_eq in Hs, Ht.
    repeat split; auto.
    intros Hi. apply (Hself (Edge.source a)); [|exact Hi].
    unfold findArrowId. now rewrite E.
  - apply (find_none _ _ E) in Ha.
    rewrite <- Hloop, !String.eqb_refl in Ha. discriminate.
Qed.

(** On a stack that suffices, a [TypeError] is thrown exactly when the
    source or the target of some arrow names an inherited member. *)
Lemma detectAllCycles_TypeError_iff (arrows : list Edge.t) :
  detectAllCycles arrows = TypeError <->
  exists a, In a arrows
            /\ (inherited (Edge.source a) = true
                \/ inherited (Edge.target a) = true).
Proof.
  assert (Hp : plainIds arrows = false <->
               exists a, In a arrows
                         /\ (inherited (Edge.source a) = true
                             \/ inherited (Edge.target a) = true)).
  { split.
    - intros H. unfold plainIds in H.
      destruct (existsb (fun a => inherited (Edge.source a)
                                  || inherited (Edge.target a)) arrows) eqn:E.
      + apply existsb_exists in E as (a & Ha & Hor).
        apply orb_true_iff in Hor. eauto.
      + exfalso. rewrite <- not_true_iff_false in H. apply H.
        apply forallb_forall. intros a Ha.
        rewrite <- negb_orb. apply negb_true_iff.
        destruct (inherited (Edge.source a) || inherited (Edge.target a))
          eqn:Eo; [|reflexivity].
        rewrite <- E. symmetry. apply existsb_exists. eauto.
    - intros (a & Ha & Hor). apply not_true_is_false. intros H.
      destruct (plainIds_spec arrows a H Ha) as [H1 H2].
      destruct Hor; congruence. }
  rewrite <- Hp. split.
  - intros E. pose proof (detectAllCycles_outcome arrows) as H.
    now rewrite E in H.
  - intros Hnp.
    destruct (detectAllCycles arrows) as [cyc| |] eqn:E; [|reflexivity|].
    + destruct (detectAllCycles_Normal_facts arrows E) as (_ & _ & Hpl).
      congruence.
    + exfalso. now apply (detectAllCycles_never_overflows arrows).
Qed.

(** X3. How [detectAllCycles] throws, on a call stack that holds [depth]
    nested calls of [dfs].  A [TypeError] is thrown only if the source or the
    target of some arrow names a member that the adjacency object inherits
    from [Object.prototype].  Such a source always gives the [TypeError],
    thrown while the graph is built; such a target gives the [TypeError]
    unless the stack is exhausted before the traversal reaches it.  When
    the stack holds [2 * n + 1] nested calls for [n] arrows it is never
    exhausted, and the [TypeError] is thrown exactly for such names. *)
Theorem detectAllCycles_throws_iff (depth : nat) (arrows : list Edge.t) :
  (detectAllCyclesWithin depth arrows = TypeError ->
   exists a, In a arrows
             /\ (inherited (Edge.source a) = true
                 \/ inherited (Edge.target a) = true))
  /\ ((exists a, In a arrows /\ inherited (Edge.source a) = true) ->
      detectAllCyclesWithin depth arrows = TypeError)
  /\ ((exists a, In a arrows /\ inherited (Edge.target a) = true) ->
      detectAllCyclesWithin depth arrows = TypeError
      \/ detectAllCyclesWithin depth arrows = RangeError)
  /\ (dfsBudget arrows <= depth ->
      detectAllCyclesWithin depth arrows <> RangeError
      /\ (detectAllCyclesWithin depth arrows = TypeError <->
          exists a, In a arrows
                    /\ (inherited (Edge.source a) = true
                        \/ inherited (Edge.target a) = true))).
Proof.
  split; [|split; [|split]].
  - intros E.
    destruct (detectAllCyclesWithin_cases depth arrows) as [Ho|Ho];
      [congruence|].
    apply detectAllCycles_TypeError_iff. congruence.
  - intros (a & Ha & Hi). unfold detectAllCyclesWithin.
    pose proof (buildGraph_spec arrows []) as Hb.
    destruct (buildGraph [] arrows) as [g| |] eqn:Eg;
      [|reflexivity|contradiction].
    destruct (@buildGraph_keys_plain arrows [] g) as [_ Hs];
      [intros k []|exact Eg|].
    rewrite (Hs a Ha) in Hi. discriminate Hi.
  - intros (a & Ha & Hi).
    destruct (detectAllCyclesWithin_cases depth arrows) as [Ho|Ho];
      [now right|left].
    rewrite Ho. apply detectAllCycles_TypeError_iff. eauto.
  - intros Hle. rewrite (@detectAllCyclesWithin_enough depth arrows Hle).
    split; [apply detectAllCycles_never_overflows|].
    apply detectAllCycles_TypeError_iff.
Qed.

(** ** The parent predicates and the derived styles *)

Lemma existsb_negb_forallb {A : Type} (f : A -> bool) l :
  existsb (fun x => negb (f x)) l = negb (forallb f l).
Proof.
  induction l as [|a l IH]; simpl; [reflexivity|].
  rewrite IH. now destruct (f a).
Qed.

Lemma hasIncompleteParent_alt taskId tasks arrows :
  hasIncompleteParent taskId tasks arrows
  = match find (fun t => String.eqb (TaskNode.id t) taskId) tasks with
    | Some task => completed (TaskNode.data task)
                   && negb (areAllParentsCompleted taskId tasks arrows)
    | None => false
    end.
Proof.
  unfold hasIncompleteParent.
  destruct (find _ tasks) as [task|]; [|reflexivity].
  rewrite areAllParentsCompleted_forallb, existsb_negb_forallb.
  now destruct (completed (TaskNode.data task)).
Qed.

(** X4. [hasIncompleteParent(t)] holds exactly when the task found for the
    id is completed while [areAllParentsCompleted(t)] fails: it marks a
    completion that the graph no longer supports, and never a task that is
    not completed or that is missing. *)
Theorem hasIncompleteParent_spec (taskId : string)
    (tasks : list TaskNode.t) (arrows : list Edge.t) :
  hasIncompleteParent taskId tasks arrows = true <->
  (exists task,
      find (fun t => String.eqb (TaskNode.id t) taskId) tasks = Some task
      /\ In task tasks /\ TaskNode.id task = taskId
      /\ completed (TaskNode.data task) = true)
  /\ areAllParentsCompleted taskId tasks arrows = false.
Proof.
  rewrite hasIncompleteParent_alt.
  destruct (find (fun t => String.eqb (TaskNode.id t) taskId) tasks)
    as [task|] eqn:E.
  - pose proof E as E'. apply find_some in E' as [Hin Hid].
    apply String.eqb_eq in Hid.
    rewrite andb_true_iff, negb_true_iff. split.
    + intros [Hc Hn]. split; [exists task; auto | exact Hn].
    + intros [(t' & Ht' & _ & _ & Hc) Hn]. injection Ht' as <-. auto.
  - split; [discriminate | intros [(t' & Ht' & _) _]; discriminate].
Qed.

Lemma styleArrow_stroke cyc selA a :
  strokeOf (styleArrow cyc selA a)
  = if StringSet.has cyc (Edge.id a) then "red" else "#000".
Proof. reflexivity. Qed.

(** X5. [updateStyles] changes derived style fields only: the ids, data and
    positions of the tasks and the ids, end points and types of the arrows
    come back unchanged and in order.  An arrow is stroked red only if an
    arrow with its id lies on a cycle. *)
Theorem updateStyles_red_on_cycle (tasks : list TaskNode.t)
    (arrows : list Edge.t) (selectedTaskId selectedArrowId : option string)
    (out : Snapshot.t) :
  updateStyles tasks arrows selectedTaskId selectedArrowId = Normal out ->
  map taskContent (Snapshot.tasks out) = map taskContent tasks
  /\ map arrowContent (Snapshot.arrows out) = map arrowContent arrows
  /\ (forall a, In a (Snapshot.arrows out) -> strokeOf a = "red" ->
        exists b, In b arrows /\ Edge.id b = Edge.id a
                  /\ reaches arrows (Edge.target b) (Edge.source b)).
Proof.
  intros H. apply updateStyles_Normal in H as (cyc & Hc & HT & HA).
  rewrite HT, HA, map_taskContent_styleTask, map_arrowContent_styleArrow.
  split; [reflexivity|]. split; [reflexivity|].
  intros a Hin Hred. apply in_map_iff in Hin as (a0 & <- & Hin).
  rewrite styleArrow_stroke in Hred.
  destruct (StringSet.has cyc (Edge.id a0)) eqn:Hh; [|discriminate].
  apply has_In in Hh.
  destruct (detectAllCycles_Normal_facts arrows Hc) as (Hf & _).
  destruct (Hf _ Hh) as (b & Hb & Hid & Hr). exists b. auto.
Qed.

Lemma areAllParentsCompleted_no_parents taskId tasks arrows :
  (forall a, In a arrows -> Edge.target a <> taskId) ->
  areAllParentsCompleted taskId tasks arrows = true.
Proof.
  intros H. rewrite areAllParentsCompleted_forallb. apply forallb_forall.
  intros a Hp. apply parentArrows_In in Hp as [Hin Ht].
  exfalso. exact (H a Hin Ht).
Qed.

(** X6. The border that [updateStyles] gives a task.  A task without an
    incoming arrow is never shown as blocked (red), and is shown as ready
    (green) when it is neither selected nor completed.  A green border
    means that the task is not completed and all its parents are; a red one
    means that the task found for its id is completed although
    [areAllParentsCompleted] fails. *)
Theorem styleTask_border (tasks : list TaskNode.t) (arrows : list Edge.t)
    (selectedTaskId : option string) (t : TaskNode.t) :
  let b := borderOf (styleTask tasks arrows selectedTaskId t) in
  ((forall a, In a arrows -> Edge.target a <> TaskNode.id t) ->
     b <> "2px solid red"
     /\ (strict_eq_opt (TaskNode.id t) selectedTaskId = false ->
         completed (TaskNode.data t) = false -> b = "2px solid green"))
  /\ (b = "2px solid green" ->
        completed (TaskNode.data t) = false
        /\ areAllParentsCompleted (TaskNode.id t) tasks arrows = true)
  /\ (b = "2px solid red" ->
        hasIncompleteParent (TaskNode.id t) tasks arrows = true
        /\ areAllParentsCompleted (TaskNode.id t) tasks arrows = false).
Proof.
  unfold borderOf, styleTask. simpl. rewrite hasIncompleteParent_alt.
  split; [|split].
  - intros Hnone.
    rewrite (@areAllParentsCompleted_no_parents (TaskNode.id t) tasks arrows Hnone).
    simpl negb.
    destruct (find _ tasks) as [task|]; rewrite ?andb_false_r;
      (split;
       [ destruct (strict_eq_opt _ _); [discriminate|];
         destruct (negb _ && true); discriminate
       | intros -> ->; reflexivity ]).
  - destruct (strict_eq_opt _ _); [discriminate|].
    destruct (find _ tasks) as [task|];
      destruct (areAllParentsCompleted _ _ _);
      destruct (completed (TaskNode.data t)); simpl;
      try destruct (completed (TaskNode.data task)); simpl;
      try discriminate; auto.
  - destruct (strict_eq_opt _ _); [discriminate|].
    destruct (find _ tasks) as [task|];
      destruct (areAllParentsCompleted _ _ _);
      destruct (completed (TaskNode.data t)); simpl;
      try destruct (completed (TaskNode.data task)); simpl;
      try discriminate; auto.
Qed.

(** ** The history under every action *)

Lemma perform_history_cases env a st st' :
  perform env a st = Normal st' ->
  (history st' = history st /\ historyIndex st' = historyIndex st)
  \/ (history st' = history st /\ (historyIndex st > 0)%Z
      /\ historyIndex st' = (historyIndex st - 1)%Z)
  \/ (history st' = history st
      /\ (historyIndex st < Z.of_nat (List.length (history st)) - 1)%Z
      /\ historyIndex st' = (historyIndex st + 1)%Z)
  \/ (history st' = slice0 (history st) (historyIndex st + 1) ++ [shown st]
      /\ historyIndex st' = (Z.of_nat (List.length (history st')) - 1)%Z).
Proof.
  intros H.
  assert (Hrec : forall pending,
            history pending = history st ->
            saveToLocalStorage env st pending = Normal st' ->
            history st' = slice0 (history st) (historyIndex st + 1) ++ [shown st]
            /\ historyIndex st' = (Z.of_nat (List.length (history st')) - 1)%Z).
  { intros pending Hp Hs.
    apply saveToLocalStorage_Normal in Hs as (_ & _ & _ & _ & _ & Hh & Hi).
    rewrite Hp in Hh. auto. }
  destruct a as [ev| position | newType | uuid now | localId]; simpl in H.
  - destruct ev as [params|edge|task| | |id label c| | |project]; simpl in H.
    + unfold onConnect in H.
      destruct (source params) as [src|]; [|same_state H; auto].
      destruct (target params) as [tgt|]; [|same_state H; auto].
      destruct (negb (truthy src) || negb (truthy tgt));
        [same_state H; auto|].
      destruct (existsb _ (arrows st)); [same_state H; auto|].
      apply bind_Normal in H as (styled & _ & H).
      right; right; right. (eapply Hrec; [|exact H]; reflexivity).
    + unfold onEdgeClick in H. apply bind_Normal in H as (styled & _ & H).
      same_state H. auto.
    + unfold onTaskClick in H. same_state H. auto.
    + unfold onPaneClick in H. apply bind_Normal in H as (styled & _ & H).
      same_state H. auto.
    + unfold deleteSelected in H.
      destruct (truthy_opt (selectedTaskId st)).
      * apply bind_Normal in H as (styled & _ & H).
        right; right; right. (eapply Hrec; [|exact H]; reflexivity).
      * destruct (truthy_opt (selectedArrowId st)); [|same_state H; auto].
        apply bind_Normal in H as (styled & _ & H).
        right; right; right. (eapply Hrec; [|exact H]; reflexivity).
    + unfold updateTask in H. apply bind_Normal in H as (styled & _ & H).
      right; right; right. (eapply Hrec; [|exact H]; reflexivity).
    + unfold undo in H. destruct (Z.gtb_spec (historyIndex st) 0);
        [|same_state H; auto].
      destruct (element _ _); [|discriminate]. same_state H.
      right; left. simpl. repeat split. lia.
    + unfold redo in H.
      destruct (Z.ltb_spec (historyIndex st)
                  (Z.of_nat (List.length (history st)) - 1));
        [|same_state H; auto].
      destruct (element _ _); [|discriminate]. same_state H.
      right; right; left. simpl. repeat split. lia.
    + unfold handleProjectSwitch in H.
      apply bind_Normal in H as (pending & Hs & H).
      unfold handleProjectSwitch_timeout in H.
      apply bind_Normal in H as (styled & _ & H). same_state H. simpl.
      right; right; right.
      apply saveToLocalStorage_Normal in Hs as (_ & _ & _ & _ & _ & Hh & Hi).
      auto.
  - unfold addTask in H. apply bind_Normal in H as (styled & _ & H).
    right; right; right. (eapply Hrec; [|exact H]; reflexivity).
  - unfold handleArrowTypeChange in H.
    apply bind_Normal in H as (styled & _ & H).
    right; right; right. (eapply Hrec; [|exact H]; reflexivity).
  - same_state H. auto.
  - unfold handleDeleteProject in H.
    destruct (_ >? 0)%Z.
    + destruct (element _ _); [|discriminate]. same_state H. auto.
    + same_state H. auto.
Qed.

Lemma slice0_length {A : Type} (l : list A) e :
  List.length (slice0 l e) <= List.length l.
Proof. unfold slice0. destruct (e <? 0)%Z; rewrite length_firstn; lia. Qed.

(** X7. The cursor of the history stays [-1] or an index of an entry under
    every action of the editor: connecting, clicking, deleting, editing,
    adding a task, changing the arrow type, undo, redo, and switching,
    creating or deleting a project. *)
Theorem historyOk_invariant (env : Env) (a : Action) (st st' : State) :
  historyOk st -> perform env a st = Normal st' -> historyOk st'.
Proof.
  unfold historyOk. intros Hok H.
  destruct (perform_history_cases env a st H)
    as [[-> ->]|[(-> & Hp & ->)|[(-> & Hp & ->)|[Hh ->]]]]; lia.
Qed.

Unset Implicit Arguments.

Lemma element_in_range {A : Type} (l : list A) i :
  (0 <= i < Z.of_nat (List.length l))%Z -> exists x, element l i = Some x.
Proof.
  intros H. unfold element.
  destruct (Z.ltb_spec i 0); [lia|].
  destruct (nth_error l (Z.to_nat i)) as [x|] eqn:En; [eauto|].
  apply nth_error_None in En. lia.
Qed.

Lemma element_last {A : Type} (l : list A) x :
  element (l ++ [x]) (Z.of_nat (List.length (l ++ [x])) - 1) = Some x.
Proof.
  unfold element. rewrite length_app. simpl.
  destruct (Z.ltb_spec (Z.of_nat (List.length l + 1) - 1) 0); [lia|].
  replace (Z.to_nat (Z.of_nat (List.length l + 1) - 1)) with (List.length l)
    by lia.
  rewrite nth_error_app2, Nat.sub_diag; [reflexivity | lia].
Qed.

Lemma slice0_prefix_length {A : Type} (l : list A) i :
  (-1 <= i < Z.of_nat (List.length l))%Z ->
  List.length (slice0 l (i + 1)) = Z.to_nat (i + 1).
Proof.
  intros H. unfold slice0. destruct (Z.ltb_spec (i + 1) 0); [lia|].
  rewrite length_firstn. lia.
Qed.

Lemma undo_spec st :
  historyOk st ->
  exists st', undo st = Normal st' /\ history st' = history st
    /\ (((historyIndex st <= 0)%Z /\ st' = st)
        \/ ((historyIndex st > 0)%Z
            /\ historyIndex st' = (historyIndex st - 1)%Z
            /\ element (history st) (historyIndex st') = Some (shown st'))).
Proof.
  unfold historyOk. intros Hok. unfold undo.
  destruct (Z.gtb_spec (historyIndex st) 0).
  - destruct (element_in_range (history st) (historyIndex st - 1)%Z) as [x Hx];
      [lia|].
    rewrite Hx. eexists. split; [reflexivity|]. split; [reflexivity|].
    right. split; [lia|]. split; [reflexivity|]. simpl.
    rewrite Hx. now destruct x.
  - exists st. split; [reflexivity|]. split; [reflexivity|]. left.
    split; [lia | reflexivity].
Qed.

Lemma redo_spec st :
  historyOk st ->
  exists st', redo st = Normal st' /\ history st' = history st
    /\ (((historyIndex st >= Z.of_nat (List.length (history st)) - 1)%Z
         /\ st' = st)
        \/ ((historyIndex st < Z.of_nat (List.length (history st)) - 1)%Z
            /\ historyIndex st' = (historyIndex st + 1)%Z
            /\ element (history st) (historyIndex st') = Some (shown st'))).
Proof.
  unfold historyOk. intros Hok. unfold redo.
  destruct (Z.ltb_spec (historyIndex st)
              (Z.of_nat (List.length (history st)) - 1)).
  - destruct (element_in_range (history st) (historyIndex st + 1)%Z) as [x Hx];
      [lia|].
    rewrite Hx. eexists. split; [reflexivity|]. split; [reflexivity|].
    right. split; [lia|]. split; [reflexivity|]. simpl.
    rewrite Hx. now destruct x.
  - exists st. split; [reflexivity|]. split; [reflexivity|]. left.
    split; [lia | reflexivity].
Qed.

(** X8. While the cursor is [-1] or an index of the history, [undo] and
    [redo] never throw and never change the entries.  [undo] does nothing
    when the cursor is at most 0 and otherwise moves it back by one; [redo]
    does nothing on the last entry and otherwise moves the cursor forward
    by one; after a move the editor shows the entry under the cursor. *)
Theorem undo_redo_navigate (st : State) :
  historyOk st ->
  (exists st', undo st = Normal st' /\ history st' = history st
     /\ (((historyIndex st <= 0)%Z /\ st' = st)
         \/ ((historyIndex st > 0)%Z
             /\ historyIndex st' = (historyIndex st - 1)%Z
             /\ element (history st) (historyIndex st') = Some (shown st'))))
  /\ (exists st', redo st = Normal st' /\ history st' = history st
        /\ (((historyIndex st >= Z.of_nat (List.length (history st)) - 1)%Z
             /\ st' = st)
            \/ ((historyIndex st < Z.of_nat (List.length (history st)) - 1)%Z
                /\ historyIndex st' = (historyIndex st + 1)%Z
                /\ element (history st) (historyIndex st')
                   = Some (shown st')))).
Proof.
  intros Hok. split; [now apply undo_spec | now apply redo_spec].
Qed.

Lemma undo_redo_shows_cursor st :
  historyOk st -> (historyIndex st > 0)%Z ->
  exists s1 s2, undo st = Normal s1 /\ redo s1 = Normal s2
    /\ history s2 = history st /\ historyIndex s2 = historyIndex st
    /\ element (history st) (historyIndex st) = Some (shown s2)
    /\ s2 = setArrows (Snapshot.arrows (shown s2))
              (setTasks (Snapshot.tasks (shown s2)) st).
Proof.
  intros Hok Hpos. pose proof Hok as Hok'. unfold historyOk in Hok'.
  destruct (element_in_range (history st) (historyIndex st - 1)%Z) as [x Hx];
    [lia|].
  destruct (element_in_range (history st) (historyIndex st)) as [y Hy];
    [lia|].
  set (s1 := setArrows (Snapshot.arrows x)
               (setTasks (Snapshot.tasks x)
                  (setHistoryIndex (historyIndex st - 1) st))).
  exists s1.
  exists (setArrows (Snapshot.arrows y)
            (setTasks (Snapshot.tasks y)
               (setHistoryIndex (historyIndex st) s1))).
  split.
  { unfold undo.
    replace (historyIndex st >? 0)%Z with true
      by (symmetry; apply Z.gtb_lt; lia).
    now rewrite Hx. }
  split.
  { unfold redo. simpl.
    replace (historyIndex st - 1 <? Z.of_nat (List.length (history st)) - 1)%Z
      with true by (symmetry; apply Z.ltb_lt; lia).
    replace (historyIndex st - 1 + 1)%Z with (historyIndex st) by lia.
    now rewrite Hy. }
  simpl. split; [reflexivity|]. split; [reflexivity|].
  split; [now destruct y|]. now destruct st.
Qed.

(** X9. Round trip of [undo] and [redo]: from a cursor above 0, [undo]
    followed by [redo] brings the cursor back, keeps the entries, and
    leaves the editor showing the entry under the cursor; every other part
    of the state is as before, so the editor is back in the state it left
    exactly when it was showing that entry. *)
Theorem undo_then_redo (st : State) :
  historyOk st -> (historyIndex st > 0)%Z ->
  exists s1 s2, undo st = Normal s1 /\ redo s1 = Normal s2
    /\ history s2 = history st /\ historyIndex s2 = historyIndex st
    /\ element (history st) (historyIndex st) = Some (shown s2)
    /\ (shown s2 = shown st <-> s2 = st).
Proof.
  intros Hok Hpos.
  destruct (undo_redo_shows_cursor st Hok Hpos)
    as (s1 & s2 & Hu & Hr & Hh & Hi & He & Hs).
  exists s1, s2. repeat split; auto.
  - intros E. rewrite Hs, E. now destruct st.
  - intros ->. reflexivity.
Qed.

Lemma saveToLocalStorage_cursor env st pending st' :
  history pending = history st ->
  saveToLocalStorage env st pending = Normal st' ->
  history st' = slice0 (history st) (historyIndex st + 1) ++ [shown st]
  /\ historyIndex st' = (Z.of_nat (List.length (history st')) - 1)%Z
  /\ element (history st') (historyIndex st') = Some (shown st)
  /\ redo st' = Normal st'.
Proof.
  intros Hp H.
  apply saveToLocalStorage_Normal in H as (_ & _ & _ & _ & _ & Hh & Hi).
  rewrite Hp in Hh. fold (shown st) in Hh.
  split; [exact Hh|]. split; [exact Hi|]. split.
  - rewrite Hi, Hh. apply element_last.
  - unfold redo. rewrite Hi.
    replace (_ <? _)%Z with false by (symmetry; apply Z.ltb_ge; lia).
    reflexivity.
Qed.

(** X10. After [saveToLocalStorage] the cursor is on the last entry of the
    history, that entry is the snapshot of the render that called it, the
    entries that were after the cursor are gone, and [redo] does nothing. *)
Theorem saveToLocalStorage_invalidates_redo (env : Env) (st st' : State) :
  saveToLocalStorage env st st = Normal st' ->
  history st' = slice0 (history st) (historyIndex st + 1) ++ [shown st]
  /\ historyIndex st' = (Z.of_nat (List.length (history st')) - 1)%Z
  /\ element (history st') (historyIndex st') = Some (shown st)
  /\ redo st' = Normal st'.
Proof. intros H. now apply (saveToLocalStorage_cursor env st st). Qed.

(** X11. Whenever an action of the editor changes the history, the entry it
    appends, on which it leaves the cursor, is the snapshot that the editor
    showed before the action, not the result of the action. *)
Theorem actions_record_previous_snapshot (env : Env) (a : Action)
    (st st' : State) :
  perform env a st = Normal st' ->
  history st' <> history st ->
  history st' = slice0 (history st) (historyIndex st + 1) ++ [shown st]
  /\ element (history st') (historyIndex st') = Some (shown st).
Proof.
  intros H Hne.
  destruct (perform_history_cases env a st H)
    as [[Hh _]|[(Hh & _)|[(Hh & _)|[Hh Hi]]]]; try contradiction.
  split; [exact Hh|]. rewrite Hi, Hh. apply element_last.
Qed.

(** X12. Starting from the empty history of a fresh editor, whatever single
    action is performed, [undo] does nothing afterwards: the first edit
    cannot be undone. *)
Theorem first_action_cannot_be_undone (env : Env) (a : Action)
    (st st' : State) :
  history st = [] -> historyIndex st = (-1)%Z ->
  perform env a st = Normal st' ->
  undo st' = Normal st'.
Proof.
  intros Hh Hi H.
  assert (Hle : (historyIndex st' <= 0)%Z).
  { destruct (perform_history_cases env a st H)
      as [[_ E]|[(_ & Hp & _)|[(_ & Hp & _)|[Hh' E]]]].
    - lia.
    - lia.
    - rewrite Hh in Hp. simpl in Hp. lia.
    - rewrite E, Hh', Hh, Hi. simpl. lia. }
  unfold undo. destruct (Z.gtb_spec (historyIndex st') 0); [lia|].
  reflexivity.
Qed.

Lemma slice0_In {A : Type} (l : list A) e x : In x (slice0 l e) -> In x l.
Proof.
  unfold slice0.
  destruct (e <? 0)%Z; intros H;
    match type of H with
    | In _ (firstn ?n _) => rewrite <- (firstn_skipn n l)
    end; apply in_or_app; now left.
Qed.

(** X13. After an action that recorded, [undo] followed by [redo] brings the
    editor back to the snapshot shown before that action, not to what the
    action produced.  The action adds no entry for its result: every entry
    of the history afterwards was an entry before or is the snapshot shown
    before the action. *)
Theorem undo_redo_drops_last_action (env : Env) (a : Action)
    (st st' : State) :
  historyOk st -> (historyIndex st >= 0)%Z ->
  perform env a st = Normal st' ->
  history st' <> history st ->
  (exists s1 s2, undo st' = Normal s1 /\ redo s1 = Normal s2
                 /\ shown s2 = shown st)
  /\ (forall e, In e (history st') -> In e (history st) \/ e = shown st).
Proof.
  intros Hok Hpos H Hne.
  destruct (perform_history_cases env a st H)
    as [[Hh _]|[(Hh & _)|[(Hh & _)|[Hh Hi]]]]; try contradiction.
  split;
    [|intros e He; rewrite Hh in He;
      apply in_app_or in He as [He|[<-|[]]];
      [left; exact (slice0_In _ _ _ He) | now right]].
  assert (Hlen : List.length (history st')
                 = S (Z.to_nat (historyIndex st + 1))).
  { rewrite Hh, length_app, slice0_prefix_length; [simpl; lia|].
    unfold historyOk in Hok. lia. }
  assert (Hok' : historyOk st') by (unfold historyOk; lia).
  assert (Hpos' : (historyIndex st' > 0)%Z) by lia.
  destruct (undo_redo_shows_cursor st' Hok' Hpos')
    as (s1 & s2 & Hu & Hr & _ & _ & He & _).
  exists s1, s2. split; [exact Hu|]. split; [exact Hr|].
  rewrite Hi, Hh, element_last in He. congruence.
Qed.

(** ** [onConnect] *)

Lemma onConnect_cases env params st st' :
  onConnect env params st = Normal st' ->
  st' = st
  \/ exists src tgt styled,
       source params = Some src /\ target params = Some tgt
       /\ truthy src = true /\ truthy tgt = true
       /\ (forall a, In a (arrows st) -> ends a <> (src, tgt))
       /\ updateStyles (tasks st)
            (arrows st
             ++ [ {| Edge.id := newEdgeId (arrows st);
                     Edge.source := src; Edge.target := tgt;
                     Edge.type := Some (arrowTypeName (arrowType st));
                     Edge.style := None;
                     Edge.markerEnd :=
                       Some {| marker_type := ArrowClosed; color := None |} |} ])
            (selectedTaskId st) (selectedArrowId st) = Normal styled
       /\ saveToLocalStorage env st
            (setArrows (Snapshot.arrows styled)
               (setTasks (Snapshot.tasks styled) st)) = Normal st'.
Proof.
  unfold onConnect. intros H.
  destruct (source params) as [src|]; [|same_state H; auto].
  destruct (target params) as [tgt|]; [|same_state H; auto].
  destruct (truthy src) eqn:Hs; [|same_state H; auto].
  destruct (truthy tgt) eqn:Ht; [|same_state H; auto].
  simpl in H.
  destruct (existsb _ (arrows st)) eqn:Hd; [same_state H; auto|].
  apply bind_Normal in H as (styled & Hu & H).
  right. exists src, tgt, styled. repeat split; auto.
  intros a Ha E. unfold ends in E. injection E as E1 E2.
  assert (Hex : existsb (fun arrow => String.eqb (Edge.source arrow) src
                                      && String.eqb (Edge.target arrow) tgt)
                        (arrows st) = true).
  { apply existsb_exists. exists a. split; [exact Ha|].
    now rewrite E1, E2, !String.eqb_refl. }
  congruence.
Qed.

Lemma onConnect_appends env params st st' :
  onConnect env params st = Normal st' ->
  st' = st
  \/ exists src tgt,
       source params = Some src /\ target params = Some tgt
       /\ truthy src = true /\ truthy tgt = true
       /\ (forall a, In a (arrows st) -> ends a <> (src, tgt))
       /\ map arrowContent (arrows st')
          = map arrowContent (arrows st)
            ++ [ (newEdgeId (arrows st), src, tgt,
                  Some (arrowTypeName (arrowType st))) ]
       /\ map taskContent (tasks st') = map taskContent (tasks st).
Proof.
  intros H. apply onConnect_cases in H
    as [->|(src & tgt & styled & Hs & Ht & Hts & Htt & Hnew & Hu & Hsave)];
    [now left|].
  right. exists src, tgt. repeat split; auto.
  - apply updateStyles_Normal in Hu as (cyc & _ & _ & HA).
    apply saveToLocalStorage_Normal in Hsave as (_ & Ha & _).
    rewrite Ha. simpl. rewrite HA, map_arrowContent_styleArrow, map_app.
    reflexivity.
  - apply updateStyles_Normal in Hu as (cyc & _ & HT & _).
    apply saveToLocalStorage_Normal in Hsave as (Hta & _).
    rewrite Hta. simpl. rewrite HT. apply map_taskContent_styleTask.
Qed.

(** X14. [onConnect] either returns the state it was given (a missing or
    empty end, or a pair that an arrow already joins) or appends exactly one
    arrow: the arrows before it keep their ids, ends and types, the new one
    runs from the requested source to the requested target with the id
    [`e${arrows.length + 1}`] and the current arrow type, and no task
    changes its id, data or position. *)
Theorem onConnect_appends_one_arrow (env : Env) (params : Connection)
    (st st' : State) :
  onConnect env params st = Normal st' ->
  st' = st
  \/ exists src tgt,
       source params = Some src /\ target params = Some tgt
       /\ truthy src = true /\ truthy tgt = true
       /\ (forall a, In a (arrows st) -> ends a <> (src, tgt))
       /\ map arrowContent (arrows st')
          = map arrowContent (arrows st)
            ++ [ (newEdgeId (arrows st), src, tgt,
                  Some (arrowTypeName (arrowType st))) ]
       /\ map taskContent (tasks st') = map taskContent (tasks st).
Proof. apply onConnect_appends. Qed.

Lemma arrowContent_map_ends (l : list Edge.t) :
  map ends l = map (fun c => (snd (fst (fst c)), snd (fst c)))
                   (map arrowContent l).
Proof. rewrite map_map. reflexivity. Qed.

Lemma arrowContent_map_id (l : list Edge.t) :
  map Edge.id l = map (fun c => fst (fst (fst c))) (map arrowContent l).
Proof. rewrite map_map. reflexivity. Qed.

(** X15. [onConnect] keeps the arrows free of duplicates: if no two arrows
    join the same ordered pair of tasks before, none do after. *)
Theorem onConnect_keeps_pairs_unique (env : Env) (params : Connection)
    (st st' : State) :
  NoDup (map ends (arrows st)) ->
  onConnect env params st = Normal st' ->
  NoDup (map ends (arrows st')).
Proof.
  intros Hnd H. apply onConnect_appends in H
    as [->|(src & tgt & _ & _ & _ & _ & Hnew & HA & _)]; [exact Hnd|].
  rewrite arrowContent_map_ends, HA, map_app, <- arrowContent_map_ends.
  simpl. apply NoDup_app; [exact Hnd | | ].
  - constructor; [intros [] | constructor].
  - intros p Hp [<-|[]]. apply in_map_iff in Hp as (a & Ea & Ha).
    exact (Hnew a Ha Ea).
Qed.

Lemma template_of_nat_inj n m :
  template_of_nat n = template_of_nat m -> n = m.
Proof.
  unfold template_of_nat. intros H.
  apply Unsigned.to_uint_inj.
  pose proof (NilEmpty.usu (Nat.to_uint n)) as Hn.
  pose proof (NilEmpty.usu (Nat.to_uint m)) as Hm.
  rewrite H in Hn. congruence.
Qed.

Lemma edge_name_inj :
  Injective (fun k => ("e" ++ template_of_nat k)%string).
Proof.
  intros n m H. simpl in H. injection H as H. now apply template_of_nat_inj.
Qed.

(** X16. While arrows are only added, the id scheme of [onConnect] works:
    if the arrows carry the ids [e1], [e2], ..., [en] in order, then after
    [onConnect] they still do, and all arrow ids are distinct. *)
Theorem onConnect_sequential_ids (env : Env) (params : Connection)
    (st st' : State) :
  idsSequential (arrows st) ->
  onConnect env params st = Normal st' ->
  idsSequential (arrows st') /\ NoDup (map Edge.id (arrows st')).
Proof.
  intros Hseq H.
  assert (Hnd : forall l, idsSequential l -> NoDup (map Edge.id l)).
  { intros l Hl. rewrite Hl.
    apply Injective_map_NoDup; [exact edge_name_inj | apply seq_NoDup]. }
  assert (Hseq' : idsSequential (arrows st')); [|split; auto].
  apply onConnect_appends in H
    as [->|(src & tgt & _ & _ & _ & _ & _ & HA & _)]; [exact Hseq|].
  unfold idsSequential in *.
  assert (Hlen : List.length (arrows st') = S (List.length (arrows st))).
  { rewrite <- (length_map arrowContent (arrows st')), HA, length_app,
      length_map. simpl. lia. }
  rewrite Hlen, seq_S, map_app, <- Hseq.
  rewrite (arrowContent_map_id (arrows st')), HA, map_app,
    <- arrowContent_map_id.
  simpl. unfold newEdgeId.
  now rewrite Nat.add_1_r.
Qed.

(** ** [deleteSelected], [updateTask] and the selection *)

(** X17. With no task selected and an arrow selected, [deleteSelected]
    removes every arrow that carries the selected id (all of them, when
    several arrows carry it), keeps the other arrows in order, changes no
    task's id, data or position, and clears the arrow selection. *)
Theorem deleteSelected_arrow (env : Env) (st st' : State) (sel : string) :
  truthy_opt (selectedTaskId st) = false ->
  selectedArrowId st = Some sel -> truthy sel = true ->
  deleteSelected env st = Normal st' ->
  map arrowContent (arrows st')
  = map arrowContent
      (filter (fun a => negb (String.eqb (Edge.id a) sel)) (arrows st))
  /\ ~ In sel (map Edge.id (arrows st'))
  /\ map taskContent (tasks st') = map taskContent (tasks st)
  /\ selectedArrowId st' = None
  /\ selectedTaskId st' = selectedTaskId st.
Proof.
  intros Hnt Hsel Htr H. unfold deleteSelected in H.
  rewrite Hnt, Hsel in H. simpl in H. rewrite Htr in H.
  apply bind_Normal in H as (styled & Hu & H).
  apply updateStyles_Normal in Hu as (cyc & _ & HT & HA).
  apply saveToLocalStorage_Normal in H as (Ht & Ha & Hst & Hsa & _).
  simpl in Ht, Ha, Hst, Hsa. rewrite HT in Ht. rewrite HA in Ha.
  assert (EA : map arrowContent (arrows st')
               = map arrowContent
                   (filter (fun a => negb (String.eqb (Edge.id a) sel))
                           (arrows st))).
  { rewrite Ha. apply map_arrowContent_styleArrow. }
  split; [exact EA|]. split; [|split; [|split]]; auto.
  - rewrite arrowContent_map_id, EA, <- arrowContent_map_id.
    intros Hin. apply in_map_iff in Hin as (a & Hid & Hin).
    apply filter_In in Hin as [_ Hne].
    apply negb_true_iff, String.eqb_neq in Hne. contradiction.
  - rewrite Ht. apply map_taskContent_styleTask.
Qed.

Lemma updateTask_content env id label requested st st' :
  updateTask env id label requested st = Normal st' ->
  map taskContent (tasks st')
  = map (fun t =>
           if String.eqb (TaskNode.id t) id
           then (TaskNode.id t,
                 {| label := label;
                    completed :=
                      attemptSetCompletion t requested (tasks st) (arrows st) |},
                 TaskNode.position t)
           else taskContent t)
        (tasks st)
  /\ map arrowContent (arrows st') = map arrowContent (arrows st)
  /\ history st' = slice0 (history st) (historyIndex st + 1) ++ [shown st].
Proof.
  unfold updateTask. intros H.
  apply bind_Normal in H as (styled & Hu & H).
  apply updateStyles_Normal in Hu as (cyc & _ & HT & HA).
  apply saveToLocalStorage_Normal in H as (Ht & Ha & _ & _ & _ & Hh & _).
  simpl in Ht, Ha, Hh. rewrite HT in Ht. rewrite HA in Ha.
  split; [|split].
  - rewrite Ht, map_taskContent_styleTask, map_map. apply map_ext.
    intros t. now destruct (String.eqb (TaskNode.id t) id).
  - rewrite Ha. apply map_arrowContent_styleArrow.
  - exact Hh.
Qed.

(** X18. [updateTask] gives the tasks that carry the id the new label and
    the completion value that the rule allows, and leaves the id and the
    position of every task, the whole content of the other tasks and of the
    arrows as they were.  For an id that no task carries nothing changes in
    the graph, yet a history entry is still recorded. *)
Theorem updateTask_changes_one_task (env : Env) (id label : string)
    (requested : bool) (st st' : State) :
  updateTask env id label requested st = Normal st' ->
  map taskContent (tasks st')
  = map (fun t =>
           if String.eqb (TaskNode.id t) id
           then (TaskNode.id t,
                 {| label := label;
                    completed :=
                      attemptSetCompletion t requested (tasks st) (arrows st) |},
                 TaskNode.position t)
           else taskContent t)
        (tasks st)
  /\ map arrowContent (arrows st') = map arrowContent (arrows st)
  /\ ((forall t, In t (tasks st) -> TaskNode.id t <> id) ->
      map taskContent (tasks st') = map taskContent (tasks st)
      /\ history st' = slice0 (history st) (historyIndex st + 1) ++ [shown st]).
Proof.
  intros H. apply updateTask_content in H as (HT & HA & Hh).
  split; [exact HT|]. split; [exact HA|].
  intros Hmiss. split; [|exact Hh]. rewrite HT. apply map_ext_in.
  intros t Hin. destruct (String.eqb_spec (TaskNode.id t) id) as [E|_];
    [|reflexivity].
  exfalso. exact (Hmiss t Hin E).
Qed.

Lemma attemptSetCompletion_twice t u requested tasks arrows :
  TaskNode.id u = TaskNode.id t ->
  completed (TaskNode.data u) = completed (TaskNode.data t) ->
  attemptSetCompletion u (attemptSetCompletion t requested tasks arrows)
    tasks arrows
  = attemptSetCompletion u requested tasks arrows.
Proof.
  unfold attemptSetCompletion. intros -> ->.
  destruct (completed (TaskNode.data t)); [reflexivity|].
  now destruct (areAllParentsCompleted _ _ _).
Qed.

(** X19. The completion rule is applied twice on the way from the edit
    dialog to the state, by [EditModal.handleSave] and again by
    [updateTask], and the second application changes nothing: when the task
    in the dialog has the completion flag of the tasks with its id,
    [updateTask] called with the arguments that [handleSave] passes on gives
    what [updateTask] gives for the raw request.  When the checkbox of the
    dialog is enabled, [handleSave] passes the request on unchanged. *)
Theorem handleSave_then_updateTask (env : Env) (task : TaskNode.t)
    (label : string) (requested : bool) (st : State) :
  ((forall u, In u (tasks st) -> TaskNode.id u = TaskNode.id task ->
      completed (TaskNode.data u) = completed (TaskNode.data task)) ->
   match EditModal_handleSave task (tasks st) (arrows st) label requested with
   | (id, label', completed') => updateTask env id label' completed' st
   end
   = updateTask env (TaskNode.id task) label requested st)
  /\ (checkboxDisabled task (tasks st) (arrows st) = false ->
      EditModal_handleSave task (tasks st) (arrows st) label requested
      = (TaskNode.id task, label, requested)).
Proof.
  split.
  - intros Hsame. unfold EditModal_handleSave, updateTask.
    replace (map _ (tasks st)) with
      (map (fun t =>
              if String.eqb (TaskNode.id t) (TaskNode.id task) then
                {| TaskNode.id := TaskNode.id t;
                   TaskNode.data :=
                     {| label := label;
                        completed :=
                          attemptSetCompletion t requested
                            (tasks st) (arrows st) |};
                   TaskNode.position := TaskNode.position t;
                   TaskNode.style := TaskNode.style t |}
              else t) (tasks st)); [reflexivity|].
    apply map_ext_in. intros u Hin.
    destruct (String.eqb_spec (TaskNode.id u) (TaskNode.id task)) as [E|_];
      [|reflexivity].
    now rewrite attemptSetCompletion_twice by auto.
  - unfold checkboxDisabled, EditModal_handleSave, attemptSetCompletion.
    intros H. destruct (completed (TaskNode.data task)); [reflexivity|].
    destruct (areAllParentsCompleted _ _ _); [reflexivity | discriminate].
Qed.

(** X20. At most one of a task and an arrow is selected, and every action
    of the editor keeps it so. *)
Theorem selectionExclusive_invariant (env : Env) (a : Action)
    (st st' : State) :
  selectionExclusive st -> perform env a st = Normal st' ->
  selectionExclusive st'.
Proof.
  unfold selectionExclusive. intros Hex H.
  assert (Hrec : forall pending,
            selectedTaskId pending = None \/ selectedArrowId pending = None ->
            saveToLocalStorage env st pending = Normal st' ->
            selectedTaskId st' = None \/ selectedArrowId st' = None).
  { intros pending Hp Hs.
    apply saveToLocalStorage_Normal in Hs as (_ & _ & -> & -> & _).
    exact Hp. }
  destruct a as [ev| position | newType | uuid now | localId]; simpl in H.
  - destruct ev as [params|edge|task| | |id label c| | |project]; simpl in H.
    + apply onConnect_cases in H
        as [->|(src & tgt & styled & _ & _ & _ & _ & _ & _ & Hs)];
        [exact Hex|].
      eapply Hrec; [|exact Hs]. exact Hex.
    + unfold onEdgeClick in H. apply bind_Normal in H as (styled & _ & H).
      same_state H. simpl. now left.
    + unfold onTaskClick in H. same_state H. simpl. now right.
    + unfold onPaneClick in H. apply bind_Normal in H as (styled & _ & H).
      same_state H. simpl. now left.
    + unfold deleteSelected in H.
      destruct (truthy_opt (selectedTaskId st)).
      * apply bind_Normal in H as (styled & _ & H).
        eapply Hrec; [|exact H]. now left.
      * destruct (truthy_opt (selectedArrowId st)); [|same_state H; auto].
        apply bind_Normal in H as (styled & _ & H).
        eapply Hrec; [|exact H]. now right.
    + unfold updateTask in H. apply bind_Normal in H as (styled & _ & H).
      eapply Hrec; [|exact H]. exact Hex.
    + unfold undo in H. destruct (_ >? _)%Z; [|same_state H; auto].
      destruct (element _ _); [|discriminate]. same_state H. exact Hex.
    + unfold redo in H. destruct (_ <? _)%Z; [|same_state H; auto].
      destruct (element _ _); [|discriminate]. same_state H. exact Hex.
    + unfold handleProjectSwitch in H.
      apply bind_Normal in H as (pending & Hs & H).
      unfold handleProjectSwitch_timeout in H.
      apply bind_Normal in H as (styled & _ & H). same_state H. simpl.
      apply saveToLocalStorage_Normal in Hs as (_ & _ & -> & -> & _).
      exact Hex.
  - unfold addTask in H. apply bind_Normal in H as (styled & _ & H).
    eapply Hrec; [|exact H]. exact Hex.
  - unfold handleArrowTypeChange in H.
    apply bind_Normal in H as (styled & _ & H).
    eapply Hrec; [|exact H]. exact Hex.
  - same_state H. exact Hex.
  - unfold handleDeleteProject in H.
    destruct (_ >? 0)%Z.
    + destruct (element _ _); [|discriminate]. same_state H. exact Hex.
    + same_state H. exact Hex.
Qed.

(** ** The project list *)

Lemma length_mapi_from {A B : Type} (f : A -> nat -> B) l k :
  List.length (mapi_from k f l) = List.length l.
Proof.
  revert k. induction l as [|a l IH]; intros k; simpl; [reflexivity|].
  now rewrite IH.
Qed.

Lemma saveToLocalStorage_projects env st pending st' :
  validProject st = true ->
  saveToLocalStorage env st pending = Normal st' ->
  List.length (projects st') = List.length (projects st)
  /\ (forall j, j <> currentProjectIndex st ->
        element (projects st') j = element (projects st) j)
  /\ exists p,
       element (projects st) (currentProjectIndex st) = Some p
       /\ element (projects st') (currentProjectIndex st)
          = Some {| Project.localId := Project.localId p;
                    Project.title := Project.title p;
                    Project.tasks := tasks st;
                    Project.arrows := arrows st;
                    Project.taskIdCounter := taskIdCounter st;
                    Project.lastSavedAt := Some (now env);
                    Project.viewport := Some (currentViewport env) |}.
Proof.
  intros Hv H. destruct (validProject_effective st Hv) as [Hp Hi].
  unfold saveToLocalStorage in H. rewrite Hp, Hi in H.
  unfold validProject in Hv.
  destruct (element (projects st) (currentProjectIndex st)) as [p|] eqn:He;
    [|discriminate].
  same_state H. simpl. split; [apply length_mapi_from|]. split.
  - intros j Hj. rewrite element_mapi.
    destruct (element (projects st) j) as [q|] eqn:Hq; [|reflexivity].
    simpl. unfold element in Hq.
    destruct (Z.ltb_spec j 0); [discriminate|].
    destruct (Z.eqb_spec (Z.of_nat (Z.to_nat j)) (currentProjectIndex st));
      [lia | reflexivity].
  - exists p. split; [reflexivity|]. rewrite element_mapi, He. simpl.
    unfold element in He.
    destruct (Z.ltb_spec (currentProjectIndex st) 0); [discriminate|].
    destruct (Z.eqb_spec (Z.of_nat (Z.to_nat (currentProjectIndex st)))
                (currentProjectIndex st)); [reflexivity | lia].
Qed.

(** X21. When the current project exists, [saveToLocalStorage] rewrites its
    entry alone: the list keeps its length, every other entry is untouched,
    and the entry of the current project keeps its id and title and takes
    the tasks, arrows and counter of the render that saved, the time and the
    viewport. *)
Theorem saveToLocalStorage_stores_current (env : Env)
    (st pending st' : State) :
  validProject st = true ->
  saveToLocalStorage env st pending = Normal st' ->
  List.length (projects st') = List.length (projects st)
  /\ (forall j, j <> currentProjectIndex st ->
        element (projects st') j = element (projects st) j)
  /\ exists p,
       element (projects st) (currentProjectIndex st) = Some p
       /\ element (projects st') (currentProjectIndex st)
          = Some {| Project.localId := Project.localId p;
                    Project.title := Project.title p;
                    Project.tasks := tasks st;
                    Project.arrows := arrows st;
                    Project.taskIdCounter := taskIdCounter st;
                    Project.lastSavedAt := Some (now env);
                    Project.viewport := Some (currentViewport env) |}.
Proof. apply saveToLocalStorage_projects. Qed.

Lemma findIndex_from_spec {A : Type} (p : A -> bool) l : forall k,
  (exists x, find p l = Some x
             /\ (k <= findIndex_from k p l < k + Z.of_nat (List.length l))%Z
             /\ nth_error l (Z.to_nat (findIndex_from k p l - k)) = Some x)
  \/ (find p l = None /\ findIndex_from k p l = (-1)%Z).
Proof.
  induction l as [|a l IH]; intros k; simpl; [now right|].
  destruct (p a).
  - left. exists a. split; [reflexivity|]. split; [lia|].
    now rewrite Z.sub_diag.
  - destruct (IH (k + 1)%Z) as [(x & Hf & Hr & Hn)|[Hf Hi]].
    + left. exists x. split; [exact Hf|]. split; [lia|].
      replace (Z.to_nat (findIndex_from (k + 1) p l - k))
        with (S (Z.to_nat (findIndex_from (k + 1) p l - (k + 1)))) by lia.
      exact Hn.
    + right. auto.
Qed.

Lemma findIndex_spec {A : Type} (p : A -> bool) l :
  (exists x, find p l = Some x /\ element l (findIndex p l) = Some x)
  \/ (find p l = None /\ findIndex p l = (-1)%Z).
Proof.
  unfold findIndex.
  destruct (findIndex_from_spec p l 0) as [(x & Hf & Hr & Hn)|H];
    [|now right].
  left. exists x. split; [exact Hf|]. unfold element.
  destruct (Z.ltb_spec (findIndex_from 0 p l) 0); [lia|].
  now rewrite Z.sub_0_r in Hn.
Qed.

Lemma handleProjectSwitch_inv env project st st' :
  handleProjectSwitch env project st = Normal st' ->
  exists pending cyc,
    saveToLocalStorage env st st = Normal pending
    /\ projects st' = projects pending
    /\ tasks st'
       = map (styleTask (Project.tasks project)
                (map (fun arrow =>
                        {| Edge.id := Edge.id arrow;
                           Edge.source := Edge.source arrow;
                           Edge.target := Edge.target arrow;
                           Edge.type := Some (arrowTypeName (arrowType st));
                           Edge.style := Edge.style arrow;
                           Edge.markerEnd :=
                             Some {| marker_type := ArrowClosed;
                                     color := None |} |})
                     (Project.arrows project))
                (selectedTaskId st))
             (Project.tasks project)
    /\ arrows st'
       = map (styleArrow cyc (selectedArrowId st))
             (map (fun arrow =>
                     {| Edge.id := Edge.id arrow;
                        Edge.source := Edge.source arrow;
                        Edge.target := Edge.target arrow;
                        Edge.type := Some (arrowTypeName (arrowType st));
                        Edge.style := Edge.style arrow;
                        Edge.markerEnd :=
                          Some {| marker_type := ArrowClosed;
                                  color := None |} |})
                  (Project.arrows project))
    /\ taskIdCounter st' = Project.taskIdCounter project
    /\ currentProjectIndex st'
       = findIndex (fun p => String.eqb (Project.localId p)
                                        (Project.localId project))
                   (effectiveProjects st).
Proof.
  unfold handleProjectSwitch. intros H.
  apply bind_Normal in H as (pending & Hs & H).
  unfold handleProjectSwitch_timeout in H.
  apply bind_Normal in H as (styled & Hu & H).
  apply updateStyles_Normal in Hu as (cyc & _ & HT & HA).
  same_state H. exists pending, cyc. simpl. rewrite HT, HA.
  repeat split; auto.
Qed.

Lemma handleProjectSwitch_content env project st st' :
  handleProjectSwitch env project st = Normal st' ->
  map taskContent (tasks st') = map taskContent (Project.tasks project)
  /\ map endpoints (arrows st') = map endpoints (Project.arrows project)
  /\ (forall a, In a (arrows st') ->
        Edge.type a = Some (arrowTypeName (arrowType st)))
  /\ taskIdCounter st' = Project.taskIdCounter project.
Proof.
  intros H. apply handleProjectSwitch_inv in H
    as (pending & cyc & _ & _ & HT & HA & Hc & _).
  rewrite HT, HA. split; [apply map_taskContent_styleTask|].
  split; [|split; [|exact Hc]].
  - rewrite !map_map. apply map_ext. intros a. reflexivity.
  - intros a Ha. apply in_map_iff in Ha as (b & <- & Hb).
    apply in_map_iff in Hb as (c & <- & _). reflexivity.
Qed.

(** X22. [handleProjectSwitch] shows the project it is given: the tasks
    have the ids, data and positions of the project's tasks, the arrows the
    ids and ends of the project's arrows, every arrow takes the current
    arrow type, and the task counter is the project's.  The current index
    becomes the position of the first listed project with that id; for a
    project that is not listed it becomes [-1], and the next
    [saveToLocalStorage] then throws. *)
Theorem handleProjectSwitch_loads (env : Env) (project : Project.t)
    (st st' : State) :
  handleProjectSwitch env project st = Normal st' ->
  map taskContent (tasks st') = map taskContent (Project.tasks project)
  /\ map endpoints (arrows st') = map endpoints (Project.arrows project)
  /\ (forall a, In a (arrows st') ->
        Edge.type a = Some (arrowTypeName (arrowType st)))
  /\ taskIdCounter st' = Project.taskIdCounter project
  /\ ((exists p, In p (effectiveProjects st)
                 /\ Project.localId p = Project.localId project) ->
      exists p, element (effectiveProjects st) (currentProjectIndex st')
                = Some p
                /\ Project.localId p = Project.localId project)
  /\ ((forall p, In p (effectiveProjects st) ->
                 Project.localId p <> Project.localId project) ->
      currentProjectIndex st' = (-1)%Z
      /\ forall env', saveToLocalStorage env' st' st' = TypeError).
Proof.
  intros H. pose proof (handleProjectSwitch_content env project st st' H)
    as (HT & HA & Hty & Hc).
  apply handleProjectSwitch_inv in H
    as (pending & cyc & Hs & Hp & _ & _ & _ & Hi).
  split; [exact HT|]. split; [exact HA|]. split; [exact Hty|].
  split; [exact Hc|].
  pose proof (findIndex_spec
                (fun p => String.eqb (Project.localId p)
                                     (Project.localId project))
                (effectiveProjects st)) as Hfi.
  rewrite <- Hi in Hfi. split.
  - intros (p & Hin & Hid).
    destruct Hfi as [(x & Hf & He)|[Hf _]].
    + exists x. split; [exact He|]. apply find_some in Hf as [_ Hx].
      now apply String.eqb_eq.
    + apply (find_none _ _ Hf) in Hin. rewrite Hid, String.eqb_refl in Hin.
      discriminate.
  - intros Hnone.
    assert (Hidx : currentProjectIndex st' = (-1)%Z).
    { destruct Hfi as [(x & Hf & He)|[Hf Hm]]; [|exact Hm].
      apply find_some in Hf as [Hin Hx]. apply String.eqb_eq in Hx.
      exfalso. exact (Hnone x Hin Hx). }
    split; [exact Hidx|]. intros env'.
    unfold saveToLocalStorage.
    assert (Hne : projects st' <> []).
    { rewrite Hp. unfold saveToLocalStorage in Hs.
      destruct (element (effectiveProjects st) (effectiveIndex st)) as [q|]
        eqn:Hq; [|discriminate].
      same_state Hs. simpl. unfold mapi.
      destruct (effectiveProjects st); [|discriminate].
      unfold element in Hq. destruct (_ <? _)%Z; [discriminate|].
      destruct (Z.to_nat _); discriminate. }
    unfold effectiveProjects, effectiveIndex.
    destruct (projects st') as [|q qs]; [contradiction|].
    rewrite Hidx. reflexivity.
Qed.

(** X23. Round trip of a project switch: after switching to another project
    and then back to the entry that the first switch saved for the project
    that was left, the editor shows the tasks (ids, data, positions), the
    arrow ids and ends and the task counter it showed before. *)
Theorem switch_away_and_back (env env' : Env) (other saved : Project.t)
    (st st1 st2 : State) :
  validProject st = true ->
  handleProjectSwitch env other st = Normal st1 ->
  element (projects st1) (currentProjectIndex st) = Some saved ->
  handleProjectSwitch env' saved st1 = Normal st2 ->
  map taskContent (tasks st2) = map taskContent (tasks st)
  /\ map endpoints (arrows st2) = map endpoints (arrows st)
  /\ taskIdCounter st2 = taskIdCounter st
  /\ Project.localId saved
     = match element (projects st) (currentProjectIndex st) with
       | Some p => Project.localId p
       | None => ""
       end.
Proof.
  intros Hv H1 Hsaved H2.
  apply handleProjectSwitch_inv in H1
    as (pending & cyc & Hs & Hp & _ & _ & _ & _).
  destruct (saveToLocalStorage_projects env st st pending Hv Hs)
    as (_ & _ & p & Hp0 & Hp1).
  rewrite Hp, Hp1 in Hsaved. injection Hsaved as <-.
  apply handleProjectSwitch_content in H2 as (HT & HA & _ & Hc).
  simpl in HT, HA, Hc. rewrite Hp0. auto.
Qed.

(** X24. [createNewLocalProject] appends the new project and makes it
    current: the index points at it, the editor shows its single initial
    task, no arrow and the counter 1, and saving works right away.  The
    undo history is left as it was. *)
Theorem createNewLocalProject_current (uuid now : string) (st : State) :
  let st' := createNewLocalProject uuid now st in
  projects st' = projects st ++ [newLocalProject uuid now]
  /\ element (projects st') (currentProjectIndex st')
     = Some (newLocalProject uuid now)
  /\ shown st' = {| Snapshot.tasks := [mkTask "0" "初期タスク" 100 100];
                    Snapshot.arrows := [] |}
  /\ taskIdCounter st' = 1%Z
  /\ history st' = history st /\ historyIndex st' = historyIndex st
  /\ forall env, exists st'', saveToLocalStorage env st' st' = Normal st''.
Proof.
  simpl.
  assert (He : element (projects st ++ [newLocalProject uuid now])
                 (Z.of_nat (List.length (projects st ++ [newLocalProject uuid now]))
                  - 1)
               = Some (newLocalProject uuid now)) by apply element_last.
  repeat split; auto.
  intros env.
  destruct (saveToLocalStorage_valid env
              (createNewLocalProject uuid now st)
              (createNewLocalProject uuid now st)) as (st'' & Hs & _).
  - unfold validProject. simpl. now rewrite He.
  - reflexivity.
  - eauto.
Qed.

Lemma handleDeleteProject_spec localId st :
  validProject st = true ->
  exists st', handleDeleteProject localId st = Normal st'
    /\ projects st'
       = filter (fun p => negb (String.eqb (Project.localId p) localId))
                (projects st)
    /\ ((projects st' = [] /\ tasks st' = [] /\ arrows st' = []
         /\ taskIdCounter st' = 0%Z)
        \/ (exists p,
              element (projects st') (currentProjectIndex st') = Some p
              /\ tasks st' = Project.tasks p
              /\ arrows st' = Project.arrows p
              /\ taskIdCounter st' = Project.taskIdCounter p)).
Proof.
  intros Hv. destruct (validProject_effective st Hv) as [_ Hi].
  unfold handleDeleteProject. rewrite Hi.
  set (updated := filter _ (projects st)).
  assert (Hlen : List.length updated <= List.length (projects st))
    by apply filter_length_le.
  assert (Hidx : (0 <= currentProjectIndex st
                  < Z.of_nat (List.length (projects st)))%Z).
  { unfold validProject, element in Hv.
    destruct (Z.ltb_spec (currentProjectIndex st) 0); [discriminate|].
    destruct (nth_error _ _) eqn:E; [|discriminate].
    assert (Z.to_nat (currentProjectIndex st) < List.length (projects st))
      by (apply nth_error_Some; congruence).
    lia. }
  destruct (Z.gtb_spec (Z.of_nat (List.length updated)) 0).
  - set (newIndex := if (currentProjectIndex st
                         >=? Z.of_nat (List.length updated))%Z
                     then (Z.of_nat (List.length updated) - 1)%Z
                     else currentProjectIndex st).
    assert (Hnew : (0 <= newIndex < Z.of_nat (List.length updated))%Z).
    { unfold newIndex.
      destruct (Z.geb_spec (currentProjectIndex st)
                  (Z.of_nat (List.length updated))); lia. }
    destruct (element_in_range updated newIndex Hnew) as [p Hp].
    rewrite Hp. eexists. split; [reflexivity|]. simpl.
    split; [reflexivity|]. right. exists p. auto.
  - eexists. split; [reflexivity|]. simpl. split; [reflexivity|]. left.
    destruct updated; [auto | simpl in *; lia].
Qed.

(** X25. When the current project exists, [handleDeleteProject] does not
    throw; it removes every project with the given id and keeps the others
    in order.  If a project is left, the current index is an index of the
    list and the editor shows the tasks, arrows and counter stored for the
    project at that index; if none is left, the editor shows no task, no
    arrow and the counter 0. *)
Theorem handleDeleteProject_valid (localId : string) (st : State) :
  validProject st = true ->
  exists st', handleDeleteProject localId st = Normal st'
    /\ projects st'
       = filter (fun p => negb (String.eqb (Project.localId p) localId))
                (projects st)
    /\ ~ In localId (map Project.localId (projects st'))
    /\ ((projects st' = [] /\ tasks st' = [] /\ arrows st' = []
         /\ taskIdCounter st' = 0%Z)
        \/ (exists p,
              element (projects st') (currentProjectIndex st') = Some p
              /\ tasks st' = Project.tasks p
              /\ arrows st' = Project.arrows p
              /\ taskIdCounter st' = Project.taskIdCounter p)).
Proof.
  intros Hv. destruct (handleDeleteProject_spec localId st Hv)
    as (st' & H & Hp & Hcases).
  exists st'. split; [exact H|]. split; [exact Hp|]. split; [|exact Hcases].
  rewrite Hp. intros Hin. apply in_map_iff in Hin as (p & Hid & Hin).
  apply filter_In in Hin as [_ Hne].
  apply negb_true_iff, String.eqb_neq in Hne. contradiction.
Qed.

(** ** No action throws on ordinary ids *)

Lemma updateStyles_plain tasks arrows selT selA :
  plainIds arrows = true ->
  exists out, updateStyles tasks arrows selT selA = Normal out.
Proof.
  intros Hp. unfold updateStyles.
  pose proof (detectAllCycles_outcome arrows) as H.
  destruct (detectAllCycles arrows) as [cyc| |]; simpl;
    [eauto | congruence | contradiction].
Qed.

Lemma plainIds_filter f arrows :
  plainIds arrows = true -> plainIds (filter f arrows) = true.
Proof.
  unfold plainIds. rewrite !forallb_forall. intros H a Ha.
  apply filter_In in Ha as [Ha _]. auto.
Qed.

Lemma plainIds_retype newType arrows :
  plainIds (map (retypeArrow newType) arrows) = plainIds arrows.
Proof.
  unfold plainIds. induction arrows as [|a l IH]; simpl; [reflexivity|].
  now rewrite IH.
Qed.

Lemma saves_after_styles env st tasks' arrows' selT selA
    (k : Snapshot.t -> State) :
  validProject st = true -> plainIds arrows' = true ->
  (forall styled, currentProjectIndex (k styled) = currentProjectIndex st) ->
  exists st',
    (styled <- updateStyles tasks' arrows' selT selA ;;
     saveToLocalStorage env st (k styled)) = Normal st'.
Proof.
  intros Hv Hp Hk.
  destruct (updateStyles_plain tasks' arrows' selT selA Hp) as [out Ho].
  rewrite Ho. simpl.
  destruct (saveToLocalStorage_valid env st (k out) Hv (Hk out))
    as (st' & Hs & _).
  eauto.
Qed.

(** On a call stack that suffices for [detectAllCycles], every action
    returns a state when the current project exists, the history cursor is
    in range, and neither the arrows shown nor the arguments of the action
    name an inherited member. *)
Lemma perform_plain_outcome (env : Env) (a : Action) (st : State) :
  validProject st = true -> historyOk st ->
  plainIds (arrows st) = true -> plainAction a ->
  exists st', perform env a st = Normal st'.
Proof.
  intros Hv Hok Hp Ha.
  destruct a as [ev| position | newType | uuid now | localId]; simpl.
  - destruct ev as [params|edge|task| | |id label c| | |project]; simpl.
    + unfold onConnect.
      destruct (source params) as [src|] eqn:Es; [|eauto].
      destruct (target params) as [tgt|] eqn:Et; [|eauto].
      destruct (negb (truthy src) || negb (truthy tgt)); [eauto|].
      destruct (existsb _ (arrows st)); [eauto|].
      apply saves_after_styles; auto.
      destruct (Ha src tgt Es Et) as [H1 H2].
      unfold plainIds in *. rewrite forallb_app, Hp. simpl.
      now rewrite H1, H2.
    + unfold onEdgeClick.
      destruct (updateStyles_plain (tasks st) (arrows st) None
                  (Some (Edge.id edge)) Hp) as [out ->].
      simpl. eauto.
    + unfold onTaskClick. eauto.
    + unfold onPaneClick.
      destruct (updateStyles_plain (tasks st) (arrows st) None None Hp)
        as [out ->].
      simpl. eauto.
    + unfold deleteSelected.
      destruct (truthy_opt (selectedTaskId st)).
      * apply saves_after_styles; auto. now apply plainIds_filter.
      * destruct (truthy_opt (selectedArrowId st)); [|eauto].
        apply saves_after_styles; auto. now apply plainIds_filter.
    + unfold updateTask. apply saves_after_styles; auto.
    + destruct (undo_spec st Hok) as (st' & H & _). eauto.
    + destruct (redo_spec st Hok) as (st' & H & _). eauto.
    + unfold handleProjectSwitch.
      destruct (saveToLocalStorage_valid env st st Hv eq_refl)
        as (pending & -> & _).
      simpl. unfold handleProjectSwitch_timeout.
      simpl in Ha.
      destruct (updateStyles_plain (Project.tasks project)
                  (map (fun arrow =>
                          {| Edge.id := Edge.id arrow;
                             Edge.source := Edge.source arrow;
                             Edge.target := Edge.target arrow;
                             Edge.type := Some (arrowTypeName (arrowType st));
                             Edge.style := Edge.style arrow;
                             Edge.markerEnd :=
                               Some {| marker_type := ArrowClosed;
                                       color := None |} |})
                       (Project.arrows project))
                  (selectedTaskId st) (selectedArrowId st)) as [out ->].
      { rewrite <- Ha. apply (plainIds_retype (arrowType st)). }
      simpl. eauto.
  - unfold addTask. apply saves_after_styles; auto.
  - unfold handleArrowTypeChange. apply saves_after_styles; auto.
    now rewrite plainIds_retype.
  - eauto.
  - destruct (handleDeleteProject_spec localId st Hv) as (st' & H & _).
    eauto.
Qed.

(** X26. No action of the editor throws a [TypeError] on ordinary ids: when
    the current project exists, the history cursor is in range, and neither
    the arrows shown nor the arguments of the action name a member that the
    adjacency object inherits.  The guarded failures are the ones the
    handlers can raise themselves: reading the current project in
    [saveToLocalStorage], destructuring a missing history entry in [undo]
    and [redo], indexing the project list in [handleDeleteProject], and the
    inherited members met by [detectAllCycles].  What is left is the
    [RangeError] of a call stack that the recursion of [detectAllCycles]
    exhausts, which this statement does not exclude. *)
Theorem perform_no_TypeError (env : Env) (a : Action) (st : State) :
  validProject st = true -> historyOk st ->
  plainIds (arrows st) = true -> plainAction a ->
  perform env a st <> TypeError.
Proof.
  intros Hv Hok Hp Ha.
  destruct (perform_plain_outcome env a st Hv Hok Hp Ha) as [st' E].
  rewrite E. discriminate.
Qed.

(** ** The task list of the delete dialogue *)

Lemma filter_split_length {A : Type} (f : A -> bool) (l : list A) :
  List.length (filter (fun x => negb (f x)) l) + List.length (filter f l)
  = List.length l.
Proof.
  induction l as [|x l IH]; simpl; [reflexivity|].
  destruct (f x); simpl; lia.
Qed.

Lemma filter_split_Permutation {A : Type} (f : A -> bool) (l : list A) :
  Permutation (filter (fun x => negb (f x)) l ++ filter f l) l.
Proof.
  induction l as [|x l IH]; simpl; [constructor|].
  destruct (f x); simpl.
  - apply Permutation_sym, Permutation_cons_app, Permutation_sym, IH.
  - now constructor.
Qed.

Lemma tasks_split_length (project : Project.t) :
  List.length (incompleteTasks project) + List.length (completedTasks project)
  = List.length (Project.tasks project).
Proof.
  exact (filter_split_length (fun t => completed (TaskNode.data t))
           (Project.tasks project)).
Qed.

Lemma tasks_split_Permutation (project : Project.t) :
  Permutation (incompleteTasks project ++ completedTasks project)
              (Project.tasks project).
Proof.
  exact (filter_split_Permutation (fun t => completed (TaskNode.data t))
           (Project.tasks project)).
Qed.

Lemma displayedTasks_length_eq (project : Project.t) :
  let i := Z.of_nat (List.length (incompleteTasks project)) in
  let c := Z.of_nat (List.length (completedTasks project)) in
  Z.of_nat (List.length (displayedTasks project))
  = (if (i <=? MAX_DISPLAY_TASKS)%Z
     then Z.min (i + c) MAX_DISPLAY_TASKS
     else MAX_DISPLAY_TASKS + Z.max 0 (c - (i - MAX_DISPLAY_TASKS)))%Z.
Proof.
  cbv zeta. unfold displayedTasks, slice0, MAX_DISPLAY_TASKS.
  rewrite length_app. change (10 <? 0)%Z with false. cbv iota.
  destruct (Z.leb_spec (Z.of_nat (List.length (incompleteTasks project))) 10);
    destruct (Z.ltb_spec
                (10 - Z.of_nat (List.length (incompleteTasks project))) 0);
    try lia; rewrite !length_firstn; lia.
Qed.

(** X27. The number of tasks that the delete dialogue lists.  With [i]
    incomplete and [c] completed tasks, it lists [min (i + c) 10] tasks when
    [i <= 10]; when [i > 10] the end of the second slice is negative and
    counts from the end of the completed tasks, so it lists
    [10 + max 0 (c - (i - 10))] tasks.  The tasks of the project are the
    [i + c] ones, and the count of the remaining ones is never negative. *)
Theorem displayedTasks_length (project : Project.t) :
  let i := Z.of_nat (List.length (incompleteTasks project)) in
  let c := Z.of_nat (List.length (completedTasks project)) in
  Z.of_nat (List.length (Project.tasks project)) = (i + c)%Z
  /\ Z.of_nat (List.length (displayedTasks project))
     = (if (i <=? MAX_DISPLAY_TASKS)%Z
        then Z.min (i + c) MAX_DISPLAY_TASKS
        else MAX_DISPLAY_TASKS + Z.max 0 (c - (i - MAX_DISPLAY_TASKS)))%Z
  /\ (0 <= remainingTasks project)%Z.
Proof.
  pose proof (displayedTasks_length_eq project) as Hd.
  pose proof (tasks_split_length project) as Hsum.
  cbv zeta in *. split; [lia|]. split; [exact Hd|].
  unfold remainingTasks. rewrite Hd. unfold MAX_DISPLAY_TASKS.
  destruct (Z.leb_spec (Z.of_nat (List.length (incompleteTasks project))) 10);
    lia.
Qed.

(** X28. For a project of at most ten tasks the delete dialogue lists every
    task once, the incomplete ones first and each group in the order of the
    project, and reports no remaining task. *)
Theorem displayedTasks_small_project (project : Project.t) :
  (Z.of_nat (List.length (Project.tasks project)) <= MAX_DISPLAY_TASKS)%Z ->
  displayedTasks project = incompleteTasks project ++ completedTasks project
  /\ Permutation (displayedTasks project) (Project.tasks project)
  /\ remainingTasks project = 0%Z.
Proof.
  intros Hn.
  pose proof (tasks_split_length project) as Hsum.
  pose proof (tasks_split_Permutation project) as Hperm.
  unfold MAX_DISPLAY_TASKS in Hn.
  assert (Hd : displayedTasks project
               = incompleteTasks project ++ completedTasks project).
  { unfold displayedTasks, slice0, MAX_DISPLAY_TASKS.
    destruct (Z.ltb_spec
                (10 - Z.of_nat (List.length (incompleteTasks project))) 0);
      [lia|].
    change (10 <? 0)%Z with false. cbv iota.
    rewrite !firstn_all2 by lia. reflexivity. }
  split; [exact Hd|]. split; [now rewrite Hd|].
  unfold remainingTasks. rewrite Hd, length_app. lia.
Qed.

(** ** Adding a task and changing the arrow type *)

Lemma template_of_int_inj n m :
  (0 <= n)%Z -> (0 <= m)%Z ->
  template_of_int n = template_of_int m -> n = m.
Proof.
  unfold template_of_int. intros Hn Hm.
  destruct (Z.ltb_spec n 0); [lia|]. destruct (Z.ltb_spec m 0); [lia|].
  intros E. apply template_of_nat_inj in E. lia.
Qed.

Lemma addTask_inv env position st st' :
  addTask env position st = Normal st' ->
  map taskContent (tasks st')
  = map taskContent (tasks st)
    ++ [(template_of_int (taskIdCounter st),
         {| label := "タスク" ++ template_of_int (taskIdCounter st);
            completed := false |},
         position)]
  /\ map arrowContent (arrows st') = map arrowContent (arrows st)
  /\ taskIdCounter st' = (taskIdCounter st + 1)%Z.
Proof.
  unfold addTask. intros H. apply bind_Normal in H as (styled & Hu & Hs).
  apply updateStyles_Normal in Hu as (cyc & _ & HT & HA).
  assert (Hc : taskIdCounter st' = (taskIdCounter st + 1)%Z).
  { unfold saveToLocalStorage in Hs.
    destruct (element (effectiveProjects st) (effectiveIndex st));
      [|discriminate].
    injection Hs as <-. reflexivity. }
  apply saveToLocalStorage_Normal in Hs as (Ht & Ha & _).
  simpl in Ht, Ha. rewrite Ht, Ha, HT, HA.
  rewrite map_taskContent_styleTask, map_arrowContent_styleArrow, map_app.
  auto.
Qed.

(** X29. [addTask] gives the new task a fresh id, while the counter is a
    safe integer.  If the counter is between 0 and [Number.MAX_SAFE_INTEGER]
    and every task shown has as id the numeral of a number from 0 up to, but
    not including, the counter, then the task that [addTask] appends has an
    id that no task shown has, the counter grows by one, the same holds of
    the new state, and ids that were distinct stay distinct.  The tasks and
    arrows shown before are kept. *)
Theorem addTask_fresh_id (env : Env) (position : XYPosition)
    (st st' : State) :
  idsBelowCounter st ->
  (0 <= taskIdCounter st <= MAX_SAFE_INTEGER)%Z ->
  addTask env position st = Normal st' ->
  map taskContent (tasks st')
  = map taskContent (tasks st)
    ++ [(template_of_int (taskIdCounter st),
         {| label := "タスク" ++ template_of_int (taskIdCounter st);
            completed := false |},
         position)]
  /\ map arrowContent (arrows st') = map arrowContent (arrows st)
  /\ ~ In (template_of_int (taskIdCounter st)) (map TaskNode.id (tasks st))
  /\ taskIdCounter st' = (taskIdCounter st + 1)%Z
  /\ idsBelowCounter st'
  /\ (NoDup (map TaskNode.id (tasks st)) ->
      NoDup (map TaskNode.id (tasks st'))).
Proof.
  intros Hids Hc H. apply addTask_inv in H as (HT & HA & Hcnt).
  assert (Hfresh : ~ In (template_of_int (taskIdCounter st))
                        (map TaskNode.id (tasks st))).
  { intros Hin. apply in_map_iff in Hin as (t & Hid & Hin).
    destruct (Hids t Hin) as (n & Hn & Hid').
    rewrite Hid' in Hid. apply template_of_int_inj in Hid; lia. }
  assert (Hnames : map TaskNode.id (tasks st')
                   = map TaskNode.id (tasks st)
                     ++ [template_of_int (taskIdCounter st)]).
  { assert (E : forall k, map TaskNode.id k
                          = map (fun c => fst (fst c)) (map taskContent k)).
    { intros k. rewrite map_map. reflexivity. }
    rewrite (E (tasks st')), HT, map_app, <- E. reflexivity. }
  repeat split; auto.
  - intros t Hin.
    assert (Hin' : In (TaskNode.id t) (map TaskNode.id (tasks st')))
      by now apply in_map.
    rewrite Hnames in Hin'. apply in_app_or in Hin' as [Hin'|[Hin'|[]]].
    + apply in_map_iff in Hin' as (u & Hid & Hu).
      destruct (Hids u Hu) as (n & Hn & Hid').
      exists n. split; [lia|]. congruence.
    + exists (taskIdCounter st). split; [lia|]. auto.
  - intros Hnd. rewrite Hnames. apply NoDup_app; auto.
    + repeat constructor. intros [].
    + intros x Hx [Hx'|[]]. subst. contradiction.
Qed.

(** X30. [handleArrowTypeChange] gives every arrow shown the new type and
    sets the type used for later arrows; the ids and ends of the arrows and
    the ids, data and positions of the tasks are kept, and the state shown
    before is recorded as the newest history entry. *)
Theorem handleArrowTypeChange_retypes (env : Env) (newType : ArrowType)
    (st st' : State) :
  handleArrowTypeChange env newType st = Normal st' ->
  arrowType st' = newType
  /\ (forall a, In a (arrows st') ->
        Edge.type a = Some (arrowTypeName newType))
  /\ map endpoints (arrows st') = map endpoints (arrows st)
  /\ map taskContent (tasks st') = map taskContent (tasks st)
  /\ element (history st') (historyIndex st') = Some (shown st).
Proof.
  unfold handleArrowTypeChange. intros H.
  apply bind_Normal in H as (styled & Hu & Hs).
  apply updateStyles_Normal in Hu as (cyc & _ & HT & HA).
  assert (Hty : arrowType st' = newType).
  { unfold saveToLocalStorage in Hs.
    destruct (element (effectiveProjects st) (effectiveIndex st));
      [|discriminate].
    injection Hs as <-. reflexivity. }
  pose proof Hs as Hcur.
  apply saveToLocalStorage_cursor in Hcur as (_ & _ & Hcur & _);
    [|reflexivity].
  apply saveToLocalStorage_Normal in Hs as (Ht & Ha & _).
  simpl in Ht, Ha. rewrite Ht, Ha, HT, HA.
  split; [exact Hty|]. split; [|split; [|split]].
  - intros a Hin. apply in_map_iff in Hin as (b & <- & Hin).
    apply in_map_iff in Hin as (b0 & <- & _). reflexivity.
  - rewrite !map_map. apply map_ext. reflexivity.
  - apply map_taskContent_styleTask.
  - exact Hcur.
Qed.

(* ------------------------------------------------------------------ *)
(** * The further properties on the sample data *)

Lemma detectAllCycles_flags_cycle_arrows_witness :
  exists a, In a threeCycle /\ Edge.id a = "e3"
            /\ reaches threeCycle (Edge.target a) (Edge.source a).
Proof.
  apply (@detectAllCycles_flags_cycle_arrows threeCycle ["e3"]).
  - vm_compute. reflexivity.
  - left. reflexivity.
Defined.

Lemma detectAllCycles_flags_self_loops_witness :
  exists b, find (fun e => String.eqb (Edge.source e)
                                      (Edge.source (mkArrow "e1" "1" "1"))
                           && String.eqb (Edge.target e)
                                         (Edge.source (mkArrow "e1" "1" "1")))
                 selfLoop = Some b
            /\ Edge.source b = Edge.source (mkArrow "e1" "1" "1")
            /\ Edge.target b = Edge.source (mkArrow "e1" "1" "1")
            /\ (truthy (Edge.id b) = true -> In (Edge.id b) ["e1"]).
Proof.
  apply (@detectAllCycles_flags_self_loops selfLoop ["e1"]
           (mkArrow "e1" "1" "1")).
  - vm_compute. reflexivity.
  - left. reflexivity.
  - reflexivity.
Defined.

Lemma updateStyles_red_on_cycle_witness :
  map taskContent (Snapshot.tasks styledCycle)
  = map taskContent (tasks sampleState)
  /\ map arrowContent (Snapshot.arrows styledCycle)
     = map arrowContent threeCycle
  /\ (forall a, In a (Snapshot.arrows styledCycle) -> strokeOf a = "red" ->
        exists b, In b threeCycle /\ Edge.id b = Edge.id a
                  /\ reaches threeCycle (Edge.target b) (Edge.source b)).
Proof.
  apply (@updateStyles_red_on_cycle (tasks sampleState) threeCycle None None
           styledCycle).
  vm_compute. reflexivity.
Defined.

Lemma historyOk_invariant_witness : historyOk added.
Proof.
  apply (@historyOk_invariant sampleEnv (AddTask somewhere) sampleState added).
  - by_computation.
  - vm_compute. reflexivity.
Defined.

Lemma undo_redo_navigate_witness :
  (exists st', undo afterSwitch = Normal st'
     /\ history st' = history afterSwitch
     /\ (((historyIndex afterSwitch <= 0)%Z /\ st' = afterSwitch)
         \/ ((historyIndex afterSwitch > 0)%Z
             /\ historyIndex st' = (historyIndex afterSwitch - 1)%Z
             /\ element (history afterSwitch) (historyIndex st')
                = Some (shown st'))))
  /\ (exists st', redo afterSwitch = Normal st'
        /\ history st' = history afterSwitch
        /\ (((historyIndex afterSwitch
              >= Z.of_nat (List.length (history afterSwitch)) - 1)%Z
             /\ st' = afterSwitch)
            \/ ((historyIndex afterSwitch
                 < Z.of_nat (List.length (history afterSwitch)) - 1)%Z
                /\ historyIndex st' = (historyIndex afterSwitch + 1)%Z
                /\ element (history afterSwitch) (historyIndex st')
                   = Some (shown st')))).
Proof.
  apply (@undo_redo_navigate afterSwitch). by_computation.
Defined.

Lemma undo_then_redo_witness :
  exists s1 s2, undo afterSwitch = Normal s1 /\ redo s1 = Normal s2
    /\ history s2 = history afterSwitch
    /\ historyIndex s2 = historyIndex afterSwitch
    /\ element (history afterSwitch) (historyIndex afterSwitch)
       = Some (shown s2)
    /\ (shown s2 = shown afterSwitch <-> s2 = afterSwitch).
Proof.
  apply (@undo_then_redo afterSwitch); by_computation.
Defined.

Lemma saveToLocalStorage_invalidates_redo_witness :
  history savedSample
  = slice0 (history sampleState) (historyIndex sampleState + 1)
    ++ [shown sampleState]
  /\ historyIndex savedSample
     = (Z.of_nat (List.length (history savedSample)) - 1)%Z
  /\ element (history savedSample) (historyIndex savedSample)
     = Some (shown sampleState)
  /\ redo savedSample = Normal savedSample.
Proof.
  apply (@saveToLocalStorage_invalidates_redo sampleEnv sampleState
           savedSample).
  vm_compute. reflexivity.
Defined.

Lemma actions_record_previous_snapshot_witness :
  history added
  = slice0 (history sampleState) (historyIndex sampleState + 1)
    ++ [shown sampleState]
  /\ element (history added) (historyIndex added) = Some (shown sampleState).
Proof.
  apply (@actions_record_previous_snapshot sampleEnv (AddTask somewhere)
           sampleState added).
  - vm_compute. reflexivity.
  - by_computation.
Defined.

Lemma first_action_cannot_be_undone_witness : undo added = Normal added.
Proof.
  apply (@first_action_cannot_be_undone sampleEnv (AddTask somewhere)
           sampleState added); vm_compute; reflexivity.
Defined.

Lemma undo_redo_drops_last_action_witness :
  (exists s1 s2, undo afterSwitch = Normal s1 /\ redo s1 = Normal s2
                 /\ shown s2 = shown renamed)
  /\ (forall e, In e (history afterSwitch) ->
                In e (history renamed) \/ e = shown renamed).
Proof.
  apply (@undo_redo_drops_last_action sampleEnv
           (Edit (ProjectSwitch otherProject)) renamed afterSwitch);
    by_computation.
Defined.

Lemma onConnect_appends_one_arrow_witness :
  connected = sampleState
  \/ exists src tgt,
       source connect13 = Some src /\ target connect13 = Some tgt
       /\ truthy src = true /\ truthy tgt = true
       /\ (forall a, In a (arrows sampleState) -> ends a <> (src, tgt))
       /\ map arrowContent (arrows connected)
          = map arrowContent (arrows sampleState)
            ++ [ (newEdgeId (arrows sampleState), src, tgt,
                  Some (arrowTypeName (arrowType sampleState))) ]
       /\ map taskContent (tasks connected)
          = map taskContent (tasks sampleState).
Proof.
  apply (@onConnect_appends_one_arrow sampleEnv connect13 sampleState
           connected).
  vm_compute. reflexivity.
Defined.

Lemma onConnect_keeps_pairs_unique_witness :
  NoDup (map ends (arrows connected)).
Proof.
  apply (@onConnect_keeps_pairs_unique sampleEnv connect13 sampleState
           connected).
  - vm_compute.
    repeat (apply NoDup_cons; [simpl; intuition discriminate|]).
    apply NoDup_nil.
  - vm_compute. reflexivity.
Defined.

Lemma onConnect_sequential_ids_witness :
  idsSequential (arrows connected) /\ NoDup (map Edge.id (arrows connected)).
Proof.
  apply (@onConnect_sequential_ids sampleEnv connect13 sampleState connected);
    vm_compute; reflexivity.
Defined.

Lemma deleteSelected_arrow_witness :
  map arrowContent (arrows afterArrowDelete)
  = map arrowContent
      (filter (fun a => negb (String.eqb (Edge.id a) "e1"))
              (arrows arrowSelected))
  /\ ~ In "e1" (map Edge.id (arrows afterArrowDelete))
  /\ map taskContent (tasks afterArrowDelete)
     = map taskContent (tasks arrowSelected)
  /\ selectedArrowId afterArrowDelete = None
  /\ selectedTaskId afterArrowDelete = selectedTaskId arrowSelected.
Proof.
  apply (@deleteSelected_arrow sampleEnv arrowSelected afterArrowDelete "e1");
    vm_compute; reflexivity.
Defined.

Lemma updateTask_changes_one_task_witness :
  map taskContent (tasks renamed)
  = map (fun t =>
           if String.eqb (TaskNode.id t) "1"
           then (TaskNode.id t,
                 {| label := "renamed";
                    completed :=
                      attemptSetCompletion t false (tasks twoProjects)
                        (arrows twoProjects) |},
                 TaskNode.position t)
           else taskContent t)
        (tasks twoProjects)
  /\ map arrowContent (arrows renamed) = map arrowContent (arrows twoProjects)
  /\ ((forall t, In t (tasks twoProjects) -> TaskNode.id t <> "1") ->
      map taskContent (tasks renamed) = map taskContent (tasks twoProjects)
      /\ history renamed
         = slice0 (history twoProjects) (historyIndex twoProjects + 1)
           ++ [shown twoProjects]).
Proof.
  apply (@updateTask_changes_one_task sampleEnv "1" "renamed" false
           twoProjects renamed).
  vm_compute. reflexivity.
Defined.

Lemma selectionExclusive_invariant_witness : selectionExclusive added.
Proof.
  apply (@selectionExclusive_invariant sampleEnv (AddTask somewhere)
           sampleState added).
  - left. reflexivity.
  - vm_compute. reflexivity.
Defined.

Lemma saveToLocalStorage_stores_current_witness :
  List.length (projects savedSample) = List.length (projects sampleState)
  /\ (forall j, j <> currentProjectIndex sampleState ->
        element (projects savedSample) j = element (projects sampleState) j)
  /\ exists p,
       element (projects sampleState) (currentProjectIndex sampleState)
       = Some p
       /\ element (projects savedSample) (currentProjectIndex sampleState)
          = Some {| Project.localId := Project.localId p;
                    Project.title := Project.title p;
                    Project.tasks := tasks sampleState;
                    Project.arrows := arrows sampleState;
                    Project.taskIdCounter := taskIdCounter sampleState;
                    Project.lastSavedAt := Some (now sampleEnv);
                    Project.viewport := Some (currentViewport sampleEnv) |}.
Proof.
  apply (@saveToLocalStorage_stores_current sampleEnv sampleState sampleState
           savedSample); vm_compute; reflexivity.
Defined.

Lemma handleProjectSwitch_loads_witness :
  map taskContent (tasks afterSwitch)
  = map taskContent (Project.tasks otherProject)
  /\ map endpoints (arrows afterSwitch)
     = map endpoints (Project.arrows otherProject)
  /\ (forall a, In a (arrows afterSwitch) ->
        Edge.type a = Some (arrowTypeName (arrowType renamed)))
  /\ taskIdCounter afterSwitch = Project.taskIdCounter otherProject
  /\ ((exists p, In p (effectiveProjects renamed)
                 /\ Project.localId p = Project.localId otherProject) ->
      exists p, element (effectiveProjects renamed)
                  (currentProjectIndex afterSwitch) = Some p
                /\ Project.localId p = Project.localId otherProject)
  /\ ((forall p, In p (effectiveProjects renamed) ->
                 Project.localId p <> Project.localId otherProject) ->
      currentProjectIndex afterSwitch = (-1)%Z
      /\ forall env', saveToLocalStorage env' afterSwitch afterSwitch
                      = TypeError).
Proof.
  apply (@handleProjectSwitch_loads sampleEnv otherProject renamed
           afterSwitch).
  vm_compute. reflexivity.
Defined.

Lemma switch_away_and_back_witness :
  map taskContent (tasks switchedBack) = map taskContent (tasks renamed)
  /\ map endpoints (arrows switchedBack) = map endpoints (arrows renamed)
  /\ taskIdCounter switchedBack = taskIdCounter renamed
  /\ Project.localId savedEntry
     = match element (projects renamed) (currentProjectIndex renamed) with
       | Some p => Project.localId p
       | None => ""
       end.
Proof.
  apply (@switch_away_and_back sampleEnv sampleEnv otherProject savedEntry
           renamed afterSwitch switchedBack); vm_compute; reflexivity.
Defined.

Lemma handleDeleteProject_valid_witness :
  exists st', handleDeleteProject "other-project" twoProjects = Normal st'
    /\ projects st'
       = filter (fun p => negb (String.eqb (Project.localId p)
                                           "other-project"))
                (projects twoProjects)
    /\ ~ In "other-project" (map Project.localId (projects st'))
    /\ ((projects st' = [] /\ tasks st' = [] /\ arrows st' = []
         /\ taskIdCounter st' = 0%Z)
        \/ (exists p,
              element (projects st') (currentProjectIndex st') = Some p
              /\ tasks st' = Project.tasks p
              /\ arrows st' = Project.arrows p
              /\ taskIdCounter st' = Project.taskIdCounter p)).
Proof.
  apply (@handleDeleteProject_valid "other-project" twoProjects).
  vm_compute. reflexivity.
Defined.

Lemma perform_no_TypeError_witness :
  perform sampleEnv (Edit (Connect connect13)) sampleState <> TypeError.
Proof.
  apply (@perform_no_TypeError sampleEnv (Edit (Connect connect13))
           sampleState).
  - vm_compute. reflexivity.
  - by_computation.
  - vm_compute. reflexivity.
  - intros src tgt E1 E2. injection E1 as <-. injection E2 as <-.
    split; vm_compute; reflexivity.
Defined.

Lemma displayedTasks_small_project_witness :
  displayedTasks sampleProject
  = incompleteTasks sampleProject ++ completedTasks sampleProject
  /\ Permutation (displayedTasks sampleProject) (Project.tasks sampleProject)
  /\ remainingTasks sampleProject = 0%Z.
Proof.
  apply (@displayedTasks_small_project sampleProject). by_computation.
Defined.

Lemma addTask_fresh_id_witness :
  map taskContent (tasks added)
  = map taskContent (tasks sampleState)
    ++ [(template_of_int (taskIdCounter sampleState),
         {| label := "タスク" ++ template_of_int (taskIdCounter sampleState);
            completed := false |},
         somewhere)]
  /\ map arrowContent (arrows added) = map arrowContent (arrows sampleState)
  /\ ~ In (template_of_int (taskIdCounter sampleState))
          (map TaskNode.id (tasks sampleState))
  /\ taskIdCounter added = (taskIdCounter sampleState + 1)%Z
  /\ idsBelowCounter added
  /\ (NoDup (map TaskNode.id (tasks sampleState)) ->
      NoDup (map TaskNode.id (tasks added))).
Proof.
  apply (@addTask_fresh_id sampleEnv somewhere sampleState added).
  - intros t [<-|[<-|[<-|[]]]];
      [exists 1%Z | exists 2%Z | exists 3%Z]; by_computation.
  - by_computation.
  - vm_compute. reflexivity.
Defined.

Lemma handleArrowTypeChange_retypes_witness :
  arrowType retyped = bezier
  /\ (forall a, In a (arrows retyped) ->
        Edge.type a = Some (arrowTypeName bezier))
  /\ map endpoints (arrows retyped) = map endpoints (arrows sampleState)
  /\ map taskContent (tasks retyped) = map taskContent (tasks sampleState)
  /\ element (history retyped) (historyIndex retyped)
     = Some (shown sampleState).
Proof.
  apply (@handleArrowTypeChange_retypes sampleEnv bezier sampleState retyped).
  vm_compute. reflexivity.
Defined.

Lemma styleTask_border_witness :
  borderOf (styleTask (tasks sampleState) (arrows sampleState) None
              (mkTask "1" "タスク1" 300 100))
  = "2px solid green".
Proof.
  destruct (@styleTask_border (tasks sampleState) (arrows sampleState) None
              (mkTask "1" "タスク1" 300 100)) as [Hroot _].
  apply Hroot.
  - intros a [<-|[<-|[]]]; intro E; discriminate E.
  - reflexivity.
  - reflexivity.
Defined.

Lemma handleSave_then_updateTask_witness :
  match EditModal_handleSave (mkTask "2" "タスク2" 500 200)
          (tasks sampleState) (arrows sampleState) "renamed" true with
  | (id, label', completed') =>
      updateTask sampleEnv id label' completed' sampleState
  end
  = updateTask sampleEnv "2" "renamed" true sampleState.
Proof.
  destruct (@handleSave_then_updateTask sampleEnv
              (mkTask "2" "タスク2" 500 200) "renamed" true sampleState)
    as [Htwice _].
  apply Htwice.
  intros u [<-|[<-|[<-|[]]]] E; try discriminate E; reflexivity.
Defined.
